(** * Bodkin: schema inference and unification, shallow embedding

    This development embeds the schema engine of the bodkin Go library
    (bodkin.go, schema.go, types.go and the reader's InputMap) and checks
    the claims made about it by its specification.

    Modelling choices, all following the Go source:
    - Arrow data types are an inductive [DataType]; an [arrow.Field] is a
      [Field] whose type is an [option DataType], [None] standing for a nil
      [arrow.DataType] (the zero [arrow.Field]).
    - A Go [panic] (nil interface method call, nil pointer dereference,
      [arrow.ListOf(nil)]) is the [None] outcome of the option monad.
    - The schema tree of [*fieldPos] nodes is a rose tree; the parent
      back-pointer of a node is modelled by [parentLink], which says whether
      the pointer designates the tree parent or a node outside the tree.
    - Go map iteration (record keys, [childmap]) follows list order.
    - Regular expressions of the leaf classifier are matched by Brzozowski
      derivatives over ASCII strings. *)

From Stdlib Require Import String Ascii List ZArith Bool Lia Permutation Sorted.
Import ListNotations.
Open Scope string_scope.
Open Scope list_scope.
Set Warnings "-register-all".

(** ** Arrow types *)

Inductive TimeUnit := Second | Millisecond | Microsecond | Nanosecond.

Definition TimeUnit_eqb (a b : TimeUnit) : bool :=
  match a, b with
  | Second, Second | Millisecond, Millisecond
  | Microsecond, Microsecond | Nanosecond, Nanosecond => true
  | _, _ => false
  end.

(** [arrow.Type], the type identifiers used by [Type.ID()]. *)
Inductive Type_ :=
| NULL | BOOL | UINT8 | INT8 | UINT16 | INT16 | UINT32 | INT32 | UINT64 | INT64
| FLOAT16 | FLOAT32 | FLOAT64 | STRING | BINARY | DATE32 | TIMESTAMP | TIME64
| LIST | STRUCT.

Definition Type_eqb (a b : Type_) : bool :=
  match a, b with
  | NULL, NULL | BOOL, BOOL | UINT8, UINT8 | INT8, INT8 | UINT16, UINT16
  | INT16, INT16 | UINT32, UINT32 | INT32, INT32 | UINT64, UINT64
  | INT64, INT64 | FLOAT16, FLOAT16 | FLOAT32, FLOAT32 | FLOAT64, FLOAT64
  | STRING, STRING | BINARY, BINARY | DATE32, DATE32 | TIMESTAMP, TIMESTAMP
  | TIME64, TIME64 | LIST, LIST | STRUCT, STRUCT => true
  | _, _ => false
  end.

(** [arrow.DataType] values, and [arrow.Field] (name, type, nullability). *)
Inductive DataType :=
| NullType | BooleanType
| Uint8Type | Int8Type | Uint16Type | Int16Type
| Uint32Type | Int32Type | Uint64Type | Int64Type
| Float16Type | Float32Type | Float64Type
| StringType | BinaryType | Date32Type
| TimestampType (unit : TimeUnit)      (* every timestamp used has tz=UTC *)
| Time64Type (unit : TimeUnit)
| ListType (elem : Field)
| StructType (fields : list Field)
with Field :=
| mkField (fname : string) (ftype : option DataType) (fnullable : bool).

Definition fname (f : Field) : string := let 'mkField n _ _ := f in n.
Definition ftype (f : Field) : option DataType := let 'mkField _ t _ := f in t.

(** [DataType.ID()]. *)
Definition ID (t : DataType) : Type_ :=
  match t with
  | NullType => NULL | BooleanType => BOOL
  | Uint8Type => UINT8 | Int8Type => INT8 | Uint16Type => UINT16
  | Int16Type => INT16 | Uint32Type => UINT32 | Int32Type => INT32
  | Uint64Type => UINT64 | Int64Type => INT64
  | Float16Type => FLOAT16 | Float32Type => FLOAT32 | Float64Type => FLOAT64
  | StringType => STRING | BinaryType => BINARY | Date32Type => DATE32
  | TimestampType _ => TIMESTAMP | Time64Type _ => TIME64
  | ListType _ => LIST | StructType _ => STRUCT
  end.

(** [field.Type.ID()]: [None] when the type is nil (the call panics). *)
Definition tid (f : Field) : option Type_ := option_map ID (ftype f).

(** [arrow.TypeEqual] and [arrow.Field.Equal] (no metadata is ever set). *)
Fixpoint DataType_eqb (a b : DataType) : bool :=
  match a, b with
  | TimestampType u, TimestampType v => TimeUnit_eqb u v
  | Time64Type u, Time64Type v => TimeUnit_eqb u v
  | ListType f, ListType g => Field_eqb f g
  | StructType fs, StructType gs =>
      (fix go (fs gs : list Field) : bool :=
         match fs, gs with
         | [], [] => true
         | f :: fs', g :: gs' => Field_eqb f g && go fs' gs'
         | _, _ => false
         end) fs gs
  | _, _ => Type_eqb (ID a) (ID b)
  end
with Field_eqb (f g : Field) : bool :=
  match f, g with
  | mkField n t b, mkField n' t' b' =>
      String.eqb n n' && Bool.eqb b b' &&
      match t, t' with
      | Some x, Some y => DataType_eqb x y
      | None, None => true
      | _, _ => false
      end
  end.

(** [arrow.ListOf]: panics on a nil element type. *)
Definition ListOf (t : option DataType) : option DataType :=
  match t with
  | Some e => Some (ListType (mkField "item" (Some e) true))
  | None => None
  end.

Definition StructOf (fs : list Field) : DataType := StructType fs.

(** The fixed-width types of arrow-go used by the code. *)
Definition Timestamp_us : DataType := TimestampType Microsecond.
Definition Timestamp_ms : DataType := TimestampType Millisecond.
Definition Time64ns : DataType := Time64Type Nanosecond.

(** ** Regular expressions (Go [regexp], anchored with [^...$]) *)

Inductive re :=
| RNone
| REps
| RChr (p : ascii -> bool)
| RCat (r s : re)
| RAlt (r s : re)
| RStar (r : re).

Definition rcat (r s : re) : re :=
  match r, s with
  | RNone, _ | _, RNone => RNone
  | REps, _ => s
  | _, REps => r
  | _, _ => RCat r s
  end.

Definition ralt (r s : re) : re :=
  match r, s with
  | RNone, _ => s
  | _, RNone => r
  | _, _ => RAlt r s
  end.

Fixpoint nullable (r : re) : bool :=
  match r with
  | RNone | RChr _ => false
  | REps | RStar _ => true
  | RCat r s => nullable r && nullable s
  | RAlt r s => nullable r || nullable s
  end.

Fixpoint deriv (c : ascii) (r : re) : re :=
  match r with
  | RNone | REps => RNone
  | RChr p => if p c then REps else RNone
  | RCat r s =>
      ralt (rcat (deriv c r) s) (if nullable r then deriv c s else RNone)
  | RAlt r s => ralt (deriv c r) (deriv c s)
  | RStar r => rcat (deriv c r) (RStar r)
  end.

Fixpoint re_matches (r : re) (s : string) : bool :=
  match s with
  | EmptyString => nullable r
  | String c s' => re_matches (deriv c r) s'
  end.

(** [regexp.MatchString] of a pattern anchored at both ends. *)
Definition MatchString (r : re) (s : string) : bool := re_matches r s.

Definition is_digit (c : ascii) : bool :=
  let n := nat_of_ascii c in Nat.leb 48 n && Nat.leb n 57.
Definition lit (c : ascii) : re := RChr (fun d => Ascii.eqb c d).
Definition D : re := RChr is_digit.                        (* \d *)
Definition opt (r : re) : re := RAlt REps r.                (* r? *)
Definition plus (r : re) : re := RCat r (RStar r).          (* r+ *)
Fixpoint rep (n : nat) (r : re) : re :=                     (* r{n} *)
  match n with O => REps | S n' => RCat r (rep n' r) end.
Definition rep_range (m n : nat) (r : re) : re :=           (* r{m,n} *)
  RCat (rep m r) ((fix go k := match k with
                                | O => REps
                                | S k' => opt (RCat r (go k'))
                                end) (n - m)).
Fixpoint rseq (rs : list re) : re :=
  match rs with [] => REps | [r] => r | r :: rs' => RCat r (rseq rs') end.
Definition word (s : string) : re := rseq (map lit (list_ascii_of_string s)).
Definition sign : re := RChr (fun c => Ascii.eqb c "+" || Ascii.eqb c "-").

(** Pieces shared by the timestamp patterns. *)
Definition ymd : re := rseq [rep 4 D; lit "-"; rep 2 D; lit "-"; rep 2 D].
Definition hms : re := rseq [rep 2 D; lit ":"; rep 2 D; lit ":"; rep 2 D].
Definition frac : re := opt (RCat (lit ".") (plus D)).       (* (\.\d+)? *)
Definition zone : re :=                                      (* (Z|[+-]\d{2}:\d{2}) *)
  RAlt (lit "Z") (rseq [sign; rep 2 D; lit ":"; rep 2 D]).

(** [registerTsMatchers] (schema.go). *)
Definition dateMatcher : re := ymd.                          (* ^\d{4}-\d{2}-\d{2}$ *)
Definition timeMatcher : re :=                               (* ^\d{1,2}:\d{1,2}:\d{1,2}(\.\d{1,6})?$ *)
  rseq [rep_range 1 2 D; lit ":"; rep_range 1 2 D; lit ":"; rep_range 1 2 D;
       opt (RCat (lit ".") (rep_range 1 6 D))].
Definition timestampMatchers : list re :=
  [ rseq [ymd; lit "T"; hms; frac; zone];
    rseq [ymd; lit " "; hms; frac; zone];
    rseq [ymd; lit " "; hms];
    rseq [rep 4 D; lit "-"; rep_range 1 2 D; lit "-"; rep_range 1 2 D;
         RChr (fun c => Ascii.eqb c "T" || Ascii.eqb c " ");
         rep_range 1 2 D; lit ":"; rep_range 1 2 D; lit ":"; rep_range 1 2 D;
         opt (RCat (lit ".") (rep_range 1 6 D));
         RStar (lit " ");
         opt (RAlt (rseq [sign; rep_range 1 2 D; opt (RCat (lit ":") (rep_range 1 2 D))])
                   (RAlt (lit "Z") (word "UTC")))] ].

(** [registerQuotedStringValueMatchers] (schema.go). *)
Definition integerMatcher : re := RCat (opt sign) (plus D).   (* ^[-+]?\d+$ *)
Definition floatMatcher : re :=                               (* ^[-+]?(?:\d+\.?\d*|\.\d+)(?:[eE][-+]?\d+)?$ *)
  rseq [opt sign;
       RAlt (rseq [plus D; opt (lit "."); RStar D]) (RCat (lit ".") (plus D));
       opt (rseq [RChr (fun c => Ascii.eqb c "e" || Ascii.eqb c "E"); opt sign; plus D])].
Definition boolMatcher : list string := ["true"; "false"].

(** ** Panics: the option monad *)

Notation "'let*' x ':=' m 'in' k" :=
  (match m with Some x => k | None => None end)
  (at level 200, x name, m at level 100, k at level 200).

(** ** Decoded records (the values [reader.InputMap] hands to the walker)

    JSON input is decoded with [UseNumber], so JSON numbers are
    [json.Number] strings; Go values decoded by mapstructure keep their Go
    scalar types. *)

Inductive Value :=
| VNull                                   (* nil *)
| VBool (b : bool)
| VNumber (s : string)                    (* json.Number *)
| VTime                                   (* time.Time *)
| VInt (n : Z) | VInt8 (n : Z) | VInt16 (n : Z) | VInt32 (n : Z) | VInt64 (n : Z)
| VUint (n : Z) | VUint8 (n : Z) | VUint16 (n : Z) | VUint32 (n : Z) | VUint64 (n : Z)
| VFloat32 | VFloat64
| VString (s : string)
| VBytes (bs : list Byte.byte)            (* []byte *)
| VList (l : list Value)                  (* []any *)
| VMap (m : list (string * Value)).       (* map[string]any *)

Definition Record_ := list (string * Value).

(** [strconv.ParseInt(s, 10, 64)] succeeds, as used by [json.Number.Int64]. *)
Fixpoint digits_value (acc : Z) (l : list ascii) : option Z :=
  match l with
  | [] => Some acc
  | c :: l' =>
      if is_digit c
      then digits_value (acc * 10 + (Z.of_nat (nat_of_ascii c) - 48))%Z l'
      else None
  end.

Definition ParseInt64 (s : string) : bool :=
  let l := list_ascii_of_string s in
  let '(neg, ds) :=
    match l with
    | c :: l' => if Ascii.eqb c "-" then (true, l')
                 else if Ascii.eqb c "+" then (false, l') else (false, l)
    | [] => (false, [])
    end in
  match ds with
  | [] => false
  | _ => match digits_value 0 ds with
         | Some v => let v := if neg then Z.opp v else v in
                     Z.leb (Z.opp (Z.pow 2 63)) v && Z.leb v (Z.pow 2 63 - 1)%Z
         | None => false
         end
  end.

(** ** Engine configuration (the option fields of [Bodkin]) *)

Record Config := mkConfig {
  inferTimeUnits : bool;
  quotedValuesAreStrings : bool;
  typeConversion : bool }.

(** ** Leaf classifier: [goType2Arrow] (types.go)

    Returns the new value of [f.arrowType] ([None]: left unchanged) and the
    [arrow.DataType] ([None]: nil); the outer [None] is a panic (indexing an
    empty slice). *)
Fixpoint goType2Arrow (cfg : Config) (gt : Value)
  : option (option Type_ * option DataType) :=
  match gt with
  | VList t => match t with
               | x :: _ => goType2Arrow cfg x
               | [] => None
               end
  | VNumber s => if ParseInt64 s then Some (Some INT64, Some Int64Type)
                 else Some (Some FLOAT64, Some Float64Type)
  | VTime => Some (Some TIMESTAMP, Some Timestamp_us)
  | VInt _ => Some (Some INT64, Some Int64Type)
  | VInt8 _ => Some (Some INT8, Some Int8Type)
  | VInt16 _ => Some (Some INT16, Some Int16Type)
  | VInt32 _ => Some (Some INT32, Some Int32Type)
  | VInt64 _ => Some (Some INT64, Some Int64Type)
  | VUint _ => Some (Some UINT64, Some Uint64Type)
  | VUint8 _ => Some (Some UINT8, Some Uint8Type)
  | VUint16 _ => Some (Some UINT16, Some Uint16Type)
  | VUint32 _ => Some (Some UINT32, Some Uint32Type)
  | VUint64 _ => Some (Some UINT64, Some Uint64Type)
  | VFloat32 => Some (Some FLOAT32, Some Float32Type)
  | VFloat64 => Some (Some FLOAT64, Some Float64Type)
  | VBool _ => Some (Some BOOL, Some BooleanType)
  | VString t =>
      if inferTimeUnits cfg &&
         existsb (fun r => MatchString r t) timestampMatchers
      then Some (Some TIMESTAMP, Some Timestamp_us)
      else if inferTimeUnits cfg && MatchString dateMatcher t
      then Some (Some DATE32, Some Date32Type)
      else if inferTimeUnits cfg && MatchString timeMatcher t
      then Some (Some TIME64, Some Time64ns)
      else if negb (quotedValuesAreStrings cfg) &&
              existsb (String.eqb t) boolMatcher
      then Some (Some BOOL, Some BooleanType)
      else if negb (quotedValuesAreStrings cfg) && MatchString integerMatcher t
      then Some (Some INT64, Some Int64Type)
      else if negb (quotedValuesAreStrings cfg) && MatchString floatMatcher t
      then Some (Some FLOAT64, Some Float64Type)
      else Some (Some STRING, Some StringType)
  | VBytes _ => Some (Some BINARY, Some BinaryType)
  | VNull => Some (Some NULL, Some BinaryType)
  | VMap _ => Some (None, None)            (* no case of the type switch *)
  end.

(** ** Schema tree nodes: [fieldPos] (schema.go)

    [parentLink] models the [parent] pointer: [Attached] when it designates
    the parent in the tree the node belongs to (nil for a root), [Detached
    pid] when it designates a node outside that tree whose field has type
    identifier [pid] ([None]: nil type). *)
Inductive Link := Attached | Detached (pid : option Type_).

Inductive fieldPos := mkFP {
  name : string;
  path : list string;
  parentLink : Link;
  arrowType : Type_;
  field : Field;
  children : list fieldPos }.

Definition zeroField : Field := mkField "" None false.

Definition setField (f : fieldPos) (fl : Field) : fieldPos :=
  mkFP (name f) (path f) (parentLink f) (arrowType f) fl (children f).
Definition setArrowType (f : fieldPos) (t : option Type_) : fieldPos :=
  match t with
  | Some t => mkFP (name f) (path f) (parentLink f) t (field f) (children f)
  | None => f
  end.
Definition setChildren (f : fieldPos) (cs : list fieldPos) : fieldPos :=
  mkFP (name f) (path f) (parentLink f) (arrowType f) (field f) cs.

(** [newFieldPos]: a root with no name and an empty path. *)
Definition newFieldPos : fieldPos := mkFP "" [] Attached NULL zeroField [].

(** [newChild]: [namePath] rebuilds the path as the parent's path followed
    by the child's name. *)
Definition newChild (f : fieldPos) (childName : string) : fieldPos :=
  mkFP childName (path f ++ [childName]) Attached NULL zeroField [].

(** [assignChild]: append to [children]; [childmap[child.name] = child]. *)
Definition assignChild (f c : fieldPos) : fieldPos :=
  setChildren f (children f ++ [c]).

(** [childmap] lookup: the last child of that name (map assignment). *)
Fixpoint lastByName (k : string) (l : list fieldPos) : option fieldPos :=
  match l with
  | [] => None
  | c :: l' => match lastByName k l' with
               | Some x => Some x
               | None => if String.eqb (name c) k then Some c else None
               end
  end.

Definition childmap (f : fieldPos) (k : string) : option fieldPos :=
  lastByName k (children f).

Definition childFields (f : fieldPos) : list Field := map field (children f).

(** ** Walker: [mapToArrow] and [sliceElemType] (schema.go) *)

Fixpoint mapToArrowLoop
  (entry : fieldPos -> string -> Value -> option (option fieldPos))
  (f : fieldPos) (m : list (string * Value)) : option fieldPos :=
  match m with
  | [] => Some (setField f (mkField (name f) (Some (StructOf (childFields f))) true))
  | (k, v) :: m' =>
      let* r := entry f k v in
      match r with
      | Some child => mapToArrowLoop entry (assignChild f child) m'
      | None => mapToArrowLoop entry f m'
      end
  end.

(** One iteration of [mapToArrow]'s loop: the child to assign, if any. *)
Fixpoint mapEntry (cfg : Config) (f : fieldPos) (k : string) (v : Value)
  {struct v} : option (option fieldPos) :=
  let child := newChild f k in
  match v with
  | VMap t =>
      let* child := mapToArrowLoop (mapEntry cfg) child t in
      match children child with
      | [] => Some None
      | _ => Some (Some (setField child
                           (mkField k (Some (StructOf (childFields child))) true)))
      end
  | VList t =>
      match t with
      | [] => Some None
      | w :: rest =>
          let* r := sliceElemType cfg child w rest in
          let '(child, et) := r in
          let* lt := ListOf et in
          Some (Some (setField child (mkField k (Some lt) true)))
      end
  | VNull => Some None
  | _ =>
      let* r := goType2Arrow cfg v in
      let '(aty, dt) := r in
      Some (Some (setField (setArrowType child aty) (mkField k dt true)))
  end
(** [sliceElemType f v] for [v = v0 :: rest]: the updated list node and
    the element type ([None]: nil). *)
with sliceElemType (cfg : Config) (f : fieldPos) (v0 : Value)
  (rest : list Value) {struct v0} : option (fieldPos * option DataType) :=
  match v0 with
  | VMap ft =>
      let child := newChild f (name f ++ ".elem") in
      let* child := mapToArrowLoop (mapEntry cfg) child ft in
      Some (assignChild f child, Some (StructOf (childFields child)))
  | VList ft =>
      match ft with
      | [] => Some (f, None)        (* arrow.GetExtensionType("skip") is nil *)
      | w :: rest' =>
          let child := newChild f (name f ++ ".elem") in
          let* r := sliceElemType cfg child w rest' in
          let '(child, et) := r in
          let* lt := ListOf et in
          Some (assignChild f child, Some lt)
      end
  | _ =>
      let* r := goType2Arrow cfg (VList (v0 :: rest)) in
      let '(aty, dt) := r in
      Some (setArrowType f aty, dt)
  end.

(** [mapToArrow f m]. Go's [for k, v := range m] visits the keys of [m]
    in an order drawn afresh for each loop; the model walks a [Record_] in
    its list order, which stands for the order of one such loop. Two walks
    of the same map in Go may use different orders, so a property that
    relates two walks carries over to the program only when it does not
    depend on their key orders. *)
Definition mapToArrow (cfg : Config) (f : fieldPos) (m : Record_) : option fieldPos :=
  mapToArrowLoop (mapEntry cfg) f m.

(** ** Path lookup and in-place update *)

Inductive GetPathResult :=
| GPFound (n : fieldPos)
| GPNotFound                 (* ErrPathNotFound *)
| GPEmpty.                   (* "getPath needs at least one key", node nil *)

(** [getPath] (schema.go). *)
Fixpoint getPath (f : fieldPos) (p : list string) {struct p} : GetPathResult :=
  match p with
  | [] => GPEmpty
  | k :: rest =>
      match childmap f k with
      | None => GPNotFound
      | Some node => match rest with
                     | [] => GPFound node
                     | _ :: _ => getPath node rest
                     end
      end
  end.

(** The node a pointer designates, addressed by its path from the root. *)
Definition nodeAt (r : fieldPos) (p : list string) : option fieldPos :=
  match p with
  | [] => Some r
  | _ :: _ => match getPath r p with GPFound n => Some n | _ => None end
  end.

(** Mutation of the node that [childmap] designates. *)
Fixpoint updLast (k : string) (g : fieldPos -> fieldPos) (l : list fieldPos)
  : list fieldPos :=
  match l with
  | [] => []
  | c :: l' =>
      if existsb (fun d => String.eqb (name d) k) l' then c :: updLast k g l'
      else if String.eqb (name c) k then g c :: l' else c :: l'
  end.

Fixpoint updateAt (f : fieldPos) (p : list string) (g : fieldPos -> fieldPos) {struct p}
  : fieldPos :=
  match p with
  | [] => g f
  | k :: rest => setChildren f (updLast k (fun c => updateAt c rest g) (children f))
  end.

(** ** Engine state: [Bodkin] (bodkin.go) *)

(** An entry of the change log ([u.changes], a chain of joined errors):
    "added <dotpath> : <type>" or "changed <dotpath> : from <t> to <t'>". *)
Inductive Change :=
| Added (p : list string) (t : DataType)
| Changed (p : list string) (from to : DataType).

Record Bodkin := mkBodkin {
  cfg : Config;
  original : fieldPos;
  old : fieldPos;
  new : option fieldPos;
  knownFields : list (string * fieldPos);
  untypedFields : list (string * fieldPos);
  unificationCount : Z;
  maxCount : Z;
  err : option string;
  changes : list Change }.

Definition setOld (u : Bodkin) (r : fieldPos) (cs : list Change) : Bodkin :=
  mkBodkin (cfg u) (original u) r (new u) (knownFields u) (untypedFields u)
    (unificationCount u) (maxCount u) (err u) cs.

(** [fieldPos.dotPath]. *)
Fixpoint joinDot (p : list string) : string :=
  match p with
  | [] => ""
  | [x] => x
  | x :: p' => x ++ "." ++ joinDot p'
  end.
Definition dotPath (p : list string) : string := "$" ++ joinDot p.

(** [graft] (schema.go): [fp] is the path of the receiving node [f]. The
    grafted node shares [n.children], whose parent pointer still designates
    [n], a node outside the cumulative tree. *)
Definition detach (pid : option Type_) (c : fieldPos) : fieldPos :=
  mkFP (name c) (path c) (Detached pid) (arrowType c) (field c) (children c).

Definition graft (u : Bodkin) (fp : list string) (n : fieldPos) : option Bodkin :=
  let* f := nodeAt (old u) fp in
  let g := mkFP (name n) (path f ++ [name n]) Attached NULL (field n)
                (map (detach (tid (field n))) (children n)) in
  let* gty := ftype (field g) in
  let log := changes u ++ [Added (path g) gty] in
  let f1 := assignChild f g in
  let* fid := tid (field f) in
  match fid with
  | STRUCT =>
      let gf := match ftype (field f) with
                | Some (StructType fs) => fs
                | _ => []
                end in
      let nf := mkField (name g) (Some (StructOf (gf ++ [field g]))) true in
      let r1 := updateAt (old u) fp (fun _ => setField f1 nf) in
      match fp with
      | [] => Some (setOld u r1 log)                    (* f.parent == nil *)
      | _ :: _ =>
          match parentLink f with
          | Attached =>
              let pp := removelast fp in
              let* p := nodeAt r1 pp in
              let* pid := tid (field p) in
              match pid with
              | LIST =>
                  let* lt := ListOf (ftype nf) in
                  Some (setOld u (updateAt r1 pp
                                    (fun x => setField x (mkField (name p) (Some lt) true))) log)
              | _ => Some (setOld u r1 log)
              end
          | Detached pid => let* _ := pid in Some (setOld u r1 log)
          end
      end
  | _ => Some (setOld u (updateAt (old u) fp (fun _ => f1)) log)
  end.

(** [UpgradableTypes] (schema.go). *)
Definition Upgradable (t : Type_) : bool :=
  match t with
  | INT8 | INT16 | INT32 | INT64 | DATE32 | TIME64 | TIMESTAMP | STRING => true
  | _ => false
  end.

(** [upgradeType] (schema.go), [o] the node at path [op]. When the check on
    [n]'s type fails the error is joined into [kin.err], a diagnostic field
    that no claim reads: the tree and the log are unchanged. *)
Definition upgradeType (u : Bodkin) (op : list string) (o n : fieldPos) (t : Type_)
  : option Bodkin :=
  let* nid := tid (field n) in
  if negb (Upgradable nid) then Some u else
  let* oldType := ftype (field o) in
  let nf := match t with
            | FLOAT64 => mkField (name o) (Some Float64Type) true
            | STRING => mkField (name o) (Some StringType) true
            | TIMESTAMP => mkField (name o) (Some Timestamp_ms) true
            | _ => field o
            end in
  let r1 := updateAt (old u) op (fun x => setField x nf) in
  let* newType := ftype nf in
  let log := changes u ++ [Changed (path o) oldType newType] in
  match parentLink o with
  | Attached =>
      match op with
      | [] => None                                      (* o.parent is nil *)
      | _ :: _ =>
          let pp := removelast op in
          let* p := nodeAt r1 pp in
          let* pid := tid (field p) in
          match pid with
          | LIST =>
              let* lt := ListOf (ftype (field n)) in
              Some (setOld u (updateAt r1 pp
                                (fun x => setField x (mkField (name p) (Some lt) true))) log)
          | STRUCT =>
              Some (setOld u (updateAt r1 pp
                                (fun x => setField x
                                   (mkField (name p) (Some (StructOf (childFields x))) true))) log)
          | _ => Some (setOld u r1 log)
          end
      end
  | Detached pid => let* _ := pid in Some (setOld u r1 log)
  end.

(** The [switch kin.field.Type.ID()] of [merge] (bodkin.go): the target of
    the [upgradeType] call it makes, if any. *)
Definition mergeTarget (a b : Type_) : option Type_ :=
  match a with
  | NULL | STRING => None
  | INT8 | INT16 | INT32 | INT64 | UINT8 | UINT16 | UINT32 | UINT64 =>
      match b with
      | FLOAT16 | FLOAT32 | FLOAT64 => Some FLOAT64
      | _ => Some STRING
      end
  | FLOAT16 =>
      match b with
      | FLOAT32 => Some FLOAT32
      | FLOAT64 => Some FLOAT64
      | _ => Some STRING
      end
  | FLOAT32 => match b with FLOAT64 => Some FLOAT64 | _ => Some STRING end
  | FLOAT64 =>
      match b with
      | INT8 | INT16 | INT32 | INT64 | UINT8 | UINT16 | UINT32 | UINT64
      | FLOAT16 | FLOAT32 => None
      | _ => Some STRING
      end
  | TIMESTAMP => match b with TIME64 => Some STRING | _ => None end
  | DATE32 => match b with TIMESTAMP => Some TIMESTAMP | _ => Some STRING end
  | TIME64 => match b with DATE32 | TIMESTAMP => Some STRING | _ => None end
  | _ => None
  end.

(** The type-conversion block of [merge] for a node found at [nPath]:
    [u.typeConversion && (!kin.field.Equal(n.field) && kin.field.Type.ID() != n.field.Type.ID())]. *)
Definition convert (u : Bodkin) (nPath : list string) (kin n : fieldPos)
  : option Bodkin :=
  if typeConversion (cfg u) then
    if Field_eqb (field kin) (field n) then Some u else
    let* a := tid (field kin) in
    let* b := tid (field n) in
    if Type_eqb a b then Some u else
    match mergeTarget a b with
    | None => Some u
    | Some t => upgradeType u nPath kin n t
    end
  else Some u.

(** [merge] (bodkin.go). [parentPath] is [n.parent.path]; [top] is
    [n.root == n.parent]. *)
Fixpoint merge (mergeAt : list string) (u : Bodkin) (n : fieldPos)
  (parentPath : list string) (top : bool) {struct n} : option Bodkin :=
  let nPath := match mergeAt with [] => path n | _ :: _ => mergeAt ++ path n end in
  let nParentPath :=
    match mergeAt with [] => parentPath | _ :: _ => mergeAt ++ parentPath end in
  let mergeChildren :=
    fix go (u : Bodkin) (l : list fieldPos) : option Bodkin :=
      match l with
      | [] => Some u
      | c :: l' => let* u' := merge mergeAt u c (path n) false in go u' l'
      end in
  match getPath (old u) nPath with
  | GPNotFound =>
      if top then graft u [] n
      else match getPath (old u) nParentPath with
           | GPFound _ => graft u nParentPath n
           | _ => None                                   (* b is nil *)
           end
  | GPFound kin =>
      let* u1 := convert u nPath kin n in
      mergeChildren u1 (children n)
  | GPEmpty =>                                          (* kin is nil *)
      if typeConversion (cfg u) then None else mergeChildren u (children n)
  end.

(** [for _, field := range u.new.children { u.merge(field, mergeAt) }]. *)
Fixpoint mergeAll (mergeAt : list string) (u : Bodkin) (l : list fieldPos)
  : option Bodkin :=
  match l with
  | [] => Some u
  | c :: l' => let* u' := merge mergeAt u c [] true in mergeAll mergeAt u' l'
  end.

(** ** Engine API (bodkin.go) *)

(** The Go value handed to [Unify]: [reader.InputMap] either returns the
    decoded record or fails ([nil] input, or input the JSON decoder or
    mapstructure rejects). *)
Inductive Input :=
| InNil
| InRecord (m : Record_)
| InUndecodable.

Inductive InputError := ErrUndefinedInput | ErrInvalidInputDecode.

(** [reader.InputMap] (reader package). *)
Definition InputMap (a : Input) : Record_ + InputError :=
  match a with
  | InNil => inr ErrUndefinedInput
  | InRecord m => inl m
  | InUndecodable => inr ErrInvalidInputDecode
  end.

Inductive BodkinError :=
| ErrMaxCountExceeded            (* "maxcount exceeded" *)
| ErrInvalidInput                (* "invalid input : ..." *)
| ErrPathNotFound.               (* "unitfyatpath ... : path not found" *)

(** The result of a call: it returns (new state, error or nil) or panics. *)
Inductive Outcome :=
| Returned (u : Bodkin) (e : option BodkinError)
| Panicked.

Definition MaxInt64 : Z := 2 ^ 63 - 1.

(** [int64] increment, with two's complement wrap-around. *)
Definition incr64 (z : Z) : Z := ((z + 1 + 2 ^ 63) mod 2 ^ 64 - 2 ^ 63)%Z.

Definition setNew (u : Bodkin) (f : fieldPos) : Bodkin :=
  mkBodkin (cfg u) (original u) (old u) (Some f) (knownFields u) (untypedFields u)
    (unificationCount u) (maxCount u) (err u) (changes u).
Definition setErr (u : Bodkin) (e : string) : Bodkin :=
  mkBodkin (cfg u) (original u) (old u) (new u) (knownFields u) (untypedFields u)
    (unificationCount u) (maxCount u) (Some e) (changes u).
Definition setCount (u : Bodkin) (c : Z) : Bodkin :=
  mkBodkin (cfg u) (original u) (old u) (new u) (knownFields u) (untypedFields u)
    c (maxCount u) (err u) (changes u).
Definition setMaxCount (u : Bodkin) (c : Z) : Bodkin :=
  mkBodkin (cfg u) (original u) (old u) (new u) (knownFields u) (untypedFields u)
    (unificationCount u) c (err u) (changes u).

(** [omap.OrderedMap.Get]. *)
Fixpoint omapGet (k : string) (m : list (string * fieldPos)) : option fieldPos :=
  match m with
  | [] => None
  | (k', v) :: m' => if String.eqb k k' then Some v else omapGet k m'
  end.

(** [Unify]. *)
Definition Unify (u : Bodkin) (a : Input) : Outcome :=
  if (maxCount u <? unificationCount u)%Z then Returned u (Some ErrMaxCountExceeded)
  else match InputMap a with
       | inr _ => Returned (setErr u "invalid input") (Some ErrInvalidInput)
       | inl m =>
           match mapToArrow (cfg u) newFieldPos m with
           | None => Panicked
           | Some f =>
               match mergeAll [] (setNew u f) (children f) with
               | None => Panicked
               | Some u2 => Returned (setCount u2 (incr64 (unificationCount u2))) None
               end
           end
       end.

(** [strings.Split(s, ".")]. *)
Fixpoint splitDot_aux (cur : string) (s : string) : list string :=
  match s with
  | EmptyString => [cur]
  | String c s' =>
      if Ascii.eqb c "." then cur :: splitDot_aux "" s'
      else splitDot_aux (cur ++ String c EmptyString) s'
  end.
Definition splitDot (s : string) : list string := splitDot_aux "" s.

(** [strings.TrimPrefix(s, "$")]. *)
Definition trimDollar (s : string) : string :=
  match s with
  | String c s' => if Ascii.eqb c "$" then s' else s
  | EmptyString => s
  end.

(** [UnifyAtPath]. *)
Definition UnifyAtPath (u : Bodkin) (a : Input) (mergeAt : string) : Outcome :=
  if (maxCount u <? unificationCount u)%Z then Returned u (Some ErrMaxCountExceeded)
  else
  let mergePath :=
    if String.eqb mergeAt "" || String.eqb mergeAt "$" then []
    else splitDot (trimDollar mergeAt) in
  match omapGet mergeAt (knownFields u) with
  | None => Returned u (Some ErrPathNotFound)
  | Some _ =>
      match InputMap a with
      | inr _ => Returned (setErr u "invalid input") (Some ErrInvalidInput)
      | inl m =>
          match mapToArrow (cfg u) newFieldPos m with
          | None => Panicked
          | Some f =>
              match mergeAll mergePath (setNew u f) (children f) with
              | None => Panicked
              | Some u2 => Returned (setCount u2 (incr64 (unificationCount u2))) None
              end
          end
      end
  end.

(** Options: [Option func(config)] (option.go). [WithCheckForUnion],
    [WithUseVariantForUnions] and [WithIOReader] set fields that no
    function modelled here reads. *)
Inductive Option_ :=
| WithInferTimeUnits
| WithTypeConversion
| WithCheckForUnion
| WithUseVariantForUnions
| WithQuotedValuesAreStrings
| WithMaxCount (i : Z)
| WithIOReader.

Definition setCfg (u : Bodkin) (c : Config) : Bodkin :=
  mkBodkin c (original u) (old u) (new u) (knownFields u) (untypedFields u)
    (unificationCount u) (maxCount u) (err u) (changes u).

(** [opt(b)]. *)
Definition applyOption (o : Option_) (u : Bodkin) : Bodkin :=
  match o with
  | WithInferTimeUnits =>
      setCfg u (mkConfig true (quotedValuesAreStrings (cfg u)) (typeConversion (cfg u)))
  | WithTypeConversion =>
      setCfg u (mkConfig (inferTimeUnits (cfg u)) (quotedValuesAreStrings (cfg u)) true)
  | WithQuotedValuesAreStrings =>
      setCfg u (mkConfig (inferTimeUnits (cfg u)) true (typeConversion (cfg u)))
  | WithMaxCount i => setMaxCount u i
  | WithCheckForUnion | WithUseVariantForUnions | WithIOReader => u
  end.

(** The zero [Bodkin{}]. *)
Definition zeroBodkin : Bodkin :=
  mkBodkin (mkConfig false false false) newFieldPos newFieldPos None [] [] 0 0 None [].

(** [newBodkin]: [None] when building the tree panics. The returned error
    is the one of [OriginSchema], always nil. Go builds [original] and
    [old] by two separate walks of [m], whose key orders are drawn
    independently; both walks here follow the list order of [m] (see
    [mapToArrow]), so only properties of one of the two trees, or
    properties that do not depend on field order, are stated about them. *)
Definition newBodkin (m : Record_) (opts : list Option_) : option Bodkin :=
  let b := fold_left (fun b o => applyOption o b) opts zeroBodkin in
  let b := mkBodkin (cfg b) (original b) (old b) (new b) [] [] (unificationCount b)
             (maxCount b) (err b) (changes b) in
  let* g := mapToArrow (cfg b) newFieldPos m in
  let* f := mapToArrow (cfg b) newFieldPos m in
  Some (mkBodkin (cfg b) g f (new b) (knownFields b) (untypedFields b)
          (unificationCount b) MaxInt64 (err b) (changes b)).

(** [NewBodkin(a, opts...)]. *)
Definition NewBodkin (a : Input) (opts : list Option_) : option (option Bodkin) :=
  match InputMap a with
  | inr _ => Some None                               (* returns nil, err *)
  | inl m => option_map Some (newBodkin m opts)
  end.

Definition ResetCount (u : Bodkin) : Bodkin := setCount u 0.
Definition ResetMaxCount (u : Bodkin) : Bodkin := setMaxCount u MaxInt64.

(** [Schema] and [OriginSchema]: the fields of the root's children. *)
Definition Schema (u : Bodkin) : list Field := map field (children (old u)).
Definition OriginSchema (u : Bodkin) : list Field := map field (children (original u)).

Definition CountPaths (u : Bodkin) : nat := length (knownFields u).
Definition CountPending (u : Bodkin) : nat := length (untypedFields u).

(** [strings.Count(p, ".")]. *)
Fixpoint countDots (s : string) : nat :=
  match s with
  | EmptyString => 0
  | String c s' => (if Ascii.eqb c "." then 1 else 0) + countDots s'
  end.

(** [sortMapKeysDesc]: keys newest first, then by depth, deepest first. *)
Definition sortMapKeysDesc (m : list (string * fieldPos)) : list string :=
  let paths := rev (map fst m) in
  let maxDepth := fold_left (fun acc p => Nat.max acc (countDots p)) paths 0 in
  flat_map (fun d => filter (fun p => Nat.eqb (countDots p) d) paths)
           (rev (List.seq 0 (S maxDepth))).

(** [Field] of bodkin.go, as listed by [Err]: dot path, [arrowType] and
    the evaluation issue. *)
Record PendingField := mkPending {
  Dotpath : string;
  PType : Type_;
  Issue : string }.

Definition ErrUndefinedFieldType : string :=
  "could not determine type of unpopulated field".
Definition ErrUndefinedArrayElementType : string :=
  "could not determine element type of empty array".

(** [Err]: the fields that could not be evaluated, read from [untypedFields]. *)
Definition Err (u : Bodkin) : list PendingField :=
  flat_map (fun p =>
              match omapGet p (untypedFields u) with
              | None => []                               (* f is nil *)
              | Some f =>
                  let d := dotPath (path f) in
                  [mkPending d (arrowType f)
                     match arrowType f with
                     | STRUCT => "struct : " ++ ErrUndefinedFieldType ++ "s"
                     | LIST => "list : " ++ ErrUndefinedArrayElementType
                     | _ => ErrUndefinedFieldType
                     end]
              end)
           (sortMapKeysDesc (untypedFields u)).

(** ** States reachable through the API

    A [Bodkin] is built by [NewBodkin] and then changed only by [Unify],
    [UnifyAtPath], [ResetCount] and [ResetMaxCount]; the other methods read it. *)
Inductive reachable : Bodkin -> Prop :=
| reach_new m opts u : newBodkin m opts = Some u -> reachable u
| reach_Unify u a u' e : reachable u -> Unify u a = Returned u' e -> reachable u'
| reach_UnifyAtPath u a p u' e :
    reachable u -> UnifyAtPath u a p = Returned u' e -> reachable u'
| reach_ResetCount u : reachable u -> reachable (ResetCount u)
| reach_ResetMaxCount u : reachable u -> reachable (ResetMaxCount u).

(** ** The classification order of string leaves, as the specification lists it

    A list of (matcher, result) pairs tried in order; the first that matches
    gives the type, [String] when none does. *)
Definition StringRule : Type := (string -> bool) * (Type_ * DataType).

Definition specStringRules (c : Config) : list StringRule :=
  (if inferTimeUnits c
   then map (fun r => (MatchString r, (TIMESTAMP, Timestamp_us))) timestampMatchers
        ++ [(MatchString dateMatcher, (DATE32, Date32Type));
            (MatchString timeMatcher, (TIME64, Time64ns))]
   else [])
  ++ (if quotedValuesAreStrings c then []
      else [(fun t => existsb (String.eqb t) boolMatcher, (BOOL, BooleanType));
            (MatchString integerMatcher, (INT64, Int64Type));
            (MatchString floatMatcher, (FLOAT64, Float64Type))]).

Fixpoint firstMatch (rules : list StringRule) (t : string) : Type_ * DataType :=
  match rules with
  | [] => (STRING, StringType)
  | (m, r) :: rules' => if m t then r else firstMatch rules' t
  end.

(** ** Scenario records of the specification (JSON numbers decoded with
    [UseNumber], as [reader.InputMap] does) *)
Definition S1 : Record_ :=
  [("count", VNumber "89"); ("next", VString "https://x/y?p=3");
   ("previous", VNull); ("results", VList [VMap [("id", VNumber "7594")]]);
   ("arrayscalar", VList []); ("datefield", VString "1979-01-01");
   ("timefield", VString "01:02:03")].

Definition S2 : Record_ :=
  [("count", VNumber "89.5"); ("previous", VString "https://x/y?p=2");
   ("results", VList [VMap [("id", VNumber "7594"); ("scalar", VNumber "241.5");
                            ("nested", VMap [("strscalar", VString "s1");
                                             ("nestedarray", VList [VNumber "123"; VNumber "456"])])]]);
   ("arrayscalar", VList [VString "str"]);
   ("datetime", VString "2024-10-24 19:03:09");
   ("event_time", VString "2024-10-24T19:03:09+00:00");
   ("datefield", VString "2024-10-24T19:03:09+00:00");
   ("timefield", VString "1970-01-01")].

Definition S3a : Record_ := [("a", VNumber "1")].
Definition S3b : Record_ := [("a", VNumber "1.5")].
Definition S5a : Record_ := [("a", VMap [("b", VNumber "1")])].
Definition S5b : Record_ := [("c", VString "y")].

(** A [Date32] leaf, then a timestamp at the same key. *)
Definition D4a : Record_ := [("d", VString "1979-01-01")].
Definition D4b : Record_ := [("d", VString "2024-10-24T19:03:09+00:00")].
(** An [int32] leaf, then an [int64] at the same key (Go values handed to
    [Unify] directly, as [mapstructure] keeps them). *)
Definition I5a : Record_ := [("a", VInt32 1)].
Definition I5b : Record_ := [("a", VInt64 2)].
(** A field added under an existing struct. *)
Definition G10b : Record_ := [("a", VMap [("b", VNumber "1"); ("c", VString "y")])].

(** The state and result of a call, [None] when it panics. *)
Definition result (o : Outcome) : option (Bodkin * option BodkinError) :=
  match o with
  | Returned u e => Some (u, e)
  | Panicked => None
  end.

(** ** Paths, lookups and the steps of a merge *)

(** The node at a path below [x], walking [childmap]; [[]] is [x] itself. *)
Fixpoint lookup (x : fieldPos) (s : list string) : option fieldPos :=
  match s with
  | [] => Some x
  | k :: s' => match childmap x k with
               | Some c => lookup c s'
               | None => None
               end
  end.

(** The arrow field of the node at a path. *)
Definition fieldAt (r : fieldPos) (q : list string) : option Field :=
  option_map field (lookup r q).

(** [strip p q]: [Some s] when [q = p ++ s]. *)
Fixpoint strip (p q : list string) : option (list string) :=
  match p, q with
  | [], _ => Some q
  | k :: p', j :: q' => if String.eqb k j then strip p' q' else None
  | _ :: _, [] => None
  end.

(** A field the engine may rewrite in place without changing its type
    identifier: the restamps of list and struct parents, the renaming of a
    receiving struct. *)
Definition fieldStable (fl fl' : Field) : Prop :=
  fl' = fl \/ (tid fl' = tid fl /\ (tid fl = Some LIST \/ tid fl = Some STRUCT)).

(** A field whose type the [switch] of [merge] may convert. *)
Definition convertible (fl : Field) : Prop :=
  exists a b t, tid fl = Some a /\ mergeTarget a b = Some t.

(** [r'] is [r] after steps that may convert the fields at the paths in [P]:
    every field of [r] is still there, unchanged up to restamps, or
    converted at a path of [P]. *)
Definition treeStep (P : list string -> Prop) (r r' : fieldPos) : Prop :=
  forall q fl, q <> [] -> fieldAt r q = Some fl ->
  exists fl', fieldAt r' q = Some fl' /\ (fieldStable fl fl' \/ (P q /\ convertible fl)).

(** The field [upgradeType] writes for the merge target [t]. *)
Definition upgradedField (nm : string) (fl : Field) (t : Type_) : Field :=
  match t with
  | FLOAT64 => mkField nm (Some Float64Type) true
  | STRING => mkField nm (Some StringType) true
  | TIMESTAMP => mkField nm (Some Timestamp_ms) true
  | _ => fl
  end.

(** The field the [switch] of [merge] leaves at a node of type [fl]
    observed with type [fn] (the [convert] step), [tc] being
    [typeConversion]. *)
Definition convertedField (tc : bool) (nm : string) (fl fn : Field) : Field :=
  if tc then
    if Field_eqb fl fn then fl else
    match tid fl, tid fn with
    | Some a, Some b =>
        if Type_eqb a b then fl else
        match mergeTarget a b with
        | None => fl
        | Some t => if Upgradable b then upgradedField nm fl t else fl
        end
    | _, _ => fl
    end
  else fl.

(** [convert] leaves a node of field [fl] observed with [fn] as it is. *)
Definition absorbs (tc : bool) (fl fn : Field) : bool :=
  negb tc ||
  match tid fl, tid fn with
  | Some a, Some b =>
      Type_eqb a b || match mergeTarget a b with
                      | None => true
                      | Some _ => negb (Upgradable b)
                      end
  | _, _ => Field_eqb fl fn
  end.

(** Every field of [r] off the path [op] stays, up to restamps. *)
Definition stableOff (op : list string) (r r' : fieldPos) : Prop :=
  forall q fl, q <> [] -> q <> op -> fieldAt r q = Some fl ->
  exists fl', fieldAt r' q = Some fl' /\ fieldStable fl fl'.

(** The loop of [merge] over the children of a node (and of [mergeAll]). *)
Fixpoint mergeList (mergeAt : list string) (u : Bodkin) (l : list fieldPos)
  (pp : list string) (top : bool) : option Bodkin :=
  match l with
  | [] => Some u
  | c :: l' => let* u' := merge mergeAt u c pp top in mergeList mergeAt u' l' pp top
  end.

(** The [path] of every node of a walker tree is the path of its parent
    followed by its name. *)
Inductive pathsOK : list string -> fieldPos -> Prop :=
| pathsOK_intro (pp : list string) (n : fieldPos) :
    path n = pp ++ [name n] ->
    (forall c, In c (children n) -> pathsOK (path n) c) -> pathsOK pp n.

(** Sibling nodes of a walker tree have distinct names. *)
Inductive namesOK : fieldPos -> Prop :=
| namesOK_intro (n : fieldPos) :
    NoDup (map name (children n)) ->
    (forall c, In c (children n) -> namesOK c) -> namesOK n.

(** After the merge of the walker node [m] into [r0], the result [r] holds
    at [path m] a field that absorbs [m] and is the converted field of the
    node [r0] held there, up to restamps. *)
Definition nodeResult (tc : bool) (r0 r : fieldPos) (m : fieldPos) : Prop :=
  exists kin', lookup r (path m) = Some kin' /\ absorbs tc (field kin') (field m) = true /\
  (forall kin, lookup r0 (path m) = Some kin ->
     fieldStable (convertedField tc (name kin) (field kin) (field m)) (field kin')).

(** [nodeResult] at every node below [n]. *)
Definition subtreeResult (tc : bool) (r0 r : fieldPos) (n : fieldPos) : Prop :=
  forall s m, lookup n s = Some m -> nodeResult tc r0 r m.

(** The node at [q] stays, its field unchanged up to restamps. *)
Definition atStable (q : list string) (r r' : fieldPos) : Prop :=
  forall x, lookup r q = Some x ->
  exists x', lookup r' q = Some x' /\ fieldStable (field x) (field x').

(** Every node below [n] has a node of [r] at its path that absorbs it. *)
Definition absorbedBy (tc : bool) (r : fieldPos) (n : fieldPos) : Prop :=
  forall s m, lookup n s = Some m ->
  exists kin, lookup r (path m) = Some kin /\ absorbs tc (field kin) (field m) = true.

(** The immediate sub-values of a decoded value. *)
Definition subValue (w v : Value) : Prop :=
  match v with
  | VList l => In w l
  | VMap m => In w (map snd m)
  | _ => False
  end.

(** The keys of a decoded Go map are distinct. *)
Fixpoint nodupKeys (l : list string) : bool :=
  match l with
  | [] => true
  | k :: l' => negb (existsb (String.eqb k) l') && nodupKeys l'
  end.

Fixpoint uniqueKeysV (v : Value) : bool :=
  match v with
  | VMap m =>
      nodupKeys (map fst m) &&
      (fix go (m : list (string * Value)) : bool :=
         match m with [] => true | (_, w) :: m' => uniqueKeysV w && go m' end) m
  | VList l =>
      (fix go (l : list Value) : bool :=
         match l with [] => true | w :: l' => uniqueKeysV w && go l' end) l
  | _ => true
  end.

Definition uniqueKeys (r : Record_) : bool := uniqueKeysV (VMap r).

(** The arrow integer type identifiers. *)
Definition isInteger (t : Type_) : bool :=
  match t with
  | INT8 | INT16 | INT32 | INT64 | UINT8 | UINT16 | UINT32 | UINT64 => true
  | _ => false
  end.

(** ** Further API functions and helpers (bodkin.go, types.go) *)

(** [ErrNoLatestSchema] (schema.go). *)
Inductive SchemaError := ErrNoLatestSchema.

(** [LastSchema] (bodkin.go): the fields of the tree built from the most
    recent record. *)
Definition LastSchema (u : Bodkin) : list Field + SchemaError :=
  match new u with
  | None => inr ErrNoLatestSchema
  | Some f => inl (map field (children f))
  end.

(** [Field] of bodkin.go, as listed by [Paths]: dot path, [arrowType] and
    number of children of a struct. *)
Record PathField := mkPathField {
  PDotpath : string;
  PArrowType : Type_;
  Childen : nat }.

(** [Paths] (bodkin.go); a key missing from [knownFields] leaves the zero
    [Field] in its slot. *)
Definition Paths (u : Bodkin) : list PathField :=
  map (fun p =>
         match omapGet p (knownFields u) with
         | None => mkPathField "" NULL 0
         | Some f =>
             mkPathField (dotPath (path f)) (arrowType f)
               match arrowType f with
               | STRUCT => length (children f)
               | _ => 0
               end
         end)
      (sortMapKeysDesc (knownFields u)).

(** [arrowTypeID2Type] (types.go); [None] is a nil [arrow.DataType]. *)
Definition arrowTypeID2Type (f : fieldPos) (t : Type_) : option DataType :=
  match t with
  | BOOL => Some BooleanType
  | INT8 => Some Int8Type
  | UINT8 => Some Uint8Type
  | INT16 => Some Int16Type
  | UINT16 => Some Uint16Type
  | INT32 => Some Int32Type
  | UINT32 => Some Uint32Type
  | INT64 => Some Int64Type
  | UINT64 => Some Uint64Type
  | FLOAT32 => Some Float32Type
  | FLOAT64 => Some Float64Type
  | TIMESTAMP => Some Timestamp_us
  | DATE32 => Some Date32Type
  | TIME64 => Some Time64ns
  | STRING => Some StringType
  | BINARY => Some BinaryType
  | NULL => Some BinaryType
  | STRUCT => Some (StructOf (childFields f))
  | LIST => Some (StructOf (childFields f))
  | FLOAT16 => None
  end.

(** The [mergePath] that [UnifyAtPath] computes from its [mergeAt]
    argument. *)
Definition mergePathOf (mergeAt : string) : list string :=
  if String.eqb mergeAt "" || String.eqb mergeAt "$" then []
  else splitDot (trimDollar mergeAt).

(** A change-log entry for an added field. *)
Definition isAdded (c : Change) : bool :=
  match c with Added _ _ => true | Changed _ _ _ => false end.

(** The relation a step of [merge] keeps between the states before and after:
    the configuration is kept and the change log is extended, with [Added]
    entries only when [typeConversion] is off. *)
Definition logStep (u u' : Bodkin) : Prop :=
  cfg u' = cfg u /\
  exists l, changes u' = changes u ++ l /\
            (typeConversion (cfg u) = false -> Forall (fun c => isAdded c = true) l).

(** A value to which [mapToArrow]'s loop assigns a child: not nil, not an
    empty slice, and a map only when it holds such a value. *)
Fixpoint kept (v : Value) : bool :=
  match v with
  | VNull => false
  | VList [] => false
  | VMap m =>
      (fix go (m : list (string * Value)) : bool :=
         match m with [] => false | (_, w) :: m' => kept w || go m' end) m
  | _ => true
  end.

(** The keys of a record that [mapToArrow] turns into children. *)
Definition keptKeys (m : list (string * Value)) : list string :=
  map fst (filter (fun kv => kept (snd kv)) m).

(** The child an iteration of [mapToArrow]'s loop assigns for the key
    [k] and the value [v], if any, and its name. *)
Definition entryKept (k : string) (v : Value) (r : option fieldPos) : Prop :=
  match r with
  | None => kept v = false
  | Some c => kept v = true /\ name c = k /\ fname (field c) = k
  end.

(** A [String] leaf named [c], grafted in a scenario below. *)
Definition nodeC : fieldPos :=
  mkFP "c" ["c"] Attached STRING (mkField "c" (Some StringType) true) [].

(** A [String] leaf at [a], the observed node in a scenario below. *)
Definition nodeS : fieldPos :=
  mkFP "a" ["a"] Attached STRING (mkField "a" (Some StringType) true) [].

(** ** Theorems *)

Lemma fold_applyOption_keep (opts : list Option_) (u : Bodkin) :
  let u' := fold_left (fun b o => applyOption o b) opts u in
  unificationCount u' = unificationCount u /\ changes u' = changes u.
Proof.
  revert u; induction opts as [|o opts IH]; intro u; simpl; [split; reflexivity|].
  destruct (IH (applyOption o u)) as [-> ->]; destruct o; split; reflexivity.
Qed.

Lemma newBodkin_fields (m : Record_) (opts : list Option_) (u : Bodkin) :
  newBodkin m opts = Some u ->
  knownFields u = [] /\ untypedFields u = [] /\ unificationCount u = 0%Z /\
  maxCount u = MaxInt64 /\ changes u = [].
Proof.
  unfold newBodkin; intro H.
  destruct (fold_applyOption_keep opts zeroBodkin) as [Hc Hl].
  destruct (mapToArrow _ newFieldPos m); [|discriminate]; simpl in H.
  injection H as <-; simpl.
  rewrite Hc, Hl; repeat split; reflexivity.
Qed.
Fixpoint fieldPos_ind' (P : fieldPos -> Prop)
  (H : forall nm p l a fl ch, Forall P ch -> P (mkFP nm p l a fl ch))
  (f : fieldPos) : P f :=
  match f with
  | mkFP nm p l a fl ch =>
      H nm p l a fl ch
        ((fix G (l : list fieldPos) : Forall P l :=
            match l with
            | [] => Forall_nil P
            | c :: l' => Forall_cons c (fieldPos_ind' P H c) (G l')
            end) ch)
  end.

Section MergeSteps.
Variable R : Bodkin -> Bodkin -> Prop.
Hypothesis R_refl : forall u, R u u.
Hypothesis R_trans : forall u v w, R u v -> R v w -> R u w.
Hypothesis R_graft : forall u fp n u', graft u fp n = Some u' -> R u u'.
Hypothesis R_convert : forall u p kin n u', convert u p kin n = Some u' -> R u u'.

Lemma merge_steps (n : fieldPos) : forall mergeAt u pp top u',
  merge mergeAt u n pp top = Some u' -> R u u'.
Proof.
  induction n as [nm p l a fl ch IH] using fieldPos_ind'.
  intros mergeAt u pp top u' H; cbn [merge path children] in H.
  destruct (getPath (old u) _) eqn:E.
  - destruct (convert u _ _ _) as [u1|] eqn:Ec; [|discriminate]; simpl in H.
    apply R_trans with u1; [eapply R_convert; eassumption|].
    clear E Ec. revert u1 H. induction IH as [|c ch' Hc Hall IHall]; intros u1 H.
    + simpl in H; inversion H; subst; apply R_refl.
    + destruct (merge mergeAt u1 c p false) as [u2|] eqn:Em; [|discriminate].
      simpl in H. apply R_trans with u2; [eapply Hc; eassumption| apply IHall; exact H].
  - destruct top; [eapply R_graft; eassumption|].
    revert H; destruct (getPath (old u) (match mergeAt with [] => pp | _ :: _ => mergeAt ++ pp end)); intro H; try discriminate. eapply R_graft; eassumption.
  - destruct (typeConversion (cfg u)); [discriminate|].
    clear E. revert u H. induction IH as [|c ch' Hc Hall IHall]; intros u1 H.
    + simpl in H; inversion H; subst; apply R_refl.
    + destruct (merge mergeAt u1 c p false) as [u2|] eqn:Em; [|discriminate].
      simpl in H. apply R_trans with u2; [eapply Hc; eassumption| apply IHall; exact H].
Qed.

Lemma mergeAll_steps (l : list fieldPos) : forall mergeAt u u',
  mergeAll mergeAt u l = Some u' -> R u u'.
Proof.
  induction l as [|c l IH]; intros mergeAt u u' H; simpl in H.
  - injection H as <-; apply R_refl.
  - destruct (merge mergeAt u c [] true) as [u2|] eqn:Em; [|discriminate].
    apply R_trans with u2; [eapply merge_steps; eassumption | eapply IH; eassumption].
Qed.
End MergeSteps.

(** The fields of the engine that [merge] does not write. *)
Definition frame (u u' : Bodkin) : Prop :=
  cfg u' = cfg u /\ original u' = original u /\ new u' = new u /\
  knownFields u' = knownFields u /\ untypedFields u' = untypedFields u /\
  unificationCount u' = unificationCount u /\ maxCount u' = maxCount u.

Lemma frame_refl (u : Bodkin) : frame u u.
Proof. repeat split. Qed.

Lemma frame_trans (u v w : Bodkin) : frame u v -> frame v w -> frame u w.
Proof.
  unfold frame; intros (H1 & H2 & H3 & H4 & H5 & H6 & H7) (G1 & G2 & G3 & G4 & G5 & G6 & G7).
  repeat split; congruence.
Qed.

Lemma setOld_frame (u : Bodkin) (r : fieldPos) (cs : list Change) :
  frame u (setOld u r cs).
Proof. repeat split. Qed.

(** Case analysis on every [match] of a hypothesis [H : ... = Some u'] until
    the returned state shows. *)
Ltac open_result H :=
  repeat match type of H with
         | Some _ = Some _ => injection H as <-
         | None = Some _ => discriminate H
         | Returned _ _ = Returned _ _ => injection H as <- <-
         | Panicked = Returned _ _ => discriminate H
         | context [match ?x with _ => _ end] => destruct x eqn:?
         | context [if ?x then _ else _] => destruct x eqn:?
         end.

Lemma graft_frame (u : Bodkin) (fp : list string) (n : fieldPos) (u' : Bodkin) :
  graft u fp n = Some u' -> frame u u'.
Proof.
  unfold graft; intro H; open_result H; apply setOld_frame.
Qed.

Lemma upgradeType_frame (u : Bodkin) (op : list string) (o n : fieldPos) (t : Type_)
  (u' : Bodkin) :
  upgradeType u op o n t = Some u' -> frame u u'.
Proof.
  unfold upgradeType; intro H; open_result H;
    first [apply frame_refl | apply setOld_frame].
Qed.

Lemma convert_frame (u : Bodkin) (p : list string) (kin n : fieldPos) (u' : Bodkin) :
  convert u p kin n = Some u' -> frame u u'.
Proof.
  unfold convert; intro H.
  repeat match type of H with
         | Some _ = Some _ => injection H as <-; apply frame_refl
         | upgradeType _ _ _ _ _ = Some _ => eapply upgradeType_frame; exact H
         | None = Some _ => discriminate H
         | context [match ?x with _ => _ end] => destruct x eqn:?
         | context [if ?x then _ else _] => destruct x eqn:?
         end.
Qed.

Lemma mergeAll_frame (mergeAt : list string) (u : Bodkin) (l : list fieldPos)
  (u' : Bodkin) :
  mergeAll mergeAt u l = Some u' -> frame u u'.
Proof.
  apply mergeAll_steps; [exact frame_refl | exact frame_trans | exact graft_frame
                        | exact convert_frame].
Qed.

(** The path stores [knownFields] and [untypedFields] stay empty. *)
Lemma reachable_stores (u : Bodkin) :
  reachable u -> knownFields u = [] /\ untypedFields u = [].
Proof.
  induction 1 as [m opts u H | u a u' e _ IH H | u a p u' e _ IH H | u _ IH | u _ IH].
  - destruct (newBodkin_fields m opts u H) as (? & ? & _); split; assumption.
  - unfold Unify in H; open_result H; try exact IH.
    match goal with E : mergeAll _ _ _ = Some _ |- _ =>
      destruct (mergeAll_frame _ _ _ _ E) as (_ & _ & _ & F4 & F5 & _) end.
    simpl; rewrite F4, F5; exact IH.
  - unfold UnifyAtPath in H; open_result H; try exact IH.
    match goal with E : mergeAll _ _ _ = Some _ |- _ =>
      destruct (mergeAll_frame _ _ _ _ E) as (_ & _ & _ & F4 & F5 & _) end.
    simpl; rewrite F4, F5; exact IH.
  - exact IH.
  - exact IH.
Qed.

Lemma firstMatch_map_app (rs : list re) (x : Type_ * DataType) (rest : list StringRule)
  (s : string) :
  firstMatch (map (fun r => (MatchString r, x)) rs ++ rest) s =
  if existsb (fun r => MatchString r s) rs then x else firstMatch rest s.
Proof.
  induction rs as [|r rs IH]; cbn [map app firstMatch existsb]; [reflexivity|].
  destruct (MatchString r s); [reflexivity | exact IH].
Qed.

(** C6: a string leaf is classified by the first rule that matches, in the
    order: the timestamp patterns (Timestamp_us), the date pattern (Date32)
    and the time pattern (Time64ns) when [inferTimeUnits] is set; then, when
    [quotedValuesAreStrings] is not set, "true"/"false" (Boolean), the
    integer pattern (Int64) and the float pattern (Float64); String when no
    rule matches. *)
Theorem goType2Arrow_string_order (c : Config) (s : string) :
  goType2Arrow c (VString s) =
  let '(t, d) := firstMatch (specStringRules c) s in Some (Some t, Some d).
Proof.
  destruct c as [[|] [|] tc]; unfold specStringRules; cbn [inferTimeUnits quotedValuesAreStrings];
    rewrite ?app_nil_r, ?app_nil_l, <- ?app_assoc, ?firstMatch_map_app;
    cbn [goType2Arrow inferTimeUnits quotedValuesAreStrings andb negb app firstMatch];
    repeat match goal with |- context [if ?b then _ else _] => destruct b end;
    reflexivity.
Qed.

(** C9: when [Unify] or [UnifyAtPath] returns an error, the cumulative tree
    [old], the change log and the unification count are those of the state
    before the call. *)
Theorem unify_error_all_or_nothing (u u' : Bodkin) (a : Input) (mergeAt : string)
  (e : BodkinError) :
  Unify u a = Returned u' (Some e) \/ UnifyAtPath u a mergeAt = Returned u' (Some e) ->
  old u' = old u /\ changes u' = changes u /\ unificationCount u' = unificationCount u.
Proof.
  intros [H | H]; [unfold Unify in H | unfold UnifyAtPath in H]; open_result H;
    try discriminate; repeat split.
Qed.

(** Scenario D4, then three failing calls on the state it leaves: a nil
    input, an unknown merge path and an exhausted unification budget. The
    state already holds a tree, a logged change and a count of 1. *)
Lemma unify_error_all_or_nothing_witness :
  exists u0 u1,
    newBodkin D4a [WithInferTimeUnits; WithTypeConversion] = Some u0 /\
    Unify u0 (InRecord D4b) = Returned u1 None /\
    old u1 <> newFieldPos /\ changes u1 <> [] /\ unificationCount u1 = 1%Z /\
    (Unify u1 InNil = Returned (setErr u1 "invalid input") (Some ErrInvalidInput) /\
     old (setErr u1 "invalid input") = old u1 /\
     changes (setErr u1 "invalid input") = changes u1 /\
     unificationCount (setErr u1 "invalid input") = unificationCount u1) /\
    (UnifyAtPath u1 (InRecord S5b) "$x" = Returned u1 (Some ErrPathNotFound) /\
     old u1 = old u1 /\ changes u1 = changes u1 /\ unificationCount u1 = unificationCount u1) /\
    (Unify (setMaxCount u1 0) (InRecord D4a) =
       Returned (setMaxCount u1 0) (Some ErrMaxCountExceeded) /\
     old (setMaxCount u1 0) = old u1 /\ changes (setMaxCount u1 0) = changes u1 /\
     unificationCount (setMaxCount u1 0) = unificationCount u1).
Proof.
  let v := eval vm_compute in (newBodkin D4a [WithInferTimeUnits; WithTypeConversion]) in
  match v with Some ?u0 =>
    let w := eval vm_compute in (Unify u0 (InRecord D4b)) in
    match w with Returned ?u1 None =>
      exists u0, u1;
      assert (E1 : Unify u1 InNil = Returned (setErr u1 "invalid input") (Some ErrInvalidInput))
        by (vm_compute; reflexivity);
      assert (E2 : UnifyAtPath u1 (InRecord S5b) "$x" = Returned u1 (Some ErrPathNotFound))
        by (vm_compute; reflexivity);
      assert (E3 : Unify (setMaxCount u1 0) (InRecord D4a) =
                   Returned (setMaxCount u1 0) (Some ErrMaxCountExceeded))
        by (vm_compute; reflexivity);
      split; [vm_compute; reflexivity|]; split; [vm_compute; reflexivity|];
      split; [discriminate|]; split; [discriminate|]; split; [reflexivity|];
      split; [split; [exact E1 | exact (unify_error_all_or_nothing u1 _ InNil "" _ (or_introl E1))]|];
      split; [split; [exact E2 | exact (unify_error_all_or_nothing u1 _ (InRecord S5b) "$x" _ (or_intror E2))]|];
      split; [exact E3|];
      destruct (unify_error_all_or_nothing (setMaxCount u1 0) _ (InRecord D4a) "" _ (or_introl E3))
        as (A & B & C);
      split; [exact A|]; split; [exact B | exact C]
    end
  end.
Defined.

(** C1: in every state reachable through the API, [UnifyAtPath] merges
    nothing: it fails with [ErrPathNotFound] (or [ErrMaxCountExceeded] past
    the count limit) whatever the mount path, the root spellings "" and "$"
    and existing paths included, because [knownFields] is never filled. *)
Theorem UnifyAtPath_never_mounts (u : Bodkin) (a : Input) (mergeAt : string) :
  reachable u ->
  UnifyAtPath u a mergeAt =
  Returned u (Some (if (maxCount u <? unificationCount u)%Z
                    then ErrMaxCountExceeded else ErrPathNotFound)).
Proof.
  intro R; destruct (reachable_stores u R) as [Hk _].
  unfold UnifyAtPath; rewrite Hk; simpl.
  destruct (maxCount u <? unificationCount u)%Z; reflexivity.
Qed.

(** Scenario S5: [a] exists in the tree built from [{"a": {"b": 1}}], yet
    [UnifyAtPath] of [{"c": "y"}] at "$a" returns [ErrPathNotFound] and
    leaves the state as it was. *)
Lemma UnifyAtPath_never_mounts_witness :
  exists u, newBodkin S5a [] = Some u /\
    getPath (old u) ["a"] <> GPNotFound /\
    UnifyAtPath u (InRecord S5b) "$a" = Returned u (Some ErrPathNotFound).
Proof.
  eexists; split; [vm_compute; reflexivity|]; split; [vm_compute; discriminate|].
  exact (UnifyAtPath_never_mounts _ (InRecord S5b) "$a" (reach_new S5a [] _ eq_refl)).
Defined.
(** C2: scenario S3 with [type_conversion]: after [{"a": 1}], the record
    [{"a": 1.5}] leaves [a] an [int64] and adds nothing to the change log,
    because [upgradeType] checks the observed type [FLOAT64] against
    [UpgradableTypes], which lists no float type. *)
Theorem S3_int_to_float_not_promoted :
  exists u u',
    newBodkin S3a [WithTypeConversion] = Some u /\
    Unify u (InRecord S3b) = Returned u' None /\
    Schema u' = [mkField "a" (Some Int64Type) true] /\
    changes u' = [].
Proof.
  eexists; eexists; split; [vm_compute; reflexivity|].
  split; [vm_compute; reflexivity|]. split; vm_compute; reflexivity.
Qed.

(** C3: in every reachable state the pending listing is empty: [Err] lists
    nothing and [CountPending] is 0, since [mapToArrow] skips null leaves and
    empty lists without recording them in [untypedFields]. *)
Theorem pending_always_empty (u : Bodkin) :
  reachable u -> Err u = [] /\ CountPending u = 0.
Proof.
  intro R; destruct (reachable_stores u R) as [_ Hu].
  unfold Err, CountPending, sortMapKeysDesc; rewrite Hu; split; reflexivity.
Qed.

(** Scenario S1: after [NewBodkin] and [Unify] of the S1 record, with its
    [previous: null] and [arrayscalar: []], the pending listing is empty. *)
Lemma pending_always_empty_witness :
  exists u u', newBodkin S1 [WithInferTimeUnits] = Some u /\
    Unify u (InRecord S1) = Returned u' None /\ Err u' = [] /\ CountPending u' = 0.
Proof.
  let v := eval vm_compute in (newBodkin S1 [WithInferTimeUnits]) in
  match v with Some ?u =>
    let w := eval vm_compute in (Unify u (InRecord S1)) in
    match w with Returned ?u' _ =>
      exists u, u';
      assert (E : newBodkin S1 [WithInferTimeUnits] = Some u) by (vm_compute; reflexivity);
      assert (F : Unify u (InRecord S1) = Returned u' None) by (vm_compute; reflexivity)
    end
  end.
  split; [exact E|]; split; [exact F|].
  exact (pending_always_empty _ (reach_Unify _ _ _ _ (reach_new _ _ _ E) F)).
Defined.

(** C4 (counterexample): a [Date32] leaf observed with a timestamp becomes
    [timestamp[ms, tz=UTC]], not [timestamp[us]]. *)
Lemma date32_promoted_to_ms :
  exists u u',
    newBodkin D4a [WithInferTimeUnits; WithTypeConversion] = Some u /\
    Unify u (InRecord D4b) = Returned u' None /\
    Schema u' = [mkField "d" (Some (TimestampType Millisecond)) true] /\
    changes u' = [Changed ["d"] Date32Type (TimestampType Millisecond)] /\
    Schema u' <> [mkField "d" (Some (TimestampType Microsecond)) true].
Proof.
  eexists; eexists; split; [vm_compute; reflexivity|].
  split; [vm_compute; reflexivity|].
  split; [vm_compute; reflexivity|]. split; [vm_compute; reflexivity|].
  vm_compute; discriminate.
Qed.


(** C10: grafting [c] under the struct [a] renames [a]'s arrow field to
    [c]: after [{"a": {"b": 1}}], the record [{"a": {"b": 1, "c": "y"}}]
    yields the schema field [c: struct<b: int64, c: utf8>] for the node [a]. *)
Theorem graft_renames_receiving_struct :
  exists u u',
    newBodkin S5a [] = Some u /\
    Unify u (InRecord G10b) = Returned u' None /\
    Schema u = [mkField "a" (Some (StructType [mkField "b" (Some Int64Type) true])) true] /\
    Schema u' = [mkField "c" (Some (StructType [mkField "b" (Some Int64Type) true;
                                                 mkField "c" (Some StringType) true])) true] /\
    changes u' = [Added ["a"; "c"] StringType].
Proof.
  eexists; eexists; split; [vm_compute; reflexivity|].
  split; [vm_compute; reflexivity|].
  split; [vm_compute; reflexivity|]. split; vm_compute; reflexivity.
Qed.

(** ** The merge, node by node *)

Lemma getPath_lookup (r : fieldPos) (q : list string) :
  q <> [] -> getPath r q = match lookup r q with Some x => GPFound x | None => GPNotFound end.
Proof.
  revert r; induction q as [|k q IH]; intros r Hq; [congruence|].
  simpl. destruct (childmap r k) as [c|]; [|reflexivity].
  destruct q as [|j q']; [reflexivity|]. apply IH; discriminate.
Qed.

Lemma nodeAt_lookup (r : fieldPos) (p : list string) : nodeAt r p = lookup r p.
Proof.
  destruct p as [|k p]; [reflexivity|]. unfold nodeAt.
  rewrite getPath_lookup by discriminate. destruct (lookup r (k :: p)); reflexivity.
Qed.

Lemma lookup_app (r : fieldPos) (p s : list string) :
  lookup r (p ++ s) = match lookup r p with Some x => lookup x s | None => None end.
Proof.
  revert r; induction p as [|k p IH]; intro r; [reflexivity|].
  simpl. destruct (childmap r k); [apply IH | reflexivity].
Qed.

Lemma lastByName_none_existsb (k : string) (l : list fieldPos) :
  lastByName k l = None <-> existsb (fun d => String.eqb (name d) k) l = false.
Proof.
  induction l as [|c l IH]; simpl; [split; reflexivity|].
  destruct (lastByName k l) as [x|]; destruct (String.eqb (name c) k);
    simpl; split; intro H; try discriminate; try reflexivity;
    try (apply IH; reflexivity); try (rewrite <- IH in H; discriminate).
Qed.

Lemma lastByName_updLast (k j : string) (h : fieldPos -> fieldPos) (l : list fieldPos) :
  (forall c, name (h c) = name c) ->
  lastByName j (updLast k h l) =
  if String.eqb j k then option_map h (lastByName k l) else lastByName j l.
Proof.
  intro Hn; induction l as [|c l IH]; simpl.
  - destruct (String.eqb j k); reflexivity.
  - destruct (existsb (fun d => String.eqb (name d) k) l) eqn:E.
    + simpl. rewrite IH.
      destruct (String.eqb_spec j k) as [<-|Hjk]; [|reflexivity].
      destruct (lastByName j l) eqn:L; [reflexivity|].
      apply lastByName_none_existsb in L; congruence.
    + assert (L : lastByName k l = None) by (apply lastByName_none_existsb; exact E).
      destruct (String.eqb_spec (name c) k) as [Hc|Hc]; simpl.
      * rewrite Hn, Hc, L.
        destruct (String.eqb_spec j k) as [<-|Hjk].
        -- rewrite L, String.eqb_refl; reflexivity.
        -- destruct (lastByName j l); [reflexivity|].
           destruct (String.eqb_spec k j); [congruence | reflexivity].
      * rewrite L. destruct (String.eqb_spec j k) as [<-|Hjk].
        -- rewrite L. destruct (String.eqb_spec (name c) j); [congruence | reflexivity].
        -- reflexivity.
Qed.

Lemma updateAt_name (r : fieldPos) (p : list string) (g : fieldPos -> fieldPos) :
  (forall x, name (g x) = name x) -> name (updateAt r p g) = name r.
Proof. intro H; destruct p; cbn; [apply H | reflexivity]. Qed.

(** The fields below [updateAt r p g], for a [g] that keeps names. *)
Lemma fieldAt_updateAt (r : fieldPos) (p : list string) (g : fieldPos -> fieldPos)
  (q : list string) :
  (forall x, name (g x) = name x) ->
  fieldAt (updateAt r p g) q =
  match strip p q with
  | Some s => match lookup r p with Some x => fieldAt (g x) s | None => None end
  | None => fieldAt r q
  end.
Proof.
  intro Hn; revert r q; induction p as [|k p IH]; intros r q; [reflexivity|].
  destruct q as [|j q]; [reflexivity|].
  unfold fieldAt; simpl; unfold childmap; simpl.
  rewrite lastByName_updLast by (intro c; apply updateAt_name; exact Hn).
  destruct (String.eqb_spec j k) as [->|Hjk].
  - rewrite String.eqb_refl. destruct (lastByName k (children r)) as [c|]; simpl.
    + apply IH.
    + destruct (strip p q); reflexivity.
  - destruct (String.eqb_spec k j); [congruence|]. reflexivity.
Qed.

Lemma strip_app (p q s : list string) : strip p q = Some s -> q = p ++ s.
Proof.
  revert q; induction p as [|k p IH]; intros q H; simpl in H.
  - injection H as <-; reflexivity.
  - destruct q as [|j q]; [discriminate|].
    destruct (String.eqb_spec k j) as [<-|]; [|discriminate].
    simpl; f_equal; apply IH; exact H.
Qed.

Lemma strip_app_self (p s : list string) : strip p (p ++ s) = Some s.
Proof. induction p as [|k p IH]; simpl; [reflexivity|]. rewrite String.eqb_refl; exact IH. Qed.

Lemma lookup_children (x y : fieldPos) (s : list string) :
  children y = children x -> s <> [] -> lookup y s = lookup x s.
Proof.
  intros H Hs; destruct s as [|k s]; [congruence|]. simpl; unfold childmap; rewrite H; reflexivity.
Qed.

Lemma fieldAt_app (r x : fieldPos) (p s : list string) :
  lookup r p = Some x -> fieldAt x s = fieldAt r (p ++ s).
Proof. intro H; unfold fieldAt; rewrite lookup_app, H; reflexivity. Qed.

Lemma fieldAt_app_none (r : fieldPos) (p s : list string) :
  lookup r p = None -> fieldAt r (p ++ s) = None.
Proof. intro H; unfold fieldAt; rewrite lookup_app, H; reflexivity. Qed.

(** Rewriting the field of the node at [p]. *)
Lemma fieldAt_updateAt_setField (r : fieldPos) (p q : list string)
  (F : fieldPos -> Field) :
  fieldAt (updateAt r p (fun x => setField x (F x))) q =
  if list_eq_dec String.string_dec q p then option_map F (lookup r p) else fieldAt r q.
Proof.
  rewrite fieldAt_updateAt by reflexivity.
  destruct (strip p q) as [s|] eqn:E.
  - apply strip_app in E; subst q.
    destruct (list_eq_dec String.string_dec (p ++ s) p) as [Heq|Hne].
    + assert (s = []) as -> by (rewrite <- (app_nil_r p) in Heq at 2; apply app_inv_head in Heq; exact Heq).
      destruct (lookup r p); reflexivity.
    + destruct s as [|j s]; [rewrite app_nil_r in Hne; congruence|].
      destruct (lookup r p) as [x|] eqn:L.
      * unfold fieldAt. rewrite (lookup_children x) by (reflexivity || discriminate).
        apply fieldAt_app; exact L.
      * symmetry; apply fieldAt_app_none; exact L.
  - destruct (list_eq_dec String.string_dec q p) as [->|]; [|reflexivity].
    rewrite <- (app_nil_r p) in E at 2; rewrite strip_app_self in E; discriminate.
Qed.

Lemma lastByName_app1 (j : string) (l : list fieldPos) (c : fieldPos) :
  lastByName j (l ++ [c]) = if String.eqb (name c) j then Some c else lastByName j l.
Proof.
  induction l as [|d l IH]; simpl.
  - destruct (String.eqb (name c) j); reflexivity.
  - rewrite IH. destruct (String.eqb (name c) j); reflexivity.
Qed.

Lemma updLast_ext (k : string) (h1 h2 : fieldPos -> fieldPos) (l : list fieldPos) (c : fieldPos) :
  lastByName k l = Some c -> h1 c = h2 c -> updLast k h1 l = updLast k h2 l.
Proof.
  intros L E; induction l as [|d l IH]; simpl in *; [reflexivity|].
  destruct (existsb (fun d => String.eqb (name d) k) l) eqn:X.
  - f_equal. apply IH.
    destruct (lastByName k l) eqn:L'; [exact L|].
    apply lastByName_none_existsb in L'; congruence.
  - assert (L' : lastByName k l = None) by (apply lastByName_none_existsb; exact X).
    rewrite L' in L. destruct (String.eqb (name d) k); [|reflexivity].
    injection L as <-; rewrite E; reflexivity.
Qed.

Lemma updateAt_ext (r : fieldPos) (p : list string) (g1 g2 : fieldPos -> fieldPos) (x : fieldPos) :
  lookup r p = Some x -> g1 x = g2 x -> updateAt r p g1 = updateAt r p g2.
Proof.
  revert r; induction p as [|k p IH]; intros r L E; simpl in *.
  - injection L as <-; exact E.
  - unfold childmap in L. destruct (lastByName k (children r)) as [c|] eqn:C; [|discriminate].
    f_equal. apply (updLast_ext k _ _ _ c C). apply IH; assumption.
Qed.

Lemma lastByName_map_detach (j : string) (pid : option Type_) (l : list fieldPos) :
  lastByName j (map (detach pid) l) = option_map (detach pid) (lastByName j l).
Proof.
  induction l as [|c l IH]; simpl; [reflexivity|].
  rewrite IH. destruct (lastByName j l); [reflexivity|]. simpl.
  destruct (String.eqb (name c) j); reflexivity.
Qed.

Lemma fieldStable_refl (fl : Field) : fieldStable fl fl.
Proof. left; reflexivity. Qed.

Lemma fieldStable_trans (a b c : Field) : fieldStable a b -> fieldStable b c -> fieldStable a c.
Proof.
  unfold fieldStable; intros [->|[E1 H1]] [->|[E2 H2]]; auto.
  right; split; [congruence | exact H1].
Qed.

Lemma convertible_tid (a b : Field) : tid a = tid b -> convertible a -> convertible b.
Proof. intros E (x & y & t & H1 & H2); exists x, y, t; split; [congruence | exact H2]. Qed.

Lemma treeStep_refl (P : list string -> Prop) (r : fieldPos) : treeStep P r r.
Proof. intros q fl _ H; exists fl; split; [exact H | left; apply fieldStable_refl]. Qed.

Lemma treeStep_trans (P : list string -> Prop) (r1 r2 r3 : fieldPos) :
  treeStep P r1 r2 -> treeStep P r2 r3 -> treeStep P r1 r3.
Proof.
  intros S1 S2 q fl Hq H1.
  destruct (S1 q fl Hq H1) as (fl2 & H2 & C1).
  destruct (S2 q fl2 Hq H2) as (fl3 & H3 & C2).
  exists fl3; split; [exact H3|].
  destruct C1 as [C1|[P1 V1]]; destruct C2 as [C2|[P2 V2]].
  - left; eapply fieldStable_trans; eassumption.
  - right; split; [exact P2|].
    destruct C1 as [->|[E [L|L]]]; [exact V2| |];
      destruct V2 as (x & y & t & T & M); rewrite E, L in T; injection T as <-; discriminate.
  - right; split; assumption.
  - right; split; assumption.
Qed.

Lemma treeStep_mono (P Q : list string -> Prop) (r r' : fieldPos) :
  (forall q, P q -> Q q) -> treeStep P r r' -> treeStep Q r r'.
Proof.
  intros HPQ S q fl Hq H; destruct (S q fl Hq H) as (fl' & H' & C).
  exists fl'; split; [exact H'|]. destruct C as [C|[Pq V]]; [left; exact C | right; auto].
Qed.

(** Appending [g] to the children of the node at [fp], and setting its field
    to [F] of it. *)
Lemma fieldAt_updateAt_append (r : fieldPos) (fp : list string) (g : fieldPos)
  (F : fieldPos -> Field) :
  lookup r (fp ++ [name g]) = None ->
  let r1 := updateAt r fp (fun x => setField (assignChild x g) (F x)) in
  (forall q fl, q <> fp -> fieldAt r q = Some fl -> fieldAt r1 q = Some fl) /\
  fieldAt r1 fp = option_map F (lookup r fp) /\
  (forall s, lookup r fp <> None -> fieldAt r1 (fp ++ name g :: s) = fieldAt g s).
Proof.
  intros N r1; subst r1.
  assert (Hn : forall x, name (setField (assignChild x g) (F x)) = name x) by reflexivity.
  split; [|split].
  - intros q fl Hq H. rewrite fieldAt_updateAt by exact Hn.
    destruct (strip fp q) as [s|] eqn:E; [|exact H].
    apply strip_app in E; subst q.
    destruct (lookup r fp) as [x|] eqn:L; [|rewrite fieldAt_app_none in H by exact L; discriminate].
    destruct s as [|j s]; [rewrite app_nil_r in Hq; congruence|].
    unfold fieldAt; simpl; unfold childmap; simpl. rewrite lastByName_app1.
    destruct (String.eqb_spec (name g) j) as [<-|Hj].
    + exfalso. unfold fieldAt in H. rewrite lookup_app, L in H. simpl in H.
      unfold childmap in H. rewrite lookup_app, L in N. simpl in N. unfold childmap in N.
      destruct (lastByName (name g) (children x)); [discriminate | discriminate].
    + rewrite <- (fieldAt_app r x fp (j :: s) L) in H. exact H.
  - rewrite fieldAt_updateAt by exact Hn. rewrite <- (app_nil_r fp) at 2.
    rewrite strip_app_self. destruct (lookup r fp); reflexivity.
  - intros s L. rewrite fieldAt_updateAt by exact Hn. rewrite strip_app_self.
    destruct (lookup r fp) as [x|]; [|congruence].
    unfold fieldAt; simpl; unfold childmap; simpl. rewrite lastByName_app1, String.eqb_refl.
    reflexivity.
Qed.

Lemma fieldAt_detach (pid : option Type_) (c : fieldPos) (s : list string) :
  fieldAt (detach pid c) s = fieldAt c s.
Proof.
  destruct s as [|k s]; [reflexivity|]. unfold fieldAt; simpl. reflexivity.
Qed.

(** The node [graft] builds answers every lookup as the grafted node does. *)
Lemma fieldAt_graft_node (nm : string) (p : list string) (l : Link) (a : Type_)
  (n : fieldPos) (pid : option Type_) (s : list string) :
  fieldAt (mkFP nm p l a (field n) (map (detach pid) (children n))) s = fieldAt n s.
Proof.
  destruct s as [|k s]; [reflexivity|].
  unfold fieldAt; simpl; unfold childmap; simpl.
  rewrite lastByName_map_detach. destruct (lastByName k (children n)) as [c|]; [|reflexivity].
  simpl. apply fieldAt_detach.
Qed.

Lemma assignChild_setField (x g : fieldPos) :
  assignChild x g = setField (assignChild x g) (field x).
Proof. destruct x; reflexivity. Qed.

Lemma length_removelast (l : list string) : length (removelast l) = length l - 1.
Proof.
  induction l as [|a l IH]; [reflexivity|].
  destruct l as [|b l]; [reflexivity|].
  change (length (a :: removelast (b :: l)) = length (a :: b :: l) - 1).
  simpl in *; rewrite IH; lia.
Qed.

Lemma removelast_neq (fp : list string) (s : list string) :
  fp <> [] -> removelast fp <> fp ++ s.
Proof.
  intros H E. assert (L := f_equal (@length _) E).
  rewrite length_app, length_removelast in L. destruct fp; [congruence|]. simpl in L; lia.
Qed.

(** Appending [g] under the node [f] at [fp], setting its field to [nf]. *)
Lemma append_step (r f g : fieldPos) (fp : list string) (nf : Field) :
  lookup r fp = Some f -> lookup r (fp ++ [name g]) = None ->
  fieldStable (field f) nf ->
  let r' := updateAt r fp (fun _ => setField (assignChild f g) nf) in
  treeStep (fun _ => False) r r' /\
  (forall s, fieldAt r' (fp ++ name g :: s) = fieldAt g s).
Proof.
  intros Ef N Hs r'.
  assert (E : r' = updateAt r fp (fun x => setField (assignChild x g) nf))
    by (apply (updateAt_ext _ _ _ _ f Ef); reflexivity).
  rewrite E; clear E r'.
  destruct (fieldAt_updateAt_append r fp g (fun _ => nf) N) as (A1 & A2 & A3).
  split.
  - intros q fl Hq Hfl.
    destruct (list_eq_dec String.string_dec q fp) as [->|Hne].
    + exists nf; split; [rewrite A2, Ef; reflexivity|].
      unfold fieldAt in Hfl; rewrite Ef in Hfl; injection Hfl as <-; left; exact Hs.
    + exists fl; split; [apply A1; assumption | left; apply fieldStable_refl].
  - intro s; apply A3; congruence.
Qed.

(** Restamping the field of the node at [pp] with one of the same type
    identifier, a list or a struct one. *)
Lemma restamp_step (r x : fieldPos) (pp : list string) (F : fieldPos -> Field) :
  lookup r pp = Some x -> fieldStable (field x) (F x) ->
  treeStep (fun _ => False) r (updateAt r pp (fun y => setField y (F y))) /\
  (forall q, q <> pp -> fieldAt (updateAt r pp (fun y => setField y (F y))) q = fieldAt r q).
Proof.
  intros L Hs. split.
  - intros q fl Hq Hfl. rewrite fieldAt_updateAt_setField.
    destruct (list_eq_dec String.string_dec q pp) as [->|Hne].
    + rewrite L; exists (F x); split; [reflexivity|].
      unfold fieldAt in Hfl; rewrite L in Hfl; injection Hfl as <-; left; exact Hs.
    + exists fl; split; [exact Hfl | left; apply fieldStable_refl].
  - intros q Hq; rewrite fieldAt_updateAt_setField.
    destruct (list_eq_dec String.string_dec q pp); [congruence | reflexivity].
Qed.

Lemma graft_step (u : Bodkin) (fp : list string) (n : fieldPos) (u' : Bodkin) :
  graft u fp n = Some u' -> lookup (old u) (fp ++ [name n]) = None ->
  treeStep (fun _ => False) (old u) (old u') /\
  (forall s, fieldAt (old u') (fp ++ name n :: s) = fieldAt n s).
Proof.
  intros H N. unfold graft in H.
  destruct (nodeAt (old u) fp) as [f|] eqn:Ef; [|discriminate]. rewrite nodeAt_lookup in Ef.
  cbn zeta in H.
  set (g := mkFP (name n) (path f ++ [name n]) Attached NULL (field n)
                 (map (detach (tid (field n))) (children n))) in H.
  simpl in H. destruct (ftype (field n)) as [gty|]; [|discriminate]. simpl in H.
  assert (Ng : name g = name n) by reflexivity.
  assert (Gn : forall s, fieldAt g s = fieldAt n s) by (intro s; apply fieldAt_graft_node).
  rewrite <- Ng in N |- *.
  destruct (tid (field f)) as [fid|] eqn:Tf; [|discriminate]. simpl in H.
  destruct fid;
    try (injection H as <-; simpl; rewrite (assignChild_setField f g);
         destruct (append_step (old u) f g fp (field f) Ef N (fieldStable_refl _)) as [S1 S2];
         split; [exact S1 | intro s; rewrite S2; apply Gn]).
  (* STRUCT *)
  set (nf := mkField (name n) (Some (StructOf (match ftype (field f) with
                                                | Some (StructType fs) => fs
                                                | _ => []
                                                end ++ [field n]))) true) in H.
  assert (Hs : fieldStable (field f) nf) by (right; split; [simpl; rewrite Tf; reflexivity | right; exact Tf]).
  destruct (append_step (old u) f g fp nf Ef N Hs) as [S1 S2].
  set (r1 := updateAt (old u) fp (fun _ => setField (assignChild f g) nf)) in H, S1, S2.
  assert (Done : treeStep (fun _ => False) (old u) r1 /\
                 (forall s, fieldAt r1 (fp ++ name g :: s) = fieldAt n s))
    by (split; [exact S1 | intro s; rewrite S2; apply Gn]).
  destruct fp as [|k fp'].
  - injection H as <-; exact Done.
  - destruct (parentLink f) as [|pid].
    + destruct (nodeAt r1 (removelast (k :: fp'))) as [p|] eqn:Ep; [|discriminate].
      rewrite nodeAt_lookup in Ep. simpl in H.
      destruct (tid (field p)) as [pid|] eqn:Tp; [|discriminate].
      destruct pid; try (injection H as <-; exact Done).
      injection H as <-; simpl.
      match goal with |- context [updateAt r1 _ (fun x => setField x ?F)] =>
        destruct (restamp_step r1 p (removelast (k :: fp')) (fun _ => F) Ep) as [R1 R2] end.
      { right; split; [simpl; rewrite Tp; reflexivity | left; exact Tp]. }
      split; [eapply treeStep_trans; eassumption|].
      intro s; rewrite R2; [exact (proj2 Done s) | intro E; symmetry in E; exact (removelast_neq (k :: fp') (name g :: s) ltac:(discriminate) E)].
    + destruct pid; [|discriminate]. injection H as <-; exact Done.
Qed.

Lemma stableOff_trans (op : list string) (r1 r2 r3 : fieldPos) :
  stableOff op r1 r2 -> stableOff op r2 r3 -> stableOff op r1 r3.
Proof.
  intros S1 S2 q fl Hq Hop H1.
  destruct (S1 q fl Hq Hop H1) as (fl2 & H2 & C1).
  destruct (S2 q fl2 Hq Hop H2) as (fl3 & H3 & C2).
  exists fl3; split; [exact H3 | eapply fieldStable_trans; eassumption].
Qed.

Lemma stableOff_refl (op : list string) (r : fieldPos) : stableOff op r r.
Proof. intros q fl _ _ H; exists fl; split; [exact H | apply fieldStable_refl]. Qed.

Lemma Type_eqb_eq (a b : Type_) : Type_eqb a b = true <-> a = b.
Proof. split; [destruct a, b; simpl; congruence | intros <-; destruct a; reflexivity]. Qed.

Lemma DataType_eqb_ID (x y : DataType) : DataType_eqb x y = true -> ID x = ID y.
Proof.
  destruct x, y; simpl; intro H; try reflexivity; try discriminate;
    apply Type_eqb_eq; exact H.
Qed.

Lemma Field_eqb_tid (f g : Field) : Field_eqb f g = true -> tid f = tid g.
Proof.
  destruct f as [n t b], g as [n' t' b']; simpl.
  destruct t as [x|], t' as [y|]; rewrite ?andb_false_r; try discriminate; [|reflexivity].
  intro H; apply andb_prop in H as [_ H]; unfold tid; simpl; f_equal; apply DataType_eqb_ID; exact H.
Qed.

Lemma Type_eqb_refl (a : Type_) : Type_eqb a a = true.
Proof. apply Type_eqb_eq; reflexivity. Qed.

Lemma Field_eqb_refl (f : Field) : Field_eqb f f = true.
Proof.
  revert f. fix IH 1. intros [n t b]. simpl. rewrite String.eqb_refl, Bool.eqb_reflx. simpl.
  destruct t as [x|]; [|reflexivity].
  revert x. fix IHd 1. intros x; destruct x; simpl; try reflexivity; try apply IH.
  - destruct unit; reflexivity.
  - destruct unit; reflexivity.
  - induction fields as [|g gs IHgs]; [reflexivity|]. rewrite IH; exact IHgs.
Qed.

Lemma absorbs_refl (tc : bool) (fl : Field) : absorbs tc fl fl = true.
Proof.
  unfold absorbs; destruct tc; [|reflexivity]; simpl.
  destruct (tid fl) as [a|]; [rewrite Type_eqb_refl; reflexivity | apply Field_eqb_refl].
Qed.

Lemma absorbs_stable (tc : bool) (fl fl' fn : Field) :
  absorbs tc fl fn = true -> fieldStable fl fl' -> absorbs tc fl' fn = true.
Proof.
  intros A [->|[E [L|L]]]; [exact A| |];
  unfold absorbs in *; destruct tc; [|reflexivity|..|reflexivity]; simpl in *;
  rewrite E, L in *; destruct (tid fn) as [b|] eqn:Tb; try reflexivity;
  try (apply Field_eqb_tid in A; congruence);
  destruct b; reflexivity.
Qed.

Lemma convertedField_stable (tc : bool) (nm : string) (fl fl' fn : Field) :
  fieldStable fl fl' ->
  fieldStable (convertedField tc nm fl fn) (convertedField tc nm fl' fn).
Proof.
  intros [->|[E L]]; [apply fieldStable_refl|].
  assert (C : forall g, tid g = Some LIST \/ tid g = Some STRUCT -> convertedField tc nm g fn = g).
  { intros g Lg; unfold convertedField; destruct tc; [|reflexivity].
    destruct (Field_eqb g fn); [reflexivity|].
    destruct Lg as [Lg|Lg]; rewrite Lg; destruct (tid fn) as [b|]; try reflexivity;
      destruct (Type_eqb _ b); try reflexivity; destruct b; reflexivity. }
  rewrite (C fl) by exact L. rewrite (C fl') by (rewrite E; exact L).
  right; split; [exact E | exact L].
Qed.

Lemma upgraded_absorbs (a b t : Type_) (nm : string) (fl fn : Field) :
  tid fl = Some a -> tid fn = Some b -> mergeTarget a b = Some t -> Upgradable b = true ->
  absorbs true (upgradedField nm fl t) fn = true.
Proof.
  intros Ta Tb M U; unfold absorbs; simpl; rewrite Tb.
  destruct a, b; simpl in M, U; try discriminate; injection M as <-; reflexivity.
Qed.

Lemma upgraded_convertible (a b t : Type_) (fl : Field) :
  tid fl = Some a -> mergeTarget a b = Some t -> Upgradable b = true ->
  convertible fl.
Proof. intros Ta M _; exists a, b, t; split; assumption. Qed.

Lemma lookup_fieldAt (r : fieldPos) (q : list string) (x : fieldPos) :
  lookup r q = Some x -> fieldAt r q = Some (field x).
Proof. unfold fieldAt; intros ->; reflexivity. Qed.

Lemma setField_at (r o : fieldPos) (op : list string) (nf : Field) :
  lookup r op = Some o ->
  fieldAt (updateAt r op (fun x => setField x nf)) op = Some nf /\
  (forall q, q <> op -> fieldAt (updateAt r op (fun x => setField x nf)) q = fieldAt r q).
Proof.
  intro L. split.
  - rewrite (fieldAt_updateAt_setField r op op (fun _ => nf)), L.
    destruct (list_eq_dec String.string_dec op op); [reflexivity | congruence].
  - intros q Hq. rewrite (fieldAt_updateAt_setField r op q (fun _ => nf)).
    destruct (list_eq_dec String.string_dec q op); [congruence | reflexivity].
Qed.

Lemma upgradeType_step (u : Bodkin) (op : list string) (o n : fieldPos) (t : Type_)
  (u' : Bodkin) :
  upgradeType u op o n t = Some u' -> lookup (old u) op = Some o ->
  exists b, tid (field n) = Some b /\
    ((Upgradable b = false /\ u' = u) \/
     (Upgradable b = true /\
      fieldAt (old u') op = Some (upgradedField (name o) (field o) t) /\
      stableOff op (old u) (old u'))).
Proof.
  intros H L. unfold upgradeType in H.
  destruct (tid (field n)) as [b|] eqn:Tb; [|discriminate]. exists b; split; [reflexivity|].
  destruct (Upgradable b) eqn:U; simpl in H; [right; split; [reflexivity|] | left; split; [reflexivity | congruence]].
  destruct (ftype (field o)) as [ot|]; [|discriminate].
  change (match t with
          | FLOAT64 => mkField (name o) (Some Float64Type) true
          | STRING => mkField (name o) (Some StringType) true
          | TIMESTAMP => mkField (name o) (Some Timestamp_ms) true
          | _ => field o
          end) with (upgradedField (name o) (field o) t) in H.
  set (nf := upgradedField (name o) (field o) t) in H.
  destruct (setField_at (old u) o op nf L) as [A1 A2].
  set (r1 := updateAt (old u) op (fun x => setField x nf)) in H, A1, A2.
  assert (S1 : stableOff op (old u) r1).
  { intros q fl _ Hq Hfl; exists fl; rewrite A2 by exact Hq; split; [exact Hfl | apply fieldStable_refl]. }
  destruct (ftype nf) as [nt|]; [|discriminate].
  assert (Done : forall u'', u'' = setOld u r1 (changes u ++ [Changed (path o) ot nt]) ->
            fieldAt (old u'') op = Some nf /\ stableOff op (old u) (old u''))
    by (intros ? ->; split; [exact A1 | exact S1]).
  destruct (parentLink o) as [|pid].
  - destruct op as [|k op']; [discriminate|].
    destruct (nodeAt r1 (removelast (k :: op'))) as [p|] eqn:Ep; [|discriminate].
    rewrite nodeAt_lookup in Ep.
    destruct (tid (field p)) as [pid|] eqn:Tp; [|discriminate].
    assert (Hne : removelast (k :: op') <> k :: op').
    { intro E; apply (removelast_neq (k :: op') []); [discriminate | rewrite app_nil_r; exact E]. }
    assert (Restamp : forall F, fieldStable (field p) (F p) ->
              u' = setOld u (updateAt r1 (removelast (k :: op')) (fun y => setField y (F y)))
                     (changes u ++ [Changed (path o) ot nt]) ->
              fieldAt (old u') (k :: op') = Some nf /\ stableOff (k :: op') (old u) (old u')).
    { intros F Hs ->; simpl.
      destruct (restamp_step r1 p _ F Ep Hs) as [R1 R2].
      split; [rewrite R2 by congruence; exact A1|].
      apply stableOff_trans with r1; [exact S1|].
      intros q fl Hq _ Hfl. destruct (R1 q fl Hq Hfl) as (fl' & X & [Y|[[] _]]).
      exists fl'; split; assumption. }
    destruct pid; try (injection H as <-; apply Done; reflexivity).
    + destruct (ftype (field n)) as [e|]; [|discriminate]. injection H as <-.
      apply (Restamp (fun _ => mkField (name p) (Some (ListType (mkField "item" (Some e) true))) true));
        [right; split; [simpl; rewrite Tp; reflexivity | left; exact Tp] | reflexivity].
    + injection H as <-.
      apply (Restamp (fun x => mkField (name p) (Some (StructOf (childFields x))) true));
        [right; split; [simpl; rewrite Tp; reflexivity | right; exact Tp] | reflexivity].
  - destruct pid; [|discriminate]. injection H as <-. apply Done; reflexivity.
Qed.

Lemma convert_step (u : Bodkin) (p : list string) (kin n : fieldPos) (u' : Bodkin) :
  convert u p kin n = Some u' -> lookup (old u) p = Some kin ->
  let cf := convertedField (typeConversion (cfg u)) (name kin) (field kin) (field n) in
  fieldAt (old u') p = Some cf /\ stableOff p (old u) (old u') /\
  absorbs (typeConversion (cfg u)) cf (field n) = true /\
  (fieldStable (field kin) cf \/ convertible (field kin)).
Proof.
  intros H L cf.
  assert (Same : u' = u -> cf = field kin ->
            absorbs (typeConversion (cfg u)) (field kin) (field n) = true ->
            fieldAt (old u') p = Some cf /\ stableOff p (old u) (old u') /\
            absorbs (typeConversion (cfg u)) cf (field n) = true /\
            (fieldStable (field kin) cf \/ convertible (field kin))).
  { intros -> E A; rewrite E; split; [apply lookup_fieldAt; exact L|].
    split; [apply stableOff_refl|]. split; [exact A | left; apply fieldStable_refl]. }
  unfold cf, convertedField in *; clear cf. unfold convert in H.
  destruct (typeConversion (cfg u)) eqn:TC; [|injection H as <-; apply Same; reflexivity].
  destruct (Field_eqb (field kin) (field n)) eqn:FE.
  { injection H as <-; apply Same; try reflexivity.
    unfold absorbs; simpl. rewrite (Field_eqb_tid _ _ FE).
    destruct (tid (field n)); [rewrite Type_eqb_refl; reflexivity | exact FE]. }
  destruct (tid (field kin)) as [a|] eqn:Ta; [|discriminate].
  destruct (tid (field n)) as [b|] eqn:Tb; [|discriminate]. simpl in H.
  destruct (Type_eqb a b) eqn:TE.
  { injection H as <-; apply Same; try reflexivity. unfold absorbs; rewrite Ta, Tb, TE; reflexivity. }
  destruct (mergeTarget a b) as [t|] eqn:M.
  2:{ injection H as <-; apply Same; try reflexivity. unfold absorbs; rewrite Ta, Tb, TE, M; reflexivity. }
  destruct (upgradeType_step u p kin n t u' H L) as (b' & Tb' & [[U ->]|(U & F & S)]);
    rewrite Tb in Tb'; injection Tb' as <-; rewrite U in Same |- *.
  - apply Same; try reflexivity. unfold absorbs; rewrite Ta, Tb, TE, M, U; reflexivity.
  - split; [exact F|]. split; [exact S|].
    split; [eapply upgraded_absorbs; eassumption|].
    right; eapply upgraded_convertible; eassumption.
Qed.

Lemma mergeAll_mergeList (mergeAt : list string) (u : Bodkin) (l : list fieldPos) :
  mergeAll mergeAt u l = mergeList mergeAt u l [] true.
Proof.
  revert u; induction l as [|c l IH]; intro u; simpl; [reflexivity|].
  destruct (merge mergeAt u c [] true); [apply IH | reflexivity].
Qed.

Lemma merge_eq (mergeAt : list string) (u : Bodkin) (n : fieldPos) (pp : list string)
  (top : bool) :
  merge mergeAt u n pp top =
  let nPath := match mergeAt with [] => path n | _ :: _ => mergeAt ++ path n end in
  let nParentPath := match mergeAt with [] => pp | _ :: _ => mergeAt ++ pp end in
  match getPath (old u) nPath with
  | GPNotFound =>
      if top then graft u [] n
      else match getPath (old u) nParentPath with
           | GPFound _ => graft u nParentPath n
           | _ => None
           end
  | GPFound kin =>
      let* u1 := convert u nPath kin n in
      mergeList mergeAt u1 (children n) (path n) false
  | GPEmpty =>
      if typeConversion (cfg u) then None else mergeList mergeAt u (children n) (path n) false
  end.
Proof.
  destruct n as [nm p l a fl ch]. cbn [merge path children].
  assert (G : forall v cs,
    (fix go (u : Bodkin) (l : list fieldPos) : option Bodkin :=
       match l with
       | [] => Some u
       | c :: l' => let* u' := merge mergeAt u c p false in go u' l'
       end) v cs = mergeList mergeAt v cs p false).
  { intros v cs; revert v; induction cs as [|c cs IH]; intro v; simpl; [reflexivity|].
    destruct (merge mergeAt v c p false); [apply IH | reflexivity]. }
  simpl. destruct (getPath (old u) (match mergeAt with [] => p | _ :: _ => mergeAt ++ p end)).
  - destruct (convert _ _ _ _); [|reflexivity]. apply G.
  - reflexivity.
  - destruct (typeConversion (cfg u)); [reflexivity | apply G].
Qed.

Lemma lastByName_some (k : string) (l : list fieldPos) (x : fieldPos) :
  lastByName k l = Some x -> name x = k /\ In x l.
Proof.
  induction l as [|c l IH]; simpl; [discriminate|].
  destruct (lastByName k l) as [y|]; intro H.
  - injection H as <-; destruct (IH eq_refl); split; [assumption | right; assumption].
  - destruct (String.eqb_spec (name c) k); [|discriminate].
    injection H as <-; split; [assumption | left; reflexivity].
Qed.

Lemma lastByName_In_NoDup (l : list fieldPos) (c : fieldPos) :
  NoDup (map name l) -> In c l -> lastByName (name c) l = Some c.
Proof.
  induction l as [|d l IH]; simpl; [contradiction|].
  intros ND [E|I]; inversion ND as [|? ? NI ND']; [subst d|].
  - destruct (lastByName (name c) l) as [y|] eqn:E.
    + apply lastByName_some in E as [E I]. exfalso; apply NI; rewrite <- E; apply in_map; exact I.
    + rewrite String.eqb_refl; reflexivity.
  - rewrite IH by assumption; reflexivity.
Qed.

Lemma lookup_name (r : fieldPos) (q : list string) (x : fieldPos) :
  q <> [] -> lookup r q = Some x -> name x = last q "".
Proof.
  revert r; induction q as [|k q IH]; intros r Hq L; [congruence|].
  simpl in L; unfold childmap in L.
  destruct (lastByName k (children r)) as [c|] eqn:C; [|discriminate].
  destruct q as [|j q].
  - simpl in L; injection L as <-; apply lastByName_some in C; apply C.
  - rewrite (IH c) by (discriminate || exact L); reflexivity.
Qed.

Lemma pathsOK_inv (pp : list string) (n : fieldPos) :
  pathsOK pp n -> path n = pp ++ [name n] /\ (forall c, In c (children n) -> pathsOK (path n) c).
Proof. intro H; inversion H; subst; split; assumption. Qed.

Lemma lookup_path (pp : list string) (n : fieldPos) (s : list string) (m : fieldPos) :
  pathsOK pp n -> lookup n s = Some m -> path m = path n ++ s /\ exists pm, pathsOK pm m.
Proof.
  revert pp n; induction s as [|k s IH]; intros pp n P L; simpl in L.
  - injection L as <-; rewrite app_nil_r; split; [reflexivity | exists pp; exact P].
  - unfold childmap in L. destruct (lastByName k (children n)) as [c|] eqn:C; [|discriminate].
    apply lastByName_some in C as [Nc Ic].
    destruct (pathsOK_inv _ _ P) as [_ Pc]. specialize (Pc c Ic).
    destruct (IH _ _ Pc L) as [E X]; split; [|exact X].
    rewrite E. destruct (pathsOK_inv _ _ Pc) as [Ec _]. rewrite Ec, Nc, <- app_assoc; reflexivity.
Qed.

Lemma strip_none_of (p q : list string) : (exists s, q = p ++ s) -> strip p q <> None.
Proof. intros [s ->]; rewrite strip_app_self; discriminate. Qed.

Lemma strip_some (p q : list string) : strip p q <> None -> exists s, q = p ++ s.
Proof. intro H; destruct (strip p q) as [s|] eqn:E; [exists s; apply strip_app; exact E | congruence]. Qed.

Lemma strip_extend (p s q : list string) : strip (p ++ s) q <> None -> strip p q <> None.
Proof.
  intro H; apply strip_none_of; destruct (strip_some _ _ H) as [s' ->].
  exists (s ++ s'); rewrite app_assoc; reflexivity.
Qed.

Lemma strip_sibling (pp : list string) (k j : string) (s s' : list string) :
  pp ++ k :: s = (pp ++ [j]) ++ s' -> k = j.
Proof.
  rewrite <- app_assoc; simpl; intro E; apply app_inv_head in E; injection E; auto.
Qed.

Lemma mergeList_treeStep (Q : list string -> Prop) (l : list fieldPos) (pp : list string)
  (top : bool) : forall u u',
  (forall c, In c l -> forall u u', merge [] u c pp top = Some u' -> treeStep Q (old u) (old u')) ->
  mergeList [] u l pp top = Some u' -> treeStep Q (old u) (old u').
Proof.
  induction l as [|c l IH]; intros u u' Hc H; simpl in H.
  - injection H as <-; apply treeStep_refl.
  - destruct (merge [] u c pp top) as [u2|] eqn:M; [|discriminate].
    apply treeStep_trans with (old u2); [eapply Hc; [left; reflexivity | exact M]|].
    apply IH; [intros; eapply Hc; [right|]; eassumption | exact H].
Qed.

Lemma app_single_nonnil (l : list string) (k : string) : l ++ [k] <> [].
Proof. destruct l; discriminate. Qed.

Lemma path_nonnil (pp : list string) (n : fieldPos) : pathsOK pp n -> path n <> [].
Proof. intro P; destruct (pathsOK_inv _ _ P) as [E _]; rewrite E; apply app_single_nonnil. Qed.

Lemma graft_at (u : Bodkin) (fp : list string) (n : fieldPos) (u' : Bodkin) :
  graft u fp n = Some u' -> path n = fp ++ [name n] -> lookup (old u) (path n) = None ->
  treeStep (fun _ => False) (old u) (old u') /\
  (forall s, fieldAt (old u') (path n ++ s) = fieldAt n s).
Proof.
  intros G E L; rewrite E in L |- *; destruct (graft_step u fp n u' G L) as [S F].
  split; [exact S|]. intro s; rewrite <- app_assoc; apply F.
Qed.

Lemma merge_treeStep (pp : list string) (n : fieldPos) (P : pathsOK pp n) :
  forall u top u', (top = true -> pp = []) -> merge [] u n pp top = Some u' ->
  treeStep (fun q => strip (path n) q <> None) (old u) (old u').
Proof.
  induction P as [pp n Hpath Hch IH]. intros u top u' Htop H.
  rewrite merge_eq in H; simpl in H.
  rewrite getPath_lookup in H by (rewrite Hpath; apply app_single_nonnil).
  destruct (lookup (old u) (path n)) as [kin|] eqn:L.
  - destruct (convert u (path n) kin n) as [u1|] eqn:C; [|discriminate].
    destruct (convert_step u (path n) kin n u1 C L) as (F1 & S1 & _ & K).
    apply treeStep_trans with (old u1).
    + intros q fl Hq Hfl.
      destruct (list_eq_dec String.string_dec q (path n)) as [->|Hne].
      * rewrite (lookup_fieldAt _ _ _ L) in Hfl; injection Hfl as <-.
        eexists; split; [exact F1|]. destruct K as [K|K]; [left; exact K|].
        right; split; [apply strip_none_of; exists []; rewrite app_nil_r; reflexivity | exact K].
      * destruct (S1 q fl Hq Hne Hfl) as (fl' & X & Y); exists fl'; split; [exact X | left; exact Y].
    + eapply mergeList_treeStep; [|exact H].
      intros c Ic v v' M. eapply treeStep_mono; [|apply (IH c Ic v false v'); [intro D; discriminate D | exact M]].
      intros q Hq; destruct (pathsOK_inv _ _ (Hch c Ic)) as [Ec _]; rewrite Ec in Hq.
      eapply strip_extend; exact Hq.
  - assert (Tr : forall fp, graft u fp n = Some u' -> path n = fp ++ [name n] ->
                  treeStep (fun q => strip (path n) q <> None) (old u) (old u')).
    { intros fp G E; destruct (graft_at u fp n u' G E L) as [S _].
      eapply treeStep_mono; [|exact S]; intros q []. }
    destruct top.
    + apply (Tr [] H); rewrite Hpath, (Htop eq_refl); reflexivity.
    + destruct (getPath (old u) pp); try discriminate. apply (Tr pp H Hpath).
Qed.

Lemma fieldAt_some (r : fieldPos) (q : list string) (fl : Field) :
  fieldAt r q = Some fl -> exists x, lookup r q = Some x /\ field x = fl.
Proof.
  unfold fieldAt; destruct (lookup r q) as [x|]; simpl; intro H; [|discriminate].
  injection H as <-; exists x; split; reflexivity.
Qed.

Lemma treeStep_at (P : list string -> Prop) (r r' : fieldPos) (q : list string) :
  treeStep P r r' -> q <> [] -> ~ P q -> atStable q r r'.
Proof.
  intros S Hq NP x L. destruct (S q (field x) Hq (lookup_fieldAt _ _ _ L)) as (fl' & F & [C|[Pq _]]);
    [|contradiction].
  destruct (fieldAt_some _ _ _ F) as (x' & L' & <-); exists x'; split; assumption.
Qed.

Lemma stableOff_at (op q : list string) (r r' : fieldPos) :
  stableOff op r r' -> q <> [] -> q <> op -> atStable q r r'.
Proof.
  intros S Hq Hop x L. destruct (S q (field x) Hq Hop (lookup_fieldAt _ _ _ L)) as (fl' & F & C).
  destruct (fieldAt_some _ _ _ F) as (x' & L' & <-); exists x'; split; assumption.
Qed.

Lemma nodeResult_after (tc : bool) (r0 r r' m : fieldPos) :
  nodeResult tc r0 r m -> atStable (path m) r r' -> nodeResult tc r0 r' m.
Proof.
  intros (k & L & A & F) S. destruct (S k L) as (k' & L' & St).
  exists k'; split; [exact L'|]. split; [eapply absorbs_stable; eassumption|].
  intros kin L0; eapply fieldStable_trans; [apply F; exact L0 | exact St].
Qed.

Lemma nodeResult_before (tc : bool) (r0 r1 r m : fieldPos) :
  path m <> [] -> atStable (path m) r0 r1 -> nodeResult tc r1 r m -> nodeResult tc r0 r m.
Proof.
  intros Hq S (k & L & A & F). exists k; split; [exact L|]. split; [exact A|].
  intros kin L0. destruct (S kin L0) as (k1 & L1 & St).
  assert (Nm : name k1 = name kin)
    by (rewrite (lookup_name _ _ _ Hq L1), (lookup_name _ _ _ Hq L0); reflexivity).
  eapply fieldStable_trans; [|apply F; exact L1].
  rewrite Nm; apply convertedField_stable; exact St.
Qed.

Lemma merge_frame (mergeAt : list string) (u : Bodkin) (n : fieldPos) (pp : list string)
  (top : bool) (u' : Bodkin) :
  merge mergeAt u n pp top = Some u' -> frame u u'.
Proof.
  apply merge_steps; [exact frame_refl | exact frame_trans | exact graft_frame | exact convert_frame].
Qed.

Lemma mergeList_frame (mergeAt : list string) (l : list fieldPos) (pp : list string) (top : bool) :
  forall u u', mergeList mergeAt u l pp top = Some u' -> frame u u'.
Proof.
  induction l as [|c l IH]; intros u u' H; simpl in H; [injection H as <-; apply frame_refl|].
  destruct (merge mergeAt u c pp top) as [u2|] eqn:M; [|discriminate].
  apply frame_trans with u2; [eapply merge_frame; exact M | eapply IH; exact H].
Qed.

Lemma sub_path_neq (pp : list string) (c m : fieldPos) (s : list string) :
  path c = pp ++ [name c] -> path m = path c ++ s -> path m <> pp.
Proof.
  intros Ec Em E. rewrite Em, Ec, <- app_assoc in E.
  assert (L := f_equal (@length _) E); rewrite length_app in L; simpl in L; lia.
Qed.

Lemma sub_not_sibling (pp : list string) (c d m : fieldPos) (s : list string) :
  path c = pp ++ [name c] -> path d = pp ++ [name d] -> name c <> name d ->
  path m = path c ++ s -> strip (path d) (path m) = None.
Proof.
  intros Ec Ed Hn Em. destruct (strip (path d) (path m)) as [s'|] eqn:E; [|reflexivity].
  exfalso; apply strip_app in E. rewrite Em, Ec, Ed, <- app_assoc in E; simpl in E.
  apply strip_sibling in E; congruence.
Qed.

Lemma mergeList_result (l : list fieldPos) (pp : list string) (top : bool) :
  forall u u',
  (forall c, In c l -> forall u u', merge [] u c pp top = Some u' ->
     subtreeResult (typeConversion (cfg u)) (old u) (old u') c) ->
  (forall c, In c l -> forall u u', merge [] u c pp top = Some u' ->
     treeStep (fun q => strip (path c) q <> None) (old u) (old u')) ->
  (forall c, In c l -> pathsOK pp c) -> NoDup (map name l) ->
  mergeList [] u l pp top = Some u' ->
  (forall c, In c l -> subtreeResult (typeConversion (cfg u)) (old u) (old u') c) /\
  treeStep (fun q => exists c, In c l /\ strip (path c) q <> None) (old u) (old u').
Proof.
  induction l as [|c l IH]; intros u u' HR HT HP ND H; simpl in H.
  - injection H as <-; split; [intros ? [] | apply treeStep_refl].
  - destruct (merge [] u c pp top) as [u2|] eqn:M; [|discriminate].
    inversion ND as [|? ? NI ND']; subst.
    assert (Cfg : cfg u2 = cfg u) by (destruct (merge_frame _ _ _ _ _ _ M) as [F _]; exact F).
    destruct (IH u2 u') as [R2 T2]; try assumption;
      [intros; eapply HR; [right|]; eassumption | intros; eapply HT; [right|]; eassumption
      | intros; apply HP; right; assumption|].
    assert (Tc := HT c (or_introl eq_refl) u u2 M).
    assert (Rc := HR c (or_introl eq_refl) u u2 M).
    rewrite Cfg in R2.
    destruct (pathsOK_inv _ _ (HP c (or_introl eq_refl))) as [Ec _].
    split.
    + intros d [E|Id] s m Lm.
      * subst d. destruct (lookup_path _ _ _ _ (HP c (or_introl eq_refl)) Lm) as [Em [pm Pm]].
        eapply nodeResult_after; [apply (Rc s m Lm)|].
        apply (treeStep_at _ _ _ _ T2); [exact (path_nonnil _ _ Pm)|].
        intros (e & Ie & Se).
        destruct (pathsOK_inv _ _ (HP e (or_intror Ie))) as [Ee _].
        rewrite (sub_not_sibling pp c e m s Ec Ee) in Se; [congruence| |exact Em].
        intro X; apply NI; rewrite X; apply in_map; exact Ie.
      * destruct (lookup_path _ _ _ _ (HP d (or_intror Id)) Lm) as [Em [pm Pm]].
        destruct (pathsOK_inv _ _ (HP d (or_intror Id))) as [Ed _].
        eapply nodeResult_before; [exact (path_nonnil _ _ Pm) | | apply (R2 d Id s m Lm)].
        apply (treeStep_at _ _ _ _ Tc); [exact (path_nonnil _ _ Pm)|].
        rewrite (sub_not_sibling pp d c m s Ed Ec); [congruence| |exact Em].
        intro X; apply NI; rewrite <- X; apply in_map; exact Id.
    + apply treeStep_trans with (old u2).
      * eapply treeStep_mono; [|exact Tc]. intros q Hq; exists c; split; [left; reflexivity | exact Hq].
      * eapply treeStep_mono; [|exact T2]. intros q (e & Ie & Hq); exists e; split; [right; exact Ie | exact Hq].
Qed.

Lemma merge_result (pp : list string) (n : fieldPos) (P : pathsOK pp n) :
  forall u top u', namesOK n -> (top = true -> pp = []) -> merge [] u n pp top = Some u' ->
  subtreeResult (typeConversion (cfg u)) (old u) (old u') n.
Proof.
  induction P as [pp n Hpath Hch IH]. intros u top u' Hn Htop H.
  inversion Hn as [? ND Hcn]; subst.
  assert (Hpn : path n <> []) by (rewrite Hpath; apply app_single_nonnil).
  assert (Hm := merge_treeStep pp n (pathsOK_intro pp n Hpath Hch) u top u' Htop H).
  rewrite merge_eq in H; simpl in H. rewrite getPath_lookup in H by exact Hpn.
  destruct (lookup (old u) (path n)) as [kin|] eqn:L.
  - destruct (convert u (path n) kin n) as [u1|] eqn:C; [|discriminate].
    destruct (convert_step u (path n) kin n u1 C L) as (F1 & S1 & A1 & _).
    assert (Cfg : cfg u1 = cfg u) by (destruct (convert_frame _ _ _ _ _ C) as [F _]; exact F).
    destruct (mergeList_result (children n) (path n) false u1 u') as [R T]; try assumption.
    + intros c Ic v v' M. apply (IH c Ic v false v'); [apply Hcn; exact Ic | intro D; discriminate D | exact M].
    + intros c Ic v v' M. exact (merge_treeStep _ _ (Hch c Ic) v false v' (fun D => False_ind _ (diff_false_true D)) M).
    + rewrite Cfg in R. intros s m Lm. destruct s as [|k s].
      * simpl in Lm; injection Lm as <-.
        destruct (fieldAt_some _ _ _ F1) as (k1 & L1 & E1).
        assert (St : atStable (path n) (old u1) (old u')).
        { apply (treeStep_at _ _ _ _ T); [exact Hpn|]. intros (c & Ic & Sc).
          destruct (pathsOK_inv _ _ (Hch c Ic)) as [Ec _].
          destruct (strip_some _ _ Sc) as [s' E]. rewrite Ec, <- app_assoc in E.
          assert (Ln := f_equal (@length _) E); rewrite length_app in Ln; simpl in Ln; lia. }
        apply nodeResult_after with (old u1); [|exact St].
        exists k1; split; [exact L1|]. rewrite E1. split; [exact A1|].
        intros kin' L'. rewrite L in L'; injection L' as <-; apply fieldStable_refl.
      * simpl in Lm; unfold childmap in Lm.
        destruct (lastByName k (children n)) as [c|] eqn:Cc; [|discriminate].
        apply lastByName_some in Cc as [Nc Ic].
        destruct (pathsOK_inv _ _ (Hch c Ic)) as [Ec _].
        destruct (lookup_path _ _ _ _ (Hch c Ic) Lm) as [Em [pm Pm]].
        apply nodeResult_before with (old u1); [exact (path_nonnil _ _ Pm) | | exact (R c Ic s m Lm)].
        apply (stableOff_at _ _ _ _ S1); [exact (path_nonnil _ _ Pm)|].
        intro X; rewrite Em, Ec, <- app_assoc in X.
        assert (Ln := f_equal (@length _) X); rewrite length_app in Ln; simpl in Ln; lia.
  - assert (Gr : forall fp, graft u fp n = Some u' -> path n = fp ++ [name n] ->
                  subtreeResult (typeConversion (cfg u)) (old u) (old u') n).
    { intros fp G E s m Lm. destruct (graft_at u fp n u' G E L) as [_ F].
      destruct (lookup_path _ _ _ _ (pathsOK_intro pp n Hpath Hch) Lm) as [Em _].
      assert (Fm : fieldAt (old u') (path m) = Some (field m))
        by (rewrite Em, F; apply lookup_fieldAt; exact Lm).
      destruct (fieldAt_some _ _ _ Fm) as (k1 & L1 & E1).
      exists k1; split; [exact L1|]. rewrite E1; split; [apply absorbs_refl|].
      intros kin L0. rewrite Em, lookup_app, L in L0; discriminate. }
    destruct top.
    + apply (Gr [] H); rewrite Hpath, (Htop eq_refl); reflexivity.
    + destruct (getPath (old u) pp); try discriminate. apply (Gr pp H Hpath).
Qed.

Lemma absorbs_convert (u : Bodkin) (p : list string) (kin n : fieldPos) :
  absorbs (typeConversion (cfg u)) (field kin) (field n) = true -> convert u p kin n = Some u.
Proof.
  unfold absorbs, convert; destruct (typeConversion (cfg u)); [|reflexivity]; simpl.
  destruct (Field_eqb (field kin) (field n)) eqn:FE; [reflexivity|].
  destruct (tid (field kin)) as [a|]; [|congruence].
  destruct (tid (field n)) as [b|] eqn:Tb; [|congruence]. simpl.
  destruct (Type_eqb a b); [reflexivity|]. simpl.
  destruct (mergeTarget a b) as [t|]; [|reflexivity].
  intro U; unfold upgradeType; rewrite Tb. destruct (Upgradable b); [discriminate | reflexivity].
Qed.

Lemma merge_noop (pp : list string) (n : fieldPos) (P : pathsOK pp n) :
  forall u top, namesOK n -> absorbedBy (typeConversion (cfg u)) (old u) n ->
  merge [] u n pp top = Some u.
Proof.
  induction P as [pp n Hpath Hch IH]. intros u top Hn Ab.
  inversion Hn as [? ND Hcn]; subst.
  rewrite merge_eq; simpl. rewrite getPath_lookup by (rewrite Hpath; apply app_single_nonnil).
  destruct (Ab [] n eq_refl) as (kin & L & A). rewrite L, (absorbs_convert _ _ _ _ A).
  assert (Hc : forall c, In c (children n) -> absorbedBy (typeConversion (cfg u)) (old u) c).
  { intros c Ic s m Lm. apply (Ab (name c :: s)). simpl; unfold childmap.
    rewrite (lastByName_In_NoDup _ _ ND Ic); exact Lm. }
  clear Ab L A. induction (children n) as [|c l IHl]; [reflexivity|]. simpl.
  rewrite (IH c (or_introl eq_refl) u false (Hcn c (or_introl eq_refl)) (Hc c (or_introl eq_refl))).
  apply IHl.
  - intros; apply Hch; right; assumption.
  - intros; eapply IH; [right|..]; eassumption.
  - inversion ND; assumption.
  - intros; apply Hcn; right; assumption.
  - intros; apply Hc; right; assumption.
Qed.

Section ValueInd.
Variable P : Value -> Prop.
Hypothesis H : forall v, (forall w, subValue w v -> P w) -> P v.

Fixpoint Value_ind' (v : Value) : P v :=
  H v (match v as v0 return forall w, subValue w v0 -> P w with
       | VList l =>
           (fix go (l : list Value) : forall w, In w l -> P w :=
              match l with
              | [] => fun w i => False_ind _ i
              | x :: l' => fun w i =>
                  match i with
                  | or_introl e => eq_ind x P (Value_ind' x) w e
                  | or_intror i' => go l' w i'
                  end
              end) l
       | VMap m =>
           (fix go (m : list (string * Value)) : forall w, In w (map snd m) -> P w :=
              match m with
              | [] => fun w i => False_ind _ i
              | (k, x) :: m' => fun w i =>
                  match i with
                  | or_introl e => eq_ind x P (Value_ind' x) w e
                  | or_intror i' => go m' w i'
                  end
              end) m
       | _ => fun w i => False_ind _ i
       end).
End ValueInd.

Lemma nodupKeys_NoDup (l : list string) : nodupKeys l = true -> NoDup l.
Proof.
  induction l as [|k l IH]; simpl; intro H; [constructor|].
  apply andb_prop in H as [H1 H2]. constructor; [|apply IH; exact H2].
  intro I; apply negb_true_iff in H1.
  assert (existsb (String.eqb k) l = true) by (apply existsb_exists; exists k; split; [exact I | apply String.eqb_refl]).
  congruence.
Qed.

Lemma uniqueKeysV_map (m : list (string * Value)) :
  uniqueKeysV (VMap m) = true ->
  NoDup (map fst m) /\ forall k w, In (k, w) m -> uniqueKeysV w = true.
Proof.
  simpl; intro H; apply andb_prop in H as [H1 H2]; split; [apply nodupKeys_NoDup; exact H1|].
  clear H1. induction m as [|[k' x] m IH]; [intros ? ? []|]. apply andb_prop in H2 as [H3 H4].
  intros k w [E|I]; [injection E as <- <-; exact H3 | eapply IH; eassumption].
Qed.

Lemma uniqueKeysV_list (w : Value) (l : list Value) :
  uniqueKeysV (VList (w :: l)) = true -> uniqueKeysV w = true.
Proof. simpl; intro H; apply andb_prop in H as [H _]; exact H. Qed.

Lemma In_map_snd (m : list (string * Value)) (k : string) (v : Value) :
  In (k, v) m -> In v (map snd m).
Proof. intro I; change v with (snd (k, v)); apply in_map; exact I. Qed.

Lemma loop_paths (entry : fieldPos -> string -> Value -> option (option fieldPos))
  (m : list (string * Value)) :
  (forall k v, In (k, v) m -> forall g c, entry g k v = Some (Some c) ->
     pathsOK (path g) c /\ name c = k) ->
  forall f f', mapToArrowLoop entry f m = Some f' ->
  path f' = path f /\ name f' = name f /\
  (forall c, In c (children f') -> In c (children f) \/ (pathsOK (path f) c /\ In (name c) (map fst m))).
Proof.
  induction m as [|[k v] m IH]; intros HE f f' H; simpl in H.
  - injection H as <-; split; [|split]; try reflexivity. intros c I; left; exact I.
  - destruct (entry f k v) as [[child|]|] eqn:E; [| |discriminate].
    + destruct (HE k v (or_introl eq_refl) f child E) as [Pc Nc].
      destruct (IH (fun k' v' I => HE k' v' (or_intror I)) _ _ H) as (E1 & E2 & E3).
      split; [exact E1|]. split; [exact E2|]. intros c I.
      destruct (E3 c I) as [I'|[Pc' I']]; simpl in I'.
      * apply in_app_or in I' as [I'|[<-|[]]]; [left; exact I'|].
        right; split; [exact Pc | left; symmetry; exact Nc].
      * right; split; [exact Pc' | right; exact I'].
    + destruct (IH (fun k' v' I => HE k' v' (or_intror I)) _ _ H) as (E1 & E2 & E3).
      split; [exact E1|]. split; [exact E2|]. intros c I.
      destruct (E3 c I) as [I'|[Pc' I']]; [left; exact I' | right; split; [exact Pc' | right; exact I']].
Qed.

Lemma NoDup_app_single (l : list string) (k : string) : NoDup l -> ~ In k l -> NoDup (l ++ [k]).
Proof.
  induction l as [|j l IH]; simpl; intros ND NI; [constructor; [intros []|constructor]|].
  inversion ND; subst. constructor; [|apply IH; auto].
  intro I; apply in_app_or in I as [I|[E|[]]]; [contradiction | apply NI; left; symmetry; exact E].
Qed.

Lemma loop_names (entry : fieldPos -> string -> Value -> option (option fieldPos))
  (m : list (string * Value)) :
  (forall k v, In (k, v) m -> forall g c, entry g k v = Some (Some c) ->
     name c = k /\ namesOK c) ->
  NoDup (map fst m) ->
  forall f f', NoDup (map name (children f)) ->
  (forall c, In c (children f) -> ~ In (name c) (map fst m) /\ namesOK c) ->
  mapToArrowLoop entry f m = Some f' -> namesOK f'.
Proof.
  induction m as [|[k v] m IH]; intros HE ND f f' NDf Hf H; simpl in H.
  - injection H as <-; constructor; [exact NDf | intros c I; apply Hf; exact I].
  - inversion ND as [|? ? NIk ND']; subst.
    destruct (entry f k v) as [[child|]|] eqn:E; [| |discriminate].
    + destruct (HE k v (or_introl eq_refl) f child E) as [Nc Oc].
      apply (IH (fun k' v' I => HE k' v' (or_intror I)) ND' (assignChild f child)); [| |exact H].
      * simpl; rewrite map_app; simpl; apply NoDup_app_single; [exact NDf|].
        intro I; apply in_map_iff in I as (d & Nd & Id).
        apply (proj1 (Hf d Id)); rewrite Nd, Nc; left; reflexivity.
      * simpl; intros c I; apply in_app_or in I as [I|[<-|[]]].
        -- destruct (Hf c I) as [NI Oc']; split; [intro X; apply NI; right; exact X | exact Oc'].
        -- split; [rewrite Nc; exact NIk | exact Oc].
    + apply (IH (fun k' v' I => HE k' v' (or_intror I)) ND' f); [exact NDf | |exact H].
      intros c I; destruct (Hf c I) as [NI Oc']; split; [intro X; apply NI; right; exact X | exact Oc'].
Qed.

Lemma setArrowType_fields (f : fieldPos) (t : option Type_) :
  path (setArrowType f t) = path f /\ name (setArrowType f t) = name f /\
  children (setArrowType f t) = children f.
Proof. destruct t; repeat split. Qed.

Lemma walker_paths (cfg : Config) (v : Value) :
  (forall f k c, mapEntry cfg f k v = Some (Some c) -> pathsOK (path f) c /\ name c = k) /\
  (forall f rest f' et, sliceElemType cfg f v rest = Some (f', et) ->
     path f' = path f /\ name f' = name f /\
     (forall c, In c (children f') -> In c (children f) \/ pathsOK (path f) c)).
Proof.
  induction v as [v IHv] using Value_ind'.
  assert (Leaf : forall f k c (r : option (option Type_ * option DataType)),
            (let* r := r in let '(aty, dt) := r in
             Some (Some (setField (setArrowType (newChild f k) aty) (mkField k dt true)))) = Some (Some c) ->
            pathsOK (path f) c /\ name c = k).
  { intros f k c [[aty dt]|] H; [|discriminate]. injection H as <-.
    destruct (setArrowType_fields (newChild f k) aty) as (E1 & E2 & E3).
    split; [constructor|]; simpl; rewrite ?E1, ?E2, ?E3; try reflexivity. intros ? []. }
  assert (LeafS : forall f f' et (r : option (option Type_ * option DataType)),
            (let* r := r in let '(aty, dt) := r in Some (setArrowType f aty, dt)) = Some (f', et) ->
            path f' = path f /\ name f' = name f /\
            (forall c, In c (children f') -> In c (children f) \/ pathsOK (path f) c)).
  { intros f f' et [[aty dt]|] H; [|discriminate]. injection H as <- _.
    destruct (setArrowType_fields f aty) as (E1 & E2 & E3).
    split; [exact E1|]; split; [exact E2|]; intros c I; left; rewrite <- E3; exact I. }
  destruct v; split; intros *; cbn [mapEntry sliceElemType];
    try solve [apply Leaf | apply LeafS | discriminate].
  - (* mapEntry, VList *)
    destruct l as [|w rest]; [discriminate|]. intro H.
    destruct (sliceElemType cfg (newChild f k) w rest) as [[child et]|] eqn:S; [|discriminate].
    destruct (ListOf et) as [lt|]; [|discriminate]. injection H as <-.
    destruct (proj2 (IHv w (or_introl eq_refl)) _ _ _ _ S) as (E1 & E2 & E3).
    simpl in E1, E2; split; [|exact E2]. constructor; simpl; [rewrite E1, E2; reflexivity|].
    intros c I; destruct (E3 c I) as [[]|Pc]; rewrite E1; exact Pc.
  - (* sliceElemType, VList *)
    destruct l as [|w rest']; intro H; [injection H as <- _; split; [|split]; [reflexivity..|]; intros c I; left; exact I|].
    destruct (sliceElemType cfg (newChild f (name f ++ ".elem")) w rest') as [[child et']|] eqn:S; [|discriminate].
    destruct (ListOf et') as [lt|]; [|discriminate]. injection H as <- _.
    destruct (proj2 (IHv w (or_introl eq_refl)) _ _ _ _ S) as (E1 & E2 & E3).
    simpl in E1, E2. split; [reflexivity|]; split; [reflexivity|].
    intros c I; simpl in I; apply in_app_or in I as [I|[<-|[]]]; [left; exact I|].
    right; constructor; [rewrite E1, E2; reflexivity|].
    intros d Id; destruct (E3 d Id) as [[]|Pd]; rewrite E1; exact Pd.
  - (* mapEntry, VMap *)
    intro H.
    destruct (mapToArrowLoop (mapEntry cfg) (newChild f k) m) as [child|] eqn:L; [|discriminate].
    destruct (children child) as [|c0 cs] eqn:Ch; [discriminate|]. injection H as <-.
    destruct (loop_paths (mapEntry cfg) m
                (fun k' v' I g c' => proj1 (IHv v' (In_map_snd _ _ _ I)) g k' c') _ _ L)
      as (E1 & E2 & E3).
    simpl in E1, E2. split; [|exact E2]. constructor; simpl; [rewrite E1, E2; reflexivity|].
    intros c I; try rewrite <- Ch in I; destruct (E3 c I) as [[]|[Pc _]]; rewrite E1; exact Pc.
  - (* sliceElemType, VMap *)
    intro H.
    destruct (mapToArrowLoop (mapEntry cfg) (newChild f (name f ++ ".elem")) m) as [child|] eqn:L;
      [|discriminate]. injection H as <- _.
    destruct (loop_paths (mapEntry cfg) m
                (fun k' v' I g c' => proj1 (IHv v' (In_map_snd _ _ _ I)) g k' c') _ _ L)
      as (E1 & E2 & E3).
    simpl in E1, E2. split; [reflexivity|]; split; [reflexivity|].
    intros c I; simpl in I; apply in_app_or in I as [I|[<-|[]]]; [left; exact I|].
    right; constructor; [rewrite E1, E2; reflexivity|].
    intros d Id; destruct (E3 d Id) as [[]|[Pd _]]; rewrite E1; exact Pd.
Qed.

Lemma namesOK_setField (x : fieldPos) (fl : Field) : namesOK x -> namesOK (setField x fl).
Proof. intro H; inversion H; subst; constructor; assumption. Qed.

Lemma namesOK_single (x : fieldPos) (cs : list fieldPos) :
  (cs = [] \/ exists c, cs = [] ++ [c] /\ namesOK c) -> children x = cs -> namesOK x.
Proof.
  intros [->|(c & -> & Oc)] E; constructor; rewrite E; simpl.
  - constructor.
  - intros ? [].
  - constructor; [intros []|constructor].
  - intros d [<-|[]]; exact Oc.
Qed.

Lemma walker_names (cfg : Config) (v : Value) :
  uniqueKeysV v = true ->
  (forall f k c, mapEntry cfg f k v = Some (Some c) -> name c = k /\ namesOK c) /\
  (forall f rest f' et, sliceElemType cfg f v rest = Some (f', et) ->
     children f' = children f \/ exists c, children f' = children f ++ [c] /\ namesOK c).
Proof.
  induction v as [v IHv] using Value_ind'. intro U.
  assert (Leaf : forall f k c (r : option (option Type_ * option DataType)),
            (let* r := r in let '(aty, dt) := r in
             Some (Some (setField (setArrowType (newChild f k) aty) (mkField k dt true)))) = Some (Some c) ->
            name c = k /\ namesOK c).
  { intros f k c [[aty dt]|] H; [|discriminate]. injection H as <-.
    destruct (setArrowType_fields (newChild f k) aty) as (E1 & E2 & E3).
    split; [simpl; exact E2|]. apply namesOK_setField. apply (namesOK_single _ []); [left; reflexivity | exact E3]. }
  assert (LeafS : forall f f' et (r : option (option Type_ * option DataType)),
            (let* r := r in let '(aty, dt) := r in Some (setArrowType f aty, dt)) = Some (f', et) ->
            children f' = children f \/ exists c, children f' = children f ++ [c] /\ namesOK c).
  { intros f f' et [[aty dt]|] H; [|discriminate]. injection H as <- _.
    left; apply setArrowType_fields. }
  destruct v; split; intros *; cbn [mapEntry sliceElemType];
    try solve [apply Leaf | apply LeafS | discriminate].
  - destruct l as [|w rest]; [discriminate|]. intro H.
    destruct (sliceElemType cfg (newChild f k) w rest) as [[child et]|] eqn:S; [|discriminate].
    destruct (ListOf et) as [lt|]; [|discriminate]. injection H as <-.
    destruct (walker_paths cfg w) as [_ WP]. destruct (WP _ _ _ _ S) as (_ & E2 & _).
    split; [exact E2|]. apply namesOK_setField.
    apply (namesOK_single _ (children child)); [|reflexivity].
    exact (proj2 (IHv w (or_introl eq_refl) (uniqueKeysV_list _ _ U)) _ _ _ _ S).
  - destruct l as [|w rest']; intro H; [injection H as <- _; left; reflexivity|].
    destruct (sliceElemType cfg (newChild f (name f ++ ".elem")) w rest') as [[child et']|] eqn:S; [|discriminate].
    destruct (ListOf et') as [lt|]; [|discriminate]. injection H as <- _.
    right; exists child; split; [reflexivity|].
    apply (namesOK_single _ (children child)); [|reflexivity].
    exact (proj2 (IHv w (or_introl eq_refl) (uniqueKeysV_list _ _ U)) _ _ _ _ S).
  - intro H. destruct (uniqueKeysV_map m U) as [ND Um].
    destruct (mapToArrowLoop (mapEntry cfg) (newChild f k) m) as [child|] eqn:L; [|discriminate].
    destruct (loop_paths (mapEntry cfg) m
                (fun k' v' I g c' => proj1 (walker_paths cfg v') g k' c') _ _ L) as (_ & E2 & _).
    destruct (children child) as [|c0 cs] eqn:Ch; [discriminate|]. injection H as <-.
    split; [exact E2|]. apply namesOK_setField.
    apply (loop_names (mapEntry cfg) m
             (fun k' v' I g c' M => proj1 (IHv v' (In_map_snd _ _ _ I) (Um k' v' I)) g k' c' M)
             ND (newChild f k)); [constructor | intros ? [] | exact L].
  - intro H. destruct (uniqueKeysV_map m U) as [ND Um].
    destruct (mapToArrowLoop (mapEntry cfg) (newChild f (name f ++ ".elem")) m) as [child|] eqn:L;
      [|discriminate]. injection H as <- _.
    right; exists child; split; [reflexivity|].
    apply (loop_names (mapEntry cfg) m
             (fun k' v' I g c' M => proj1 (IHv v' (In_map_snd _ _ _ I) (Um k' v' I)) g k' c' M)
             ND (newChild f (name f ++ ".elem"))); [constructor | intros ? [] | exact L].
Qed.

Lemma mapToArrow_paths (cfg : Config) (R : Record_) (f : fieldPos) :
  mapToArrow cfg newFieldPos R = Some f -> forall c, In c (children f) -> pathsOK [] c.
Proof.
  intros H c I. unfold mapToArrow in H.
  destruct (loop_paths (mapEntry cfg) R
              (fun k' v' _ g c' => proj1 (walker_paths cfg v') g k' c') _ _ H) as (_ & _ & E3).
  destruct (E3 c I) as [[]|[Pc _]]; exact Pc.
Qed.

Lemma mapToArrow_names (cfg : Config) (R : Record_) (f : fieldPos) :
  uniqueKeys R = true -> mapToArrow cfg newFieldPos R = Some f -> namesOK f.
Proof.
  intros U H. destruct (uniqueKeysV_map R U) as [ND Um].
  apply (loop_names (mapEntry cfg) R
           (fun k' v' I g c' M => proj1 (walker_names cfg v' (Um k' v' I)) g k' c' M)
           ND newFieldPos); [constructor | intros ? [] | exact H].
Qed.

(** *** Unify level *)

Lemma Unify_ok (u : Bodkin) (R : Record_) (u1 : Bodkin) :
  Unify u (InRecord R) = Returned u1 None ->
  exists f u2, mapToArrow (cfg u) newFieldPos R = Some f /\
    mergeAll [] (setNew u f) (children f) = Some u2 /\
    u1 = setCount u2 (incr64 (unificationCount u2)).
Proof.
  unfold Unify; simpl. destruct (maxCount u <? unificationCount u)%Z; intro H; [discriminate H|].
  destruct (mapToArrow (cfg u) newFieldPos R) as [f|] eqn:W; [|discriminate].
  destruct (mergeAll [] (setNew u f) (children f)) as [u2|] eqn:M; [|discriminate].
  injection H as <-; exists f, u2; split; [reflexivity | split; [exact M | reflexivity]].
Qed.

Lemma Unify_treeStep (u : Bodkin) (a : Input) (u' : Bodkin) (e : option BodkinError) :
  Unify u a = Returned u' e -> treeStep (fun _ => True) (old u) (old u').
Proof.
  unfold Unify. destruct (maxCount u <? unificationCount u)%Z; intro H;
    [injection H as <- _; apply treeStep_refl|].
  destruct (InputMap a) as [m|]; [|injection H as <- _; apply treeStep_refl].
  destruct (mapToArrow (cfg u) newFieldPos m) as [f|] eqn:W; [|discriminate].
  destruct (mergeAll [] (setNew u f) (children f)) as [u2|] eqn:M; [|discriminate].
  injection H as <- _. simpl. rewrite mergeAll_mergeList in M.
  change (old u) with (old (setNew u f)).
  eapply mergeList_treeStep; [|exact M].
  intros c Ic v v' Mc. eapply treeStep_mono; [|apply (merge_treeStep [] c (mapToArrow_paths _ _ _ W c Ic) v true v'); [reflexivity | exact Mc]].
  intros; exact I.
Qed.

Lemma Unify_nodes (u : Bodkin) (R : Record_) (u1 : Bodkin) (f : fieldPos) :
  uniqueKeys R = true -> Unify u (InRecord R) = Returned u1 None ->
  mapToArrow (cfg u) newFieldPos R = Some f ->
  forall q m, q <> [] -> lookup f q = Some m ->
  path m = q /\ nodeResult (typeConversion (cfg u)) (old u) (old u1) m.
Proof.
  intros U H W q m Hq Lq.
  destruct (Unify_ok u R u1 H) as (f' & u2 & W' & M & ->). rewrite W in W'; injection W' as <-.
  assert (NO := mapToArrow_names _ _ _ U W). inversion NO as [? ND Hcn]; subst.
  assert (HP := mapToArrow_paths _ _ _ W).
  rewrite mergeAll_mergeList in M.
  destruct (mergeList_result (children f) [] true (setNew u f) u2) as [Rs _]; try assumption.
  - intros c Ic v v' Mc. apply (merge_result [] c (HP c Ic) v true v'); [apply Hcn; exact Ic | reflexivity | exact Mc].
  - intros c Ic v v' Mc. exact (merge_treeStep [] c (HP c Ic) v true v' (fun _ => eq_refl) Mc).
  - destruct q as [|k s]; [congruence|]. simpl in Lq; unfold childmap in Lq.
    destruct (lastByName k (children f)) as [c|] eqn:C; [|discriminate].
    apply lastByName_some in C as [Nc Ic].
    destruct (lookup_path _ _ _ _ (HP c Ic) Lq) as [Em _].
    destruct (pathsOK_inv _ _ (HP c Ic)) as [Ec _].
    split; [rewrite Em, Ec, Nc; reflexivity|].
    exact (Rs c Ic s m Lq).
Qed.

Lemma fieldStable_scalar (fl fl' : Field) (t : Type_) :
  tid fl = Some t -> t <> LIST -> t <> STRUCT -> fieldStable fl fl' -> fl' = fl.
Proof. intros T L S [E|[_ [X|X]]]; [exact E | congruence | congruence]. Qed.

Lemma fieldStable_scalar' (fl fl' : Field) :
  fieldStable fl fl' -> tid fl <> Some LIST -> tid fl <> Some STRUCT -> fl' = fl.
Proof. intros [E|[_ [X|X]]] L S; [exact E | congruence | congruence]. Qed.

Lemma Field_eqb_diff (f g : Field) : tid f <> tid g -> Field_eqb f g = false.
Proof. intro D; destruct (Field_eqb f g) eqn:E; [apply Field_eqb_tid in E; contradiction | reflexivity]. Qed.

(** C4 (amended): with [type_conversion], when a path whose cumulative type
    is [Date32] is observed with a [Timestamp] in a later record (a Go map,
    so with distinct keys), [Unify] leaves at that path the field
    [timestamp[ms, tz=UTC]] under the cumulative node's name. *)
Theorem date32_observed_timestamp (u u1 : Bodkin) (R : Record_) (f m kin : fieldPos)
  (q : list string) :
  typeConversion (cfg u) = true -> uniqueKeys R = true ->
  Unify u (InRecord R) = Returned u1 None ->
  mapToArrow (cfg u) newFieldPos R = Some f -> q <> [] -> lookup f q = Some m ->
  lookup (old u) q = Some kin -> tid (field kin) = Some DATE32 -> tid (field m) = Some TIMESTAMP ->
  fieldAt (old u1) q = Some (mkField (name kin) (Some Timestamp_ms) true).
Proof.
  intros TC U H W Hq Lq L Ta Tb.
  destruct (Unify_nodes u R u1 f U H W q m Hq Lq) as [<- (k' & L' & _ & F)].
  specialize (F kin L). rewrite TC in F. unfold convertedField in F.
  rewrite Field_eqb_diff in F by congruence. rewrite Ta, Tb in F. simpl in F.
  apply fieldStable_scalar with (t := TIMESTAMP) in F; [|reflexivity | discriminate | discriminate].
  rewrite (lookup_fieldAt _ _ _ L'), F; reflexivity.
Qed.

(** X15: with [type_conversion], when a path whose cumulative type
    is an integer type [a] is observed with a different integer type [b] in
    a later record, [Unify] leaves at that path a [utf8] field when [b] is
    signed ([b] in [UpgradableTypes]), and the cumulative field unchanged
    when [b] is unsigned; never [int64] from another integer type. *)
Theorem integer_observed_integer (u u1 : Bodkin) (R : Record_) (f m kin : fieldPos)
  (q : list string) (a b : Type_) :
  typeConversion (cfg u) = true -> uniqueKeys R = true ->
  Unify u (InRecord R) = Returned u1 None ->
  mapToArrow (cfg u) newFieldPos R = Some f -> q <> [] -> lookup f q = Some m ->
  lookup (old u) q = Some kin -> tid (field kin) = Some a -> tid (field m) = Some b ->
  isInteger a = true -> isInteger b = true -> a <> b ->
  fieldAt (old u1) q = Some (if Upgradable b then mkField (name kin) (Some StringType) true
                             else field kin).
Proof.
  intros TC U H W Hq Lq L Ta Tb Ia Ib Dab.
  destruct (Unify_nodes u R u1 f U H W q m Hq Lq) as [<- (k' & L' & _ & F)].
  specialize (F kin L). rewrite TC in F. unfold convertedField in F.
  rewrite Field_eqb_diff in F by congruence. rewrite Ta, Tb in F.
  rewrite (lookup_fieldAt _ _ _ L'). f_equal.
  destruct a, b; simpl in Ia, Ib, F |- *; try discriminate; try congruence;
    (apply fieldStable_scalar' in F; [exact F | try rewrite Ta; discriminate | try rewrite Ta; discriminate]).
Qed.

(** Merging walker trees that the cumulative tree absorbs changes nothing. *)
Lemma mergeList_noop (l : list fieldPos) (u : Bodkin) :
  (forall c, In c l -> pathsOK [] c /\ namesOK c /\
     absorbedBy (typeConversion (cfg u)) (old u) c) ->
  mergeList [] u l [] true = Some u.
Proof.
  induction l as [|c l IH]; intro H; simpl; [reflexivity|].
  destruct (H c (or_introl eq_refl)) as (P & N & A).
  rewrite (merge_noop [] c P u true N A). apply IH; intros; apply H; right; assumption.
Qed.

(** C7: for a decoded record [R] (a Go map, so with distinct keys), a second
    [Unify] of [R] after a first one adds no change-log entry and leaves
    the cumulative tree, hence the exported schema, as the first left it. *)
Theorem Unify_idempotent (u u1 : Bodkin) (R : Record_) (e : option BodkinError) :
  uniqueKeys R = true -> Unify u (InRecord R) = Returned u1 e ->
  match Unify u1 (InRecord R) with
  | Returned u2 _ => changes u2 = changes u1 /\ old u2 = old u1 /\ Schema u2 = Schema u1
  | Panicked => False
  end.
Proof.
  intros U H0.
  destruct e as [e|].
  { unfold Unify in H0 |- *. destruct (maxCount u <? unificationCount u)%Z eqn:Mx.
    - injection H0 as <- _. rewrite Mx. split; [reflexivity | split; reflexivity].
    - simpl in H0. destruct (mapToArrow (cfg u) newFieldPos R); [|discriminate].
      destruct (mergeAll [] (setNew u f) (children f)); discriminate. }
  assert (H := H0); clear H0.
  destruct (Unify_ok u R u1 H) as (f & u2 & W & M & E).
  assert (Cfg : cfg u1 = cfg u).
  { subst u1; simpl. destruct (mergeAll_frame _ _ _ _ M) as [F _]; exact F. }
  assert (NO := mapToArrow_names _ _ _ U W). destruct NO as [f ND Hcn].
  assert (HP := mapToArrow_paths _ _ _ W).
  unfold Unify at 1.
  destruct (maxCount u1 <? unificationCount u1)%Z; [split; [reflexivity | split; reflexivity]|].
  simpl. rewrite Cfg, W, mergeAll_mergeList, mergeList_noop; [split; [reflexivity | split; reflexivity]|].
  intros c Ic. split; [exact (HP c Ic)|]. split; [exact (Hcn c Ic)|].
  intros s m Lm. simpl. rewrite Cfg.
  assert (Hq : name c :: s <> []) by discriminate.
  assert (Lq : lookup f (name c :: s) = Some m)
    by (simpl; unfold childmap; rewrite (lastByName_In_NoDup _ _ ND Ic); exact Lm).
  destruct (Unify_nodes u R u1 f U H W _ m Hq Lq) as [_ (k' & L' & A & _)].
  exists k'; split; assumption.
Qed.

(** C8: in every reachable state, a field of type [String] at a path of the
    cumulative tree is still there, unchanged, after any [Unify] or
    [UnifyAtPath] call, with or without [type_conversion]. *)
Theorem String_absorbing (u u' : Bodkin) (a : Input) (mergeAt : string)
  (e : option BodkinError) (q : list string) (fl : Field) :
  reachable u ->
  (Unify u a = Returned u' e \/ UnifyAtPath u a mergeAt = Returned u' e) ->
  q <> [] -> fieldAt (old u) q = Some fl -> tid fl = Some STRING ->
  fieldAt (old u') q = Some fl.
Proof.
  intros Rc [H|H] Hq F T.
  - destruct (Unify_treeStep u a u' e H q fl Hq F) as (fl' & F' & [S|[_ (x & y & t & Tx & M)]]).
    + rewrite F'; f_equal. apply fieldStable_scalar' in S; [exact S | rewrite T; discriminate | rewrite T; discriminate].
    + rewrite T in Tx; injection Tx as <-; discriminate M.
  - destruct (reachable_stores u Rc) as [Hk _].
    unfold UnifyAtPath in H; rewrite Hk in H.
    destruct (maxCount u <? unificationCount u)%Z; injection H as <- _; exact F.
Qed.

(** Scenario: [{"d": "1979-01-01"}] then a timestamp at [d]. *)
Lemma date32_observed_timestamp_witness :
  exists u u1 f m kin,
    newBodkin D4a [WithInferTimeUnits; WithTypeConversion] = Some u /\
    Unify u (InRecord D4b) = Returned u1 None /\
    mapToArrow (cfg u) newFieldPos D4b = Some f /\
    lookup f ["d"] = Some m /\ lookup (old u) ["d"] = Some kin /\
    tid (field kin) = Some DATE32 /\ tid (field m) = Some TIMESTAMP /\
    fieldAt (old u1) ["d"] = Some (mkField (name kin) (Some Timestamp_ms) true).
Proof.
  let v := eval vm_compute in (newBodkin D4a [WithInferTimeUnits; WithTypeConversion]) in
  match v with Some ?u =>
    let w := eval vm_compute in (Unify u (InRecord D4b)) in
    let g := eval vm_compute in (mapToArrow (cfg u) newFieldPos D4b) in
    match w with Returned ?u1 _ => match g with Some ?f =>
    let mm := eval vm_compute in (lookup f ["d"]) in
    let kk := eval vm_compute in (lookup (old u) ["d"]) in
    match mm with Some ?m => match kk with Some ?kin =>
      exists u, u1, f, m, kin;
      assert (Eu : newBodkin D4a [WithInferTimeUnits; WithTypeConversion] = Some u)
        by (vm_compute; reflexivity);
      assert (Eu1 : Unify u (InRecord D4b) = Returned u1 None) by (vm_compute; reflexivity);
      assert (Ef : mapToArrow (cfg u) newFieldPos D4b = Some f) by (vm_compute; reflexivity);
      assert (Em : lookup f ["d"] = Some m) by (vm_compute; reflexivity);
      assert (Ek : lookup (old u) ["d"] = Some kin) by (vm_compute; reflexivity);
      assert (Td : tid (field kin) = Some DATE32) by (vm_compute; reflexivity);
      assert (Tt : tid (field m) = Some TIMESTAMP) by (vm_compute; reflexivity);
      split; [exact Eu|]; split; [exact Eu1|]; split; [exact Ef|];
      split; [exact Em|]; split; [exact Ek|]; split; [exact Td|]; split; [exact Tt|];
      exact (date32_observed_timestamp u u1 D4b f m kin ["d"]
               ltac:(vm_compute; reflexivity) ltac:(vm_compute; reflexivity)
               Eu1 Ef ltac:(discriminate) Em Ek Td Tt)
    end end end end
  end.
Defined.

(** Scenario: an [int32] at [a], then an [int64] at [a]. *)
Lemma integer_observed_integer_witness :
  exists u u1 f m kin,
    newBodkin I5a [WithTypeConversion] = Some u /\
    Unify u (InRecord I5b) = Returned u1 None /\
    mapToArrow (cfg u) newFieldPos I5b = Some f /\
    lookup f ["a"] = Some m /\ lookup (old u) ["a"] = Some kin /\
    tid (field kin) = Some INT32 /\ tid (field m) = Some INT64 /\
    fieldAt (old u1) ["a"] = Some (if Upgradable INT64 then mkField (name kin) (Some StringType) true
                                   else field kin).
Proof.
  let v := eval vm_compute in (newBodkin I5a [WithTypeConversion]) in
  match v with Some ?u =>
    let w := eval vm_compute in (Unify u (InRecord I5b)) in
    let g := eval vm_compute in (mapToArrow (cfg u) newFieldPos I5b) in
    match w with Returned ?u1 _ => match g with Some ?f =>
    let mm := eval vm_compute in (lookup f ["a"]) in
    let kk := eval vm_compute in (lookup (old u) ["a"]) in
    match mm with Some ?m => match kk with Some ?kin =>
      exists u, u1, f, m, kin;
      assert (Eu : newBodkin I5a [WithTypeConversion] = Some u) by (vm_compute; reflexivity);
      assert (Eu1 : Unify u (InRecord I5b) = Returned u1 None) by (vm_compute; reflexivity);
      assert (Ef : mapToArrow (cfg u) newFieldPos I5b = Some f) by (vm_compute; reflexivity);
      assert (Em : lookup f ["a"] = Some m) by (vm_compute; reflexivity);
      assert (Ek : lookup (old u) ["a"] = Some kin) by (vm_compute; reflexivity);
      assert (Ta : tid (field kin) = Some INT32) by (vm_compute; reflexivity);
      assert (Tb : tid (field m) = Some INT64) by (vm_compute; reflexivity);
      split; [exact Eu|]; split; [exact Eu1|]; split; [exact Ef|];
      split; [exact Em|]; split; [exact Ek|]; split; [exact Ta|]; split; [exact Tb|];
      exact (integer_observed_integer u u1 I5b f m kin ["a"] INT32 INT64
               ltac:(vm_compute; reflexivity) ltac:(vm_compute; reflexivity)
               Eu1 Ef ltac:(discriminate) Em Ek Ta Tb eq_refl eq_refl ltac:(discriminate))
    end end end end
  end.
Defined.

(** Scenario: the date and timestamp records, the second unified twice. *)
Lemma Unify_idempotent_witness :
  exists u u1,
    newBodkin D4a [WithInferTimeUnits; WithTypeConversion] = Some u /\
    uniqueKeys D4b = true /\ Unify u (InRecord D4b) = Returned u1 None /\
    match Unify u1 (InRecord D4b) with
    | Returned u2 _ => changes u2 = changes u1 /\ old u2 = old u1 /\ Schema u2 = Schema u1
    | Panicked => False
    end.
Proof.
  let v := eval vm_compute in (newBodkin D4a [WithInferTimeUnits; WithTypeConversion]) in
  match v with Some ?u =>
    let w := eval vm_compute in (Unify u (InRecord D4b)) in
    match w with Returned ?u1 _ =>
      exists u, u1;
      assert (Eu1 : Unify u (InRecord D4b) = Returned u1 None) by (vm_compute; reflexivity);
      split; [vm_compute; reflexivity|]; split; [vm_compute; reflexivity|];
      split; [exact Eu1|];
      exact (Unify_idempotent u u1 D4b None ltac:(vm_compute; reflexivity) Eu1)
    end
  end.
Defined.

(** Scenario: a string at [a], then an [int64] at [a]. *)
Lemma String_absorbing_witness :
  exists u u',
    newBodkin [("a", VString "x")] [WithTypeConversion] = Some u /\
    Unify u (InRecord [("a", VInt64 1)]) = Returned u' None /\
    fieldAt (old u) ["a"] = Some (mkField "a" (Some StringType) true) /\
    fieldAt (old u') ["a"] = Some (mkField "a" (Some StringType) true).
Proof.
  let v := eval vm_compute in (newBodkin [("a", VString "x")] [WithTypeConversion]) in
  match v with Some ?u =>
    let w := eval vm_compute in (Unify u (InRecord [("a", VInt64 1)])) in
    match w with Returned ?u' _ =>
      exists u, u';
      assert (Eu : newBodkin [("a", VString "x")] [WithTypeConversion] = Some u)
        by (vm_compute; reflexivity);
      assert (Eu' : Unify u (InRecord [("a", VInt64 1)]) = Returned u' None)
        by (vm_compute; reflexivity);
      assert (Fa : fieldAt (old u) ["a"] = Some (mkField "a" (Some StringType) true))
        by (vm_compute; reflexivity);
      split; [exact Eu|]; split; [exact Eu'|]; split; [exact Fa|];
      exact (String_absorbing u u' (InRecord [("a", VInt64 1)]) "" None ["a"] _
               (reach_new _ _ _ Eu) (or_introl Eu') ltac:(discriminate) Fa eq_refl)
    end
  end.
Defined.

(** ** Further properties of the engine *)

Lemma Unify_cases (u : Bodkin) (a : Input) (u' : Bodkin) (e : option BodkinError) :
  Unify u a = Returned u' e ->
  (u' = u /\ e = Some ErrMaxCountExceeded /\ (maxCount u <? unificationCount u)%Z = true) \/
  (u' = setErr u "invalid input" /\ e = Some ErrInvalidInput) \/
  (exists m f u2, InputMap a = inl m /\ mapToArrow (cfg u) newFieldPos m = Some f /\
     mergeAll [] (setNew u f) (children f) = Some u2 /\
     u' = setCount u2 (incr64 (unificationCount u2)) /\ e = None /\
     (maxCount u <? unificationCount u)%Z = false).
Proof.
  unfold Unify. destruct (maxCount u <? unificationCount u)%Z eqn:Mx; intro H.
  - injection H as <- <-; left; repeat split.
  - destruct (InputMap a) as [m|] eqn:I; [|injection H as <- <-; right; left; split; reflexivity].
    destruct (mapToArrow (cfg u) newFieldPos m) as [f|] eqn:W; [|discriminate].
    destruct (mergeAll [] (setNew u f) (children f)) as [u2|] eqn:M; [|discriminate].
    injection H as <- <-. right; right. exists m, f, u2; repeat split; assumption.
Qed.

Lemma UnifyAtPath_cases (u : Bodkin) (a : Input) (p : string) (u' : Bodkin)
  (e : option BodkinError) :
  UnifyAtPath u a p = Returned u' e ->
  (u' = u /\ (e = Some ErrMaxCountExceeded /\ (maxCount u <? unificationCount u)%Z = true \/
              e = Some ErrPathNotFound)) \/
  (u' = setErr u "invalid input" /\ e = Some ErrInvalidInput) \/
  (exists m f u2, InputMap a = inl m /\ mapToArrow (cfg u) newFieldPos m = Some f /\
     mergeAll (mergePathOf p) (setNew u f) (children f) = Some u2 /\
     u' = setCount u2 (incr64 (unificationCount u2)) /\ e = None).
Proof.
  unfold UnifyAtPath. destruct (maxCount u <? unificationCount u)%Z eqn:Mx; intro H.
  - injection H as <- <-; left; split; [reflexivity | left; split; reflexivity].
  - destruct (omapGet p (knownFields u)) as [k|]; [|injection H as <- <-; left; split; [reflexivity | right; reflexivity]].
    destruct (InputMap a) as [m|] eqn:I; [|injection H as <- <-; right; left; split; reflexivity].
    destruct (mapToArrow (cfg u) newFieldPos m) as [f|] eqn:W; [|discriminate].
    destruct (mergeAll _ (setNew u f) (children f)) as [u2|] eqn:M; [|discriminate].
    injection H as <- <-. right; right. exists m, f, u2; repeat split; assumption.
Qed.

(** X1: a successful [Unify] adds one to the count, with [int64]
    wrap-around, and keeps the cap. *)
Theorem Unify_increments_count (u : Bodkin) (a : Input) (u' : Bodkin) :
  Unify u a = Returned u' None ->
  unificationCount u' = incr64 (unificationCount u) /\ maxCount u' = maxCount u /\
  cfg u' = cfg u.
Proof.
  intro H. destruct (Unify_cases u a u' None H) as [(_ & D & _)|[(_ & D)|(m & f & u2 & _ & _ & M & -> & _)]];
    try discriminate D.
  destruct (mergeAll_frame _ _ _ _ M) as (C & _ & _ & _ & _ & N & X).
  simpl; rewrite N, X, C; repeat split.
Qed.

Lemma incr64_range (z : Z) : (- 2 ^ 63 <= incr64 z <= MaxInt64)%Z.
Proof.
  unfold incr64, MaxInt64.
  pose proof (Z.mod_pos_bound (z + 1 + 2 ^ 63) (2 ^ 64) ltac:(lia)). lia.
Qed.

Lemma reachable_counts (u : Bodkin) :
  reachable u -> maxCount u = MaxInt64 /\ (- 2 ^ 63 <= unificationCount u <= MaxInt64)%Z.
Proof.
  induction 1 as [m opts u H | u a u' e _ IH H | u a p u' e _ IH H | u _ IH | u _ IH].
  - destruct (newBodkin_fields m opts u H) as (_ & _ & C & X & _); rewrite C, X.
    unfold MaxInt64; split; [reflexivity | lia].
  - destruct (Unify_cases u a u' e H) as [(-> & _)|[(-> & _)|(m & f & u2 & _ & _ & M & -> & _)]];
      try exact IH.
    destruct (mergeAll_frame _ _ _ _ M) as (_ & _ & _ & _ & _ & _ & X).
    simpl; rewrite X; split; [exact (proj1 IH) | apply incr64_range].
  - destruct (UnifyAtPath_cases u a p u' e H) as [(-> & _)|[(-> & _)|(m & f & u2 & _ & _ & M & -> & _)]];
      try exact IH.
    destruct (mergeAll_frame _ _ _ _ M) as (_ & _ & _ & _ & _ & _ & X).
    simpl; rewrite X; split; [exact (proj1 IH) | apply incr64_range].
  - split; [exact (proj1 IH) | simpl; unfold MaxInt64; lia].
  - split; [reflexivity | exact (proj2 IH)].
Qed.

(** X2: in every reachable state neither [Unify] nor [UnifyAtPath] fails with
    [ErrMaxCountExceeded]: [newBodkin] sets the cap to [MaxInt64] after the
    options run (so [WithMaxCount] has no effect), and the count stays an
    [int64]. *)
Theorem reachable_no_maxcount_error (u : Bodkin) (a : Input) (p : string) (u' : Bodkin)
  (e : option BodkinError) :
  reachable u ->
  (Unify u a = Returned u' e \/ UnifyAtPath u a p = Returned u' e) ->
  e <> Some ErrMaxCountExceeded.
Proof.
  intros R H. destruct (reachable_counts u R) as [X C].
  assert (G : (maxCount u <? unificationCount u)%Z = false) by (rewrite X; apply Z.ltb_ge; lia).
  destruct H as [H|H].
  - destruct (Unify_cases u a u' e H) as [(_ & _ & T)|[(_ & ->)|(_ & _ & _ & _ & _ & _ & _ & -> & _)]];
      [congruence | discriminate | discriminate].
  - destruct (UnifyAtPath_cases u a p u' e H) as [(_ & [(_ & T)| ->])|[(_ & ->)|(_ & _ & _ & _ & _ & _ & _ & ->)]];
      [congruence | discriminate | discriminate | discriminate].
Qed.

(** X3: no call changes the original tree, so [OriginSchema] keeps the schema
    of the record given to [NewBodkin]. *)
Theorem api_keeps_OriginSchema (u : Bodkin) (a : Input) (p : string) (u' : Bodkin)
  (e : option BodkinError) :
  (Unify u a = Returned u' e \/ UnifyAtPath u a p = Returned u' e \/
   u' = ResetCount u \/ u' = ResetMaxCount u) ->
  original u' = original u /\ OriginSchema u' = OriginSchema u.
Proof.
  intro H; assert (O : original u' = original u);
    [|split; [exact O | unfold OriginSchema; rewrite O; reflexivity]].
  destruct H as [H|[H|[->| ->]]]; try reflexivity.
  - destruct (Unify_cases u a u' e H) as [(-> & _)|[(-> & _)|(m & f & u2 & _ & _ & M & -> & _)]];
      try reflexivity.
    destruct (mergeAll_frame _ _ _ _ M) as (_ & O & _); exact O.
  - destruct (UnifyAtPath_cases u a p u' e H) as [(-> & _)|[(-> & _)|(m & f & u2 & _ & _ & M & -> & _)]];
      try reflexivity.
    destruct (mergeAll_frame _ _ _ _ M) as (_ & O & _); exact O.
Qed.

Lemma logStep_refl (u : Bodkin) : logStep u u.
Proof. split; [reflexivity|]. exists []; rewrite app_nil_r; split; [reflexivity | constructor]. Qed.

Lemma logStep_trans (u v w : Bodkin) : logStep u v -> logStep v w -> logStep u w.
Proof.
  intros (C1 & l1 & E1 & F1) (C2 & l2 & E2 & F2). split; [congruence|].
  exists (l1 ++ l2); split; [rewrite E2, E1, app_assoc; reflexivity|].
  intro T; apply Forall_app; split; [exact (F1 T) | apply F2; rewrite C1; exact T].
Qed.

Lemma graft_log (u : Bodkin) (fp : list string) (n : fieldPos) (u' : Bodkin) :
  graft u fp n = Some u' -> exists p t, changes u' = changes u ++ [Added p t].
Proof. unfold graft; intro H; open_result H; simpl; eexists; eexists; reflexivity. Qed.

Lemma upgradeType_log (u : Bodkin) (op : list string) (o n : fieldPos) (t : Type_)
  (u' : Bodkin) :
  upgradeType u op o n t = Some u' ->
  changes u' = changes u \/ exists p a b, changes u' = changes u ++ [Changed p a b].
Proof.
  unfold upgradeType; intro H; open_result H;
    first [left; reflexivity | right; simpl; do 3 eexists; reflexivity].
Qed.

Lemma graft_logStep (u : Bodkin) (fp : list string) (n : fieldPos) (u' : Bodkin) :
  graft u fp n = Some u' -> logStep u u'.
Proof.
  intro G. destruct (graft_frame u fp n u' G) as [C _]. destruct (graft_log u fp n u' G) as (p & t & E).
  split; [exact C|]. exists [Added p t]; split; [exact E | intros _; repeat constructor].
Qed.

Lemma convert_logStep (u : Bodkin) (p : list string) (kin n : fieldPos) (u' : Bodkin) :
  convert u p kin n = Some u' -> logStep u u'.
Proof.
  intro H. destruct (convert_frame u p kin n u' H) as [C _]. split; [exact C|].
  unfold convert in H. destruct (typeConversion (cfg u)) eqn:T.
  - assert (L : changes u' = changes u \/ exists p a b, changes u' = changes u ++ [Changed p a b]).
    { repeat match type of H with
             | Some _ = Some _ => injection H as <-; left; reflexivity
             | upgradeType _ _ _ _ _ = Some _ => eapply upgradeType_log; exact H
             | None = Some _ => discriminate H
             | context [match ?x with _ => _ end] => destruct x eqn:?
             | context [if ?x then _ else _] => destruct x eqn:?
             end. }
    destruct L as [L|(q & a & b & L)];
      [exists []; rewrite app_nil_r | exists [Changed q a b]]; (split; [exact L | discriminate]).
  - injection H as <-. exists []; rewrite app_nil_r; split; [reflexivity | constructor].
Qed.

Lemma mergeAll_logStep (mergeAt : list string) (u : Bodkin) (l : list fieldPos) (u' : Bodkin) :
  mergeAll mergeAt u l = Some u' -> logStep u u'.
Proof.
  apply mergeAll_steps; [exact logStep_refl | exact logStep_trans | exact graft_logStep
                        | exact convert_logStep].
Qed.

(** X4: the change log only grows: a call to [Unify] or [UnifyAtPath] appends
    entries to it and never removes or rewrites one, and without
    [typeConversion] every entry it appends is an [Added] entry. *)
Theorem changes_append_only (u : Bodkin) (a : Input) (p : string) (u' : Bodkin)
  (e : option BodkinError) :
  (Unify u a = Returned u' e \/ UnifyAtPath u a p = Returned u' e) ->
  exists l, changes u' = changes u ++ l /\
    (typeConversion (cfg u) = false -> Forall (fun c => isAdded c = true) l).
Proof.
  intro H.
  assert (K : forall mp f u2, mergeAll mp (setNew u f) (children f) = Some u2 ->
    exists l, changes (setCount u2 (incr64 (unificationCount u2))) = changes u ++ l /\
      (typeConversion (cfg u) = false -> Forall (fun c => isAdded c = true) l)).
  { intros mp f u2 M. destruct (mergeAll_logStep _ _ _ _ M) as (_ & l & E & F).
    exists l; split; [exact E | exact F]. }
  assert (Z0 : exists l, changes u = changes u ++ l /\
      (typeConversion (cfg u) = false -> Forall (fun c => isAdded c = true) l))
    by (exists []; rewrite app_nil_r; split; [reflexivity | constructor]).
  destruct H as [H|H].
  - destruct (Unify_cases u a u' e H) as [(-> & _)|[(-> & _)|(m & f & u2 & _ & _ & M & -> & _)]];
      [exact Z0 | exact Z0 | exact (K _ _ _ M)].
  - destruct (UnifyAtPath_cases u a p u' e H) as [(-> & _)|[(-> & _)|(m & f & u2 & _ & _ & M & -> & _)]];
      [exact Z0 | exact Z0 | exact (K _ _ _ M)].
Qed.

Lemma fold_applyOption_new (opts : list Option_) (u : Bodkin) :
  new (fold_left (fun b o => applyOption o b) opts u) = new u.
Proof.
  revert u; induction opts as [|o opts IH]; intro u; simpl; [reflexivity|].
  rewrite IH; destruct o; reflexivity.
Qed.

(** X7: the arrow type identifier that [goType2Arrow] records in
    [f.arrowType] gives back, through [arrowTypeID2Type], the data type it
    returns; that type has this identifier, except for a nil leaf, recorded
    [NULL] and typed [Binary]. *)
Theorem goType2Arrow_arrowTypeID2Type (cfg : Config) (v : Value) (f : fieldPos)
  (t : Type_) (dt : option DataType) :
  goType2Arrow cfg v = Some (Some t, dt) ->
  arrowTypeID2Type f t = dt /\
  exists d, dt = Some d /\ (ID d = t \/ (t = NULL /\ d = BinaryType)).
Proof.
  revert t dt. apply (Value_ind' (fun v => forall t dt, goType2Arrow cfg v = Some (Some t, dt) ->
    arrowTypeID2Type f t = dt /\ exists d, dt = Some d /\ (ID d = t \/ (t = NULL /\ d = BinaryType)))).
  clear v; intros v IH t dt H; destruct v; simpl in H.
  all: try (injection H as <- <-; split; [reflexivity | eexists; split; [reflexivity | now (left + right)]]).
  all: try discriminate H.
  - destruct (ParseInt64 s); injection H as <- <-;
      (split; [reflexivity | eexists; split; [reflexivity | left; reflexivity]]).
  - repeat match type of H with context [if ?c then _ else _] => destruct c end;
      injection H as <- <-; (split; [reflexivity | eexists; split; [reflexivity | left; reflexivity]]).
  - destruct l as [|w l]; [discriminate H|]. apply (IH w); [left; reflexivity | exact H].
Qed.

Lemma string_app_assoc (a b c : string) : ((a ++ b) ++ c = a ++ (b ++ c))%string.
Proof. induction a as [|x a IH]; simpl; [reflexivity | rewrite IH; reflexivity]. Qed.

Lemma string_app_nil_r (a : string) : (a ++ "")%string = a.
Proof. induction a as [|x a IH]; simpl; [reflexivity | rewrite IH; reflexivity]. Qed.

Lemma splitDot_aux_nodot (x : string) : forall cur rest, countDots x = 0 ->
  splitDot_aux cur (x ++ rest)%string = splitDot_aux (cur ++ x)%string rest.
Proof.
  induction x as [|c x IH]; intros cur rest H; simpl.
  - rewrite string_app_nil_r; reflexivity.
  - simpl in H. destruct (Ascii.eqb c "."); [discriminate H|].
    rewrite IH by exact H. rewrite string_app_assoc; reflexivity.
Qed.

Lemma splitDot_joinDot (p : list string) (x : string) :
  Forall (fun k => countDots k = 0) (x :: p) -> splitDot_aux "" (joinDot (x :: p)) = x :: p.
Proof.
  revert x; induction p as [|y p IH]; intros x H; inversion H as [|? ? Hx Hp]; subst.
  - simpl. rewrite <- (string_app_nil_r x) at 1. rewrite splitDot_aux_nodot by exact Hx.
    reflexivity.
  - change (joinDot (x :: y :: p)) with (x ++ "." ++ joinDot (y :: p))%string.
    rewrite splitDot_aux_nodot by exact Hx.
    change (splitDot_aux ("" ++ x) ("." ++ joinDot (y :: p)))%string
      with (x :: splitDot_aux "" (joinDot (y :: p))).
    rewrite (IH y Hp). reflexivity.
Qed.

(** X8: the [mergeAt] path that [UnifyAtPath] parses ([TrimPrefix "$"], then
    [Split "."]) gives back the path whose [dotPath] it is, for any path
    whose keys contain no dot, the single empty key [[""]] apart (its dot
    path "$" stands for the root). *)
Theorem mergePathOf_dotPath (p : list string) :
  p <> [""] -> Forall (fun k => countDots k = 0) p -> mergePathOf (dotPath p) = p.
Proof.
  intros Hne H. unfold mergePathOf, dotPath.
  destruct p as [|x p]; [reflexivity|].
  assert (J : String.eqb ("$" ++ joinDot (x :: p))%string "$" = false).
  { destruct p as [|y p].
    - simpl. destruct x as [|c x]; [contradiction Hne; reflexivity | reflexivity].
    - change (joinDot (x :: y :: p)) with (x ++ "." ++ joinDot (y :: p))%string.
      simpl. destruct x; reflexivity. }
  rewrite J. simpl. exact (splitDot_joinDot p x H).
Qed.

(** X9: [Paths] and [CountPaths] report nothing in any reachable state:
    [knownFields] is never filled. *)
Theorem Paths_always_empty (u : Bodkin) :
  reachable u -> Paths u = [] /\ CountPaths u = 0.
Proof.
  intro R; destruct (reachable_stores u R) as [Hk _].
  unfold Paths, CountPaths, sortMapKeysDesc; rewrite Hk; split; reflexivity.
Qed.

Section Blocks.
Variable f : string -> nat.

Lemma perm_flat_map_app (fa fb : nat -> list string) (ds : list nat) :
  Permutation (flat_map (fun d => fa d ++ fb d) ds) (flat_map fa ds ++ flat_map fb ds).
Proof.
  induction ds as [|d ds IH]; simpl; [reflexivity|].
  rewrite <- !app_assoc. apply Permutation_app_head.
  rewrite IH. apply Permutation_app_swap_app.
Qed.

Lemma flat_map_single (p : string) (ds : list nat) :
  NoDup ds -> In (f p) ds ->
  flat_map (fun d => if Nat.eqb (f p) d then [p] else []) ds = [p].
Proof.
  induction ds as [|d ds IH]; intros ND I; [contradiction|].
  inversion ND as [|? ? NI ND']; subst. simpl.
  destruct (Nat.eqb (f p) d) eqn:E.
  - apply Nat.eqb_eq in E; subst d.
    assert (Z : forall ds', ~ In (f p) ds' ->
              flat_map (fun d => if Nat.eqb (f p) d then [p] else []) ds' = []).
    { induction ds' as [|d' ds' IH']; intro N; [reflexivity|]; simpl.
      destruct (Nat.eqb (f p) d') eqn:E'; [apply Nat.eqb_eq in E'; subst; exfalso; apply N; left; reflexivity|].
      apply IH'; intro I'; apply N; right; exact I'. }
    rewrite (Z ds NI); reflexivity.
  - destruct I as [I|I]; [subst d; rewrite Nat.eqb_refl in E; discriminate|].
    exact (IH ND' I).
Qed.

Lemma blocks_perm (l : list string) (ds : list nat) :
  NoDup ds -> (forall p, In p l -> In (f p) ds) ->
  Permutation (flat_map (fun d => filter (fun q => Nat.eqb (f q) d) l) ds) l.
Proof.
  induction l as [|p l IH]; intros ND H.
  - clear ND H; induction ds as [|d ds IHd]; simpl; [constructor | exact IHd].
  - rewrite (flat_map_ext (fun d => filter (fun q => Nat.eqb (f q) d) (p :: l))
      (fun d => (if Nat.eqb (f p) d then [p] else []) ++ filter (fun q => Nat.eqb (f q) d) l))
      by (intro d; simpl; destruct (Nat.eqb (f p) d); reflexivity).
    rewrite perm_flat_map_app, (flat_map_single p ds ND (H p (or_introl eq_refl))).
    simpl; apply perm_skip, IH; [exact ND | intros q I; apply H; right; exact I].
Qed.

Lemma StronglySorted_app (R : string -> string -> Prop) (a b : list string) :
  StronglySorted R a -> StronglySorted R b -> (forall x y, In x a -> In y b -> R x y) ->
  StronglySorted R (a ++ b).
Proof.
  induction a as [|x a IH]; intros Sa Sb H; simpl; [exact Sb|].
  apply StronglySorted_inv in Sa as [Sa Fa]. constructor.
  - apply IH; [exact Sa | exact Sb | intros; apply H; [right|]; assumption].
  - apply Forall_app; split; [exact Fa|]. apply Forall_forall; intros y I; apply H; [left|]; auto.
Qed.

Lemma blocks_sorted (l : list string) (n : nat) :
  StronglySorted (fun a b => f b <= f a)
    (flat_map (fun d => filter (fun q => Nat.eqb (f q) d) l) (rev (seq 0 n))).
Proof.
  induction n as [|n IH]; [constructor|].
  rewrite seq_S, rev_app_distr; simpl.
  apply StronglySorted_app; [| exact IH |].
  - assert (Hb : forall x, In x (filter (fun q => Nat.eqb (f q) n) l) -> f x = n)
      by (intros x I; apply filter_In in I as [_ E]; apply Nat.eqb_eq; exact E).
    revert Hb; generalize (filter (fun q => Nat.eqb (f q) n) l) as b.
    induction b as [|x b IHb]; intro Hb; constructor.
    + apply IHb; intros; apply Hb; right; assumption.
    + apply Forall_forall; intros y I. rewrite (Hb x (or_introl eq_refl)), (Hb y (or_intror I)); lia.
  - intros x y Ix Iy. apply filter_In in Ix as [_ Ex]; apply Nat.eqb_eq in Ex.
    apply in_flat_map in Iy as (d & Id & Iy). apply filter_In in Iy as [_ Ey]; apply Nat.eqb_eq in Ey.
    apply in_rev, in_seq in Id. lia.
Qed.

Lemma filter_block (l : list string) (d d' : nat) :
  filter (fun q => Nat.eqb (f q) d) (filter (fun q => Nat.eqb (f q) d') l) =
  if Nat.eqb d d' then filter (fun q => Nat.eqb (f q) d) l else [].
Proof.
  destruct (Nat.eqb d d') eqn:Ed.
  - apply Nat.eqb_eq in Ed; subst d'. induction l as [|p l IH]; simpl; [reflexivity|].
    destruct (Nat.eqb (f p) d) eqn:E; simpl; rewrite ?E, IH; reflexivity.
  - induction l as [|p l IH]; simpl; [reflexivity|].
    destruct (Nat.eqb (f p) d') eqn:E; simpl; [|exact IH].
    destruct (Nat.eqb (f p) d) eqn:E2; [|exact IH].
    apply Nat.eqb_eq in E, E2. rewrite <- E, E2, Nat.eqb_refl in Ed; discriminate.
Qed.

Lemma blocks_filter (l : list string) (ds : list nat) (d : nat) :
  NoDup ds -> (forall p, In p l -> In (f p) ds) ->
  filter (fun q => Nat.eqb (f q) d) (flat_map (fun d' => filter (fun q => Nat.eqb (f q) d') l) ds) =
  filter (fun q => Nat.eqb (f q) d) l.
Proof.
  intros ND H.
  assert (G : forall ds', NoDup ds' ->
    filter (fun q => Nat.eqb (f q) d) (flat_map (fun d' => filter (fun q => Nat.eqb (f q) d') l) ds') =
    if existsb (Nat.eqb d) ds' then filter (fun q => Nat.eqb (f q) d) l else []).
  { induction ds' as [|d' ds' IH]; intro N; [reflexivity|].
    inversion N as [|? ? NI N']; subst. simpl. rewrite filter_app, IH by exact N'.
    rewrite filter_block. destruct (Nat.eqb d d') eqn:E; simpl.
    - apply Nat.eqb_eq in E; subst d'.
      destruct (existsb (Nat.eqb d) ds') eqn:X; [|apply app_nil_r].
      apply existsb_exists in X as (x & Ix & Ex); apply Nat.eqb_eq in Ex; subst x; contradiction.
    - reflexivity. }
  rewrite (G ds ND). destruct (existsb (Nat.eqb d) ds) eqn:X; [reflexivity|].
  symmetry. clear G. induction l as [|p l IH]; simpl; [reflexivity|].
  destruct (Nat.eqb (f p) d) eqn:E.
  - apply Nat.eqb_eq in E. assert (I := H p (or_introl eq_refl)). rewrite E in I.
    assert (existsb (Nat.eqb d) ds = true) by (apply existsb_exists; exists d; split; [exact I | apply Nat.eqb_refl]).
    congruence.
  - apply IH; intros q I; apply H; right; exact I.
Qed.
End Blocks.

Lemma fold_max_bound (l : list string) : forall acc,
  (acc <= fold_left (fun acc p => Nat.max acc (countDots p)) l acc)%nat /\
  (forall p, In p l -> (countDots p <= fold_left (fun acc p => Nat.max acc (countDots p)) l acc)%nat).
Proof.
  induction l as [|x l IH]; intro acc; simpl; [split; [lia | contradiction]|].
  destruct (IH (Nat.max acc (countDots x))) as [A B]. split; [lia|].
  intros p [<-|I]; [lia | exact (B p I)].
Qed.

(** X10: [sortMapKeysDesc] lists every key of the store once, deepest paths
    (most dots) first, and among paths of the same depth keeps the store's
    newest-first order. *)
Theorem sortMapKeysDesc_order (m : list (string * fieldPos)) :
  Permutation (sortMapKeysDesc m) (map fst m) /\
  Sorted (fun a b => (countDots b <= countDots a)%nat) (sortMapKeysDesc m) /\
  forall d, filter (fun p => Nat.eqb (countDots p) d) (sortMapKeysDesc m) =
            filter (fun p => Nat.eqb (countDots p) d) (rev (map fst m)).
Proof.
  unfold sortMapKeysDesc.
  set (l := rev (map fst m)).
  set (M := fold_left (fun acc p => Nat.max acc (countDots p)) l 0).
  assert (ND : NoDup (rev (seq 0 (S M)))) by (apply NoDup_rev, seq_NoDup).
  assert (In_ds : forall p, In p l -> In (countDots p) (rev (seq 0 (S M)))).
  { intros p I. rewrite <- in_rev. apply in_seq. destruct (fold_max_bound l 0) as [_ B].
    specialize (B p I). fold M in B. lia. }
  split; [|split].
  - rewrite (blocks_perm countDots l _ ND In_ds). apply Permutation_sym, Permutation_rev.
  - apply StronglySorted_Sorted, blocks_sorted.
  - intro d; apply blocks_filter; assumption.
Qed.

Lemma merge_treeStep_nodes (pp : list string) (n : fieldPos) (P : pathsOK pp n) :
  forall u top u', namesOK n -> (top = true -> pp = []) -> merge [] u n pp top = Some u' ->
  treeStep (fun q => exists s m, lookup n s = Some m /\ path m = q) (old u) (old u').
Proof.
  induction P as [pp n Hpath Hch IH]. intros u top u' Hn Htop H.
  inversion Hn as [? ND Hcn]; subst.
  rewrite merge_eq in H; simpl in H.
  rewrite getPath_lookup in H by (rewrite Hpath; apply app_single_nonnil).
  destruct (lookup (old u) (path n)) as [kin|] eqn:L.
  - destruct (convert u (path n) kin n) as [u1|] eqn:C; [|discriminate].
    destruct (convert_step u (path n) kin n u1 C L) as (F1 & S1 & _ & K).
    apply treeStep_trans with (old u1).
    + intros q fl Hq Hfl.
      destruct (list_eq_dec String.string_dec q (path n)) as [->|Hne].
      * rewrite (lookup_fieldAt _ _ _ L) in Hfl; injection Hfl as <-.
        eexists; split; [exact F1|]. destruct K as [K|K]; [left; exact K|].
        right; split; [exists [], n; split; reflexivity | exact K].
      * destruct (S1 q fl Hq Hne Hfl) as (fl' & X & Y); exists fl'; split; [exact X | left; exact Y].
    + eapply mergeList_treeStep; [|exact H].
      intros c Ic v v' M. eapply treeStep_mono;
        [|apply (IH c Ic v false v'); [apply Hcn; exact Ic | intro D; discriminate D | exact M]].
      intros q (s & m & Lm & Em). exists (name c :: s), m; split; [|exact Em].
      simpl; unfold childmap; rewrite (lastByName_In_NoDup _ _ ND Ic); exact Lm.
  - assert (Tr : forall fp, graft u fp n = Some u' -> path n = fp ++ [name n] ->
                  treeStep (fun q => exists s m, lookup n s = Some m /\ path m = q) (old u) (old u')).
    { intros fp G E; destruct (graft_at u fp n u' G E L) as [S _].
      eapply treeStep_mono; [|exact S]; intros q []. }
    destruct top.
    + apply (Tr [] H); rewrite Hpath, (Htop eq_refl); reflexivity.
    + destruct (getPath (old u) pp); try discriminate. apply (Tr pp H Hpath).
Qed.

Lemma Unify_treeStep_nodes (u : Bodkin) (R : Record_) (u1 : Bodkin) (f : fieldPos) :
  uniqueKeys R = true -> Unify u (InRecord R) = Returned u1 None ->
  mapToArrow (cfg u) newFieldPos R = Some f ->
  treeStep (fun q => exists m, lookup f q = Some m) (old u) (old u1).
Proof.
  intros U H W.
  destruct (Unify_ok u R u1 H) as (f' & u2 & W' & M & ->). rewrite W in W'; injection W' as <-.
  assert (NO := mapToArrow_names _ _ _ U W). inversion NO as [? ND Hcn]; subst.
  assert (HP := mapToArrow_paths _ _ _ W).
  rewrite mergeAll_mergeList in M. simpl.
  change (old u) with (old (setNew u f)).
  eapply mergeList_treeStep; [|exact M].
  intros c Ic v v' Mc. eapply treeStep_mono;
    [|apply (merge_treeStep_nodes [] c (HP c Ic) v true v'); [apply Hcn; exact Ic | reflexivity | exact Mc]].
  intros q (s & m & Lm & Em). exists m.
  destruct (lookup_path _ _ _ _ (HP c Ic) Lm) as [Ep _].
  destruct (pathsOK_inv _ _ (HP c Ic)) as [Ec _].
  rewrite <- Em, Ep, Ec. simpl; unfold childmap; rewrite (lastByName_In_NoDup _ _ ND Ic); exact Lm.
Qed.

Lemma convertedField_cases (tc : bool) (nm : string) (fl fn : Field) :
  convertedField tc nm fl fn = fl \/
  (tc = true /\ (convertedField tc nm fl fn = mkField nm (Some Float64Type) true \/
                 convertedField tc nm fl fn = mkField nm (Some StringType) true \/
                 convertedField tc nm fl fn = mkField nm (Some Timestamp_ms) true)).
Proof.
  unfold convertedField. destruct tc; [|left; reflexivity].
  destruct (Field_eqb fl fn); [left; reflexivity|].
  destruct (tid fl) as [a|], (tid fn) as [b|]; try (left; reflexivity).
  destruct (Type_eqb a b); [left; reflexivity|].
  destruct (mergeTarget a b) as [t|]; [|left; reflexivity].
  destruct (Upgradable b); [|left; reflexivity].
  destruct t; simpl; try (left; reflexivity); right; split; auto.
Qed.

(** X11: for a decoded record (a Go map, so with distinct keys), [Unify]
    keeps every field of the cumulative tree at its path, unchanged up to
    the restamp of a list or struct parent, except that with
    [type_conversion] on it may rewrite it as a nullable [Float64],
    [String] or millisecond [Timestamp] field. *)
Theorem Unify_field_fate (u u1 : Bodkin) (R : Record_) (e : option BodkinError)
  (q : list string) (fl : Field) :
  uniqueKeys R = true -> Unify u (InRecord R) = Returned u1 e ->
  q <> [] -> fieldAt (old u) q = Some fl ->
  exists fl', fieldAt (old u1) q = Some fl' /\
    (fieldStable fl fl' \/
     (typeConversion (cfg u) = true /\
      exists nm, fl' = mkField nm (Some Float64Type) true \/
                 fl' = mkField nm (Some StringType) true \/
                 fl' = mkField nm (Some Timestamp_ms) true)).
Proof.
  intros U H Hq F.
  destruct (Unify_cases u _ u1 e H) as [(-> & _)|[(-> & _)|(m & f & u2 & Im & W & M & E1 & -> & _)]].
  - exists fl; split; [exact F | left; apply fieldStable_refl].
  - exists fl; split; [exact F | left; apply fieldStable_refl].
  - simpl in Im; injection Im as <-.
    destruct (Unify_treeStep_nodes u R _ f U H W q fl Hq F) as (fl' & F' & [S|[(x & Lx) _]]).
    + exists fl'; split; [exact F' | left; exact S].
    + destruct (Unify_nodes u R _ f U H W q x Hq Lx) as [Ex (k' & L' & _ & C)].
      destruct (fieldAt_some _ _ _ F) as (kin & Lk & <-).
      rewrite Ex in L', C. specialize (C kin Lk).
      rewrite (lookup_fieldAt _ _ _ L') in F'; injection F' as <-.
      exists (field k'); split; [apply lookup_fieldAt; exact L'|].
      destruct (convertedField_cases (typeConversion (cfg u)) (name kin) (field kin) (field x))
        as [E|[T [E|[E|E]]]]; rewrite E in C.
      * left; exact C.
      * right; split; [exact T|]; exists (name kin); left.
        apply fieldStable_scalar' in C; [exact C | discriminate | discriminate].
      * right; split; [exact T|]; exists (name kin); right; left.
        apply fieldStable_scalar' in C; [exact C | discriminate | discriminate].
      * right; split; [exact T|]; exists (name kin); right; right.
        apply fieldStable_scalar' in C; [exact C | discriminate | discriminate].
Qed.

Lemma graft_added (u : Bodkin) (fp : list string) (n : fieldPos) (u' : Bodkin) :
  graft u fp n = Some u' ->
  exists f t, nodeAt (old u) fp = Some f /\ ftype (field n) = Some t /\
    changes u' = changes u ++ [Added (path f ++ [name n]) t].
Proof.
  unfold graft; intro H.
  destruct (nodeAt (old u) fp) as [f|]; [|discriminate]. simpl in H.
  destruct (ftype (field n)) as [t|]; [|discriminate]. simpl in H.
  exists f, t; split; [reflexivity | split; [reflexivity|]].
  open_result H; reflexivity.
Qed.

(** X13: when no node exists at [fp ++ [name n]], [graft u fp n] inserts
    [n]: every path below it reads back the fields of [n]'s subtree, the
    fields already in the tree stay (up to restamps), and the log gains
    exactly one [Added] entry with [n]'s type. *)
Theorem graft_insert_lookup (u : Bodkin) (fp : list string) (n : fieldPos) (u' : Bodkin) :
  graft u fp n = Some u' -> lookup (old u) (fp ++ [name n]) = None ->
  (forall s, fieldAt (old u') (fp ++ name n :: s) = fieldAt n s) /\
  treeStep (fun _ => False) (old u) (old u') /\
  exists f t, nodeAt (old u) fp = Some f /\ ftype (field n) = Some t /\
    changes u' = changes u ++ [Added (path f ++ [name n]) t].
Proof.
  intros G L. destruct (graft_step u fp n u' G L) as [S F].
  split; [exact F | split; [exact S | exact (graft_added u fp n u' G)]].
Qed.

Lemma upgradeType_changed (u : Bodkin) (op : list string) (o n : fieldPos) (t b : Type_)
  (u' : Bodkin) :
  upgradeType u op o n t = Some u' -> tid (field n) = Some b -> Upgradable b = true ->
  exists a c, ftype (field o) = Some a /\ ftype (upgradedField (name o) (field o) t) = Some c /\
    changes u' = changes u ++ [Changed (path o) a c].
Proof.
  unfold upgradeType; intros H Tn Ub. rewrite Tn, Ub in H; simpl in H.
  destruct (ftype (field o)) as [a|] eqn:Fo; [|discriminate]. simpl in H.
  change (match t with
          | FLOAT64 => mkField (name o) (Some Float64Type) true
          | STRING => mkField (name o) (Some StringType) true
          | TIMESTAMP => mkField (name o) (Some Timestamp_ms) true
          | _ => field o
          end) with (upgradedField (name o) (field o) t) in H.
  destruct (ftype (upgradedField (name o) (field o) t)) as [c|] eqn:Fc; [|discriminate]. simpl in H.
  exists a, c; split; [reflexivity | split; [reflexivity|]].
  open_result H; reflexivity.
Qed.

(** X14: [upgradeType] changes nothing when the observed type is not one of
    [UpgradableTypes]; otherwise it rewrites the field at [op] to the
    target's field, keeps every other field up to restamps, and appends
    exactly one [Changed] entry from the old to the new type. *)
Theorem upgradeType_rewrites (u : Bodkin) (op : list string) (o n : fieldPos) (t : Type_)
  (u' : Bodkin) :
  upgradeType u op o n t = Some u' -> lookup (old u) op = Some o ->
  exists b, tid (field n) = Some b /\
    ((Upgradable b = false /\ u' = u) \/
     (Upgradable b = true /\
      fieldAt (old u') op = Some (upgradedField (name o) (field o) t) /\
      stableOff op (old u) (old u') /\
      exists a c, ftype (field o) = Some a /\
        ftype (upgradedField (name o) (field o) t) = Some c /\
        changes u' = changes u ++ [Changed (path o) a c])).
Proof.
  intros H L. destruct (upgradeType_step u op o n t u' H L) as (b & Tb & [N|(Ub & F & S)]).
  - exists b; split; [exact Tb | left; exact N].
  - exists b; split; [exact Tb|]. right; split; [exact Ub|]. split; [exact F|]. split; [exact S|].
    exact (upgradeType_changed u op o n t b u' H Tb Ub).
Qed.

(** X12: a record (a Go map, so with distinct keys) each of whose paths
    already holds a field that absorbs it (without [type_conversion]: each
    of whose paths already exists) leaves the cumulative tree and the
    change log of [Unify] as they were. *)
Theorem Unify_fitting_record (u u' : Bodkin) (R : Record_) (f : fieldPos)
  (e : option BodkinError) :
  uniqueKeys R = true -> mapToArrow (cfg u) newFieldPos R = Some f ->
  (forall q m, q <> [] -> lookup f q = Some m ->
     exists kin, lookup (old u) q = Some kin /\
       absorbs (typeConversion (cfg u)) (field kin) (field m) = true) ->
  Unify u (InRecord R) = Returned u' e ->
  old u' = old u /\ changes u' = changes u.
Proof.
  intros U W Ab H.
  destruct (Unify_cases u _ u' e H) as [(-> & _)|[(-> & _)|(m & f' & u2 & Im & W' & M & -> & _)]];
    try (split; reflexivity).
  simpl in Im; injection Im as <-. rewrite W in W'; injection W' as <-.
  assert (NO := mapToArrow_names _ _ _ U W). inversion NO as [? ND Hcn]; subst.
  assert (HP := mapToArrow_paths _ _ _ W).
  rewrite mergeAll_mergeList, mergeList_noop in M; [injection M as <-; split; reflexivity|].
  intros c Ic. split; [exact (HP c Ic)|]. split; [exact (Hcn c Ic)|].
  intros s m Lm. simpl.
  destruct (lookup_path _ _ _ _ (HP c Ic) Lm) as [Em _].
  destruct (pathsOK_inv _ _ (HP c Ic)) as [Ec _].
  rewrite Em, Ec. apply Ab; [discriminate|].
  simpl; unfold childmap; rewrite (lastByName_In_NoDup _ _ ND Ic); exact Lm.
Qed.

Lemma kept_map (m : list (string * Value)) :
  kept (VMap m) = existsb (fun kv => kept (snd kv)) m.
Proof. induction m as [|[k w] m IH]; simpl; [reflexivity|]. rewrite <- IH; reflexivity. Qed.

Lemma loop_kept (entry : fieldPos -> string -> Value -> option (option fieldPos))
  (m : list (string * Value)) :
  (forall k v, In (k, v) m -> forall g r, entry g k v = Some r -> entryKept k v r) ->
  forall f f', mapToArrowLoop entry f m = Some f' ->
  name f' = name f /\
  map name (children f') = map name (children f) ++ keptKeys m /\
  (forall c, In c (children f') -> In c (children f) \/ fname (field c) = name c).
Proof.
  unfold keptKeys.
  induction m as [|[k v] m IH]; intros HE f f' H; simpl in H.
  - injection H as <-; simpl. split; [reflexivity|]. rewrite app_nil_r.
    split; [reflexivity | intros c I; left; exact I].
  - destruct (entry f k v) as [r|] eqn:E; [|discriminate].
    assert (K := HE k v (or_introl eq_refl) f r E).
    destruct r as [child|].
    + destruct K as (Kv & Nc & Fc).
      destruct (IH (fun k' v' I => HE k' v' (or_intror I)) _ _ H) as (E1 & E2 & E3).
      simpl. rewrite Kv. split; [exact E1|]. split.
      * rewrite E2; simpl; rewrite map_app, <- app_assoc; simpl; rewrite Nc; reflexivity.
      * intros c I. destruct (E3 c I) as [I'|X]; [|right; exact X].
        simpl in I'; apply in_app_or in I' as [I'|[<-|[]]]; [left; exact I' | right; rewrite Nc; exact Fc].
    + destruct (IH (fun k' v' I => HE k' v' (or_intror I)) _ _ H) as (E1 & E2 & E3).
      simpl. rewrite K. split; [exact E1 | split; [exact E2 | exact E3]].
Qed.

Lemma entry_kept (cfg : Config) (v : Value) :
  (forall f k r, mapEntry cfg f k v = Some r -> entryKept k v r) /\
  (forall f rest f' et, sliceElemType cfg f v rest = Some (f', et) -> name f' = name f).
Proof.
  induction v as [v IHv] using Value_ind'.
  assert (LeafS : forall f f' et (x : option (option Type_ * option DataType)),
            (let* x := x in let '(aty, dt) := x in Some (setArrowType f aty, dt)) = Some (f', et) ->
            name f' = name f).
  { intros f f' et [[aty dt]|] H; [|discriminate]. injection H as <- _.
    destruct (setArrowType_fields f aty) as (_ & E2 & _); exact E2. }
  destruct v; split; intros *; cbn [mapEntry sliceElemType];
    try solve [apply LeafS
              | intro H; destruct (goType2Arrow _ _) as [[aty dt]|]; [injection H as <- | discriminate H];
                destruct (setArrowType_fields (newChild f k) aty) as (_ & E2 & _);
                simpl; rewrite E2; repeat split
              | intro H; injection H as <-; reflexivity].
  - (* mapEntry, VList *)
    destruct l as [|w rest]; intro H; [injection H as <-; reflexivity|].
    destruct (sliceElemType cfg (newChild f k) w rest) as [[child et]|] eqn:S; [|discriminate].
    destruct (ListOf et) as [lt|]; [|discriminate]. injection H as <-.
    assert (Nm := proj2 (IHv w (or_introl eq_refl)) _ _ _ _ S).
    split; [reflexivity|]. simpl; rewrite Nm; split; reflexivity.
  - (* sliceElemType, VList *)
    destruct l as [|w rest']; intro H; [injection H as <- _; reflexivity|].
    destruct (sliceElemType cfg (newChild f (name f ++ ".elem")) w rest') as [[child et']|]; [|discriminate].
    destruct (ListOf et') as [lt|]; [|discriminate]. injection H as <- _. reflexivity.
  - (* mapEntry, VMap *)
    intro H.
    destruct (mapToArrowLoop (mapEntry cfg) (newChild f k) m) as [child|] eqn:L; [|discriminate].
    destruct (loop_kept (mapEntry cfg) m
                (fun k' v' I g r => proj1 (IHv v' (In_map_snd _ _ _ I)) g k' r) _ _ L)
      as (E1 & E2 & _).
    simpl in E2. unfold keptKeys in E2.
    destruct (children child) as [|c0 cs] eqn:Ch; injection H as <-; unfold entryKept; rewrite kept_map.
    + destruct (existsb (fun kv => kept (snd kv)) m) eqn:X; [|reflexivity].
      apply existsb_exists in X as (kv & I & Kv).
      assert (I' : In kv (filter (fun kv => kept (snd kv)) m)) by (apply filter_In; split; assumption).
      destruct (filter (fun kv => kept (snd kv)) m); [contradiction | discriminate E2].
    + split.
      * destruct (existsb (fun kv => kept (snd kv)) m) eqn:X; [reflexivity|].
        assert (F : filter (fun kv => kept (snd kv)) m = []).
        { destruct (filter (fun kv => kept (snd kv)) m) as [|kv l] eqn:Fl; [reflexivity|].
          assert (I : In kv (filter (fun kv => kept (snd kv)) m)) by (rewrite Fl; left; reflexivity).
          apply filter_In in I as [I Kv].
          assert (existsb (fun kv => kept (snd kv)) m = true) by (apply existsb_exists; exists kv; split; assumption).
          congruence. }
        rewrite F in E2; discriminate E2.
      * simpl in E1 |- *; rewrite E1; split; reflexivity.
  - (* sliceElemType, VMap *)
    intro H.
    destruct (mapToArrowLoop (mapEntry cfg) (newChild f (name f ++ ".elem")) m) as [child|];
      [|discriminate]. injection H as <- _. reflexivity.
Qed.

(** X5: after [Unify] of a record, [LastSchema] reports the schema of the
    tree that this [Unify] built from the record: one field per key whose
    value is not nil, not an empty slice and not a map holding only such
    values, named after its key, in the order this walk visits the keys.
    When [Unify] returns an error, [LastSchema] is what it was before. *)
Theorem LastSchema_after_Unify (u u' : Bodkin) (R : Record_) (e : option BodkinError) :
  Unify u (InRecord R) = Returned u' e ->
  match e with
  | None => exists fs, LastSchema u' = inl fs /\ map fname fs = keptKeys R
  | Some _ => LastSchema u' = LastSchema u
  end.
Proof.
  intro U. destruct (Unify_cases u _ u' e U)
    as [(-> & -> & _)|[(-> & ->)|(m & f & u2 & I & W & M & -> & -> & _)]].
  - reflexivity.
  - reflexivity.
  - simpl in I; injection I as <-.
    destruct (mergeAll_frame _ _ _ _ M) as (_ & _ & Nw & _).
    unfold LastSchema; simpl; rewrite Nw; simpl.
    eexists; split; [reflexivity|].
    destruct (loop_kept _ R (fun k v _ g r => proj1 (entry_kept _ v) g k r) _ _ W) as (_ & E2 & E3).
    simpl in E2. rewrite <- E2, map_map. apply map_ext_in.
    intros c Ic; destruct (E3 c Ic) as [[]|X]; exact X.
Qed.

(** X6: a freshly built [Bodkin] has no latest schema ([LastSchema] fails
    with [ErrNoLatestSchema]), and the schema [NewBodkin] builds from a
    record (its [OriginSchema]) has one field per key whose value is not
    nil, not an empty slice and not a map holding only such values, named
    after its key, in the order the walk building it visits the keys. *)
Theorem OriginSchema_names (R : Record_) (opts : list Option_) (u : Bodkin) :
  newBodkin R opts = Some u ->
  LastSchema u = inr ErrNoLatestSchema /\ map fname (OriginSchema u) = keptKeys R.
Proof.
  unfold newBodkin, OriginSchema; intro H.
  destruct (mapToArrow _ newFieldPos R) as [g|] eqn:W; [|discriminate]. simpl in H.
  injection H as <-. split.
  { unfold LastSchema; simpl. rewrite fold_applyOption_new; reflexivity. }
  simpl.
  destruct (loop_kept _ R (fun k v _ g r => proj1 (entry_kept _ v) g k r) _ _ W) as (_ & E2 & E3).
  simpl in E2. rewrite <- E2, map_map. apply map_ext_in.
  intros c I; destruct (E3 c I) as [[]|X]; exact X.
Qed.


(** Scenario S3: [{"a": 1}], then [{"a": 1.5}]. *)
Lemma Unify_increments_count_witness :
  exists u u', newBodkin S3a [] = Some u /\ Unify u (InRecord S3b) = Returned u' None /\
    unificationCount u' = incr64 (unificationCount u) /\ maxCount u' = maxCount u /\
    cfg u' = cfg u.
Proof.
  let v := eval vm_compute in (newBodkin S3a []) in
  match v with Some ?u =>
    let w := eval vm_compute in (Unify u (InRecord S3b)) in
    match w with Returned ?u' _ =>
      exists u, u';
      assert (E1 : newBodkin S3a [] = Some u) by (vm_compute; reflexivity);
      assert (E2 : Unify u (InRecord S3b) = Returned u' None) by (vm_compute; reflexivity);
      split; [exact E1|]; split; [exact E2|];
      exact (Unify_increments_count u (InRecord S3b) u' E2)
    end
  end.
Defined.

(** [WithMaxCount(0)] is overridden: the second record of S3 is merged. *)
Lemma reachable_no_maxcount_error_witness :
  exists u u' e, newBodkin S3a [WithMaxCount 0] = Some u /\
    Unify u (InRecord S3b) = Returned u' e /\ e <> Some ErrMaxCountExceeded.
Proof.
  let v := eval vm_compute in (newBodkin S3a [WithMaxCount 0]) in
  match v with Some ?u =>
    let w := eval vm_compute in (Unify u (InRecord S3b)) in
    match w with Returned ?u' ?e =>
      exists u, u', e;
      assert (E1 : newBodkin S3a [WithMaxCount 0] = Some u) by (vm_compute; reflexivity);
      assert (E2 : Unify u (InRecord S3b) = Returned u' e) by (vm_compute; reflexivity);
      split; [exact E1|]; split; [exact E2|];
      exact (reachable_no_maxcount_error u (InRecord S3b) "" u' e (reach_new _ _ _ E1) (or_introl E2))
    end
  end.
Defined.

(** [{"a": 1}], then [{"a": {"b": 1}}]: the original schema stays. *)
Lemma api_keeps_OriginSchema_witness :
  exists u u', newBodkin S3a [] = Some u /\ Unify u (InRecord S5a) = Returned u' None /\
    original u' = original u /\ OriginSchema u' = OriginSchema u.
Proof.
  let v := eval vm_compute in (newBodkin S3a []) in
  match v with Some ?u =>
    let w := eval vm_compute in (Unify u (InRecord S5a)) in
    match w with Returned ?u' _ =>
      exists u, u';
      assert (E1 : newBodkin S3a [] = Some u) by (vm_compute; reflexivity);
      assert (E2 : Unify u (InRecord S5a) = Returned u' None) by (vm_compute; reflexivity);
      split; [exact E1|]; split; [exact E2|];
      exact (api_keeps_OriginSchema u (InRecord S5a) "" u' None (or_introl E2))
    end
  end.
Defined.

(** [{"d": "1979-01-01"}], then a timestamp at [d], with [type_conversion]. *)
Lemma changes_append_only_witness :
  exists u u', newBodkin D4a [WithInferTimeUnits; WithTypeConversion] = Some u /\
    Unify u (InRecord D4b) = Returned u' None /\
    exists l, changes u' = changes u ++ l /\
      (typeConversion (cfg u) = false -> Forall (fun c => isAdded c = true) l).
Proof.
  let v := eval vm_compute in (newBodkin D4a [WithInferTimeUnits; WithTypeConversion]) in
  match v with Some ?u =>
    let w := eval vm_compute in (Unify u (InRecord D4b)) in
    match w with Returned ?u' _ =>
      exists u, u';
      assert (E1 : newBodkin D4a [WithInferTimeUnits; WithTypeConversion] = Some u)
        by (vm_compute; reflexivity);
      assert (E2 : Unify u (InRecord D4b) = Returned u' None) by (vm_compute; reflexivity);
      split; [exact E1|]; split; [exact E2|];
      exact (changes_append_only u (InRecord D4b) "" u' None (or_introl E2))
    end
  end.
Defined.

(** [NewBodkin] from scenario S1, then [Unify] of scenario S2: the latest
    schema has one field per key of S2, in the order of that walk; a
    further [Unify] over an exhausted budget leaves it as it was. *)
Lemma LastSchema_after_Unify_witness :
  exists u u', newBodkin S1 [WithInferTimeUnits] = Some u /\
    Unify u (InRecord S2) = Returned u' None /\
    keptKeys S2 = ["count"; "previous"; "results"; "arrayscalar"; "datetime";
                   "event_time"; "datefield"; "timefield"] /\
    (exists fs, LastSchema u' = inl fs /\ map fname fs = keptKeys S2) /\
    Unify (setMaxCount u' 0) (InRecord S1) =
      Returned (setMaxCount u' 0) (Some ErrMaxCountExceeded) /\
    LastSchema (setMaxCount u' 0) = LastSchema u'.
Proof.
  let v := eval vm_compute in (newBodkin S1 [WithInferTimeUnits]) in
  match v with Some ?u =>
    let w := eval vm_compute in (Unify u (InRecord S2)) in
    match w with Returned ?u' None =>
      exists u, u';
      assert (E1 : Unify u (InRecord S2) = Returned u' None) by (vm_compute; reflexivity);
      assert (E2 : Unify (setMaxCount u' 0) (InRecord S1) =
                   Returned (setMaxCount u' 0) (Some ErrMaxCountExceeded))
        by (vm_compute; reflexivity);
      split; [vm_compute; reflexivity|]; split; [exact E1|];
      split; [vm_compute; reflexivity|];
      split; [exact (LastSchema_after_Unify u u' S2 None E1)|];
      split; [exact E2 | exact (LastSchema_after_Unify _ _ S1 (Some ErrMaxCountExceeded) E2)]
    end
  end.
Defined.

(** A timestamp string, with [inferTimeUnits]. *)
Lemma goType2Arrow_arrowTypeID2Type_witness :
  goType2Arrow (mkConfig true false false) (VString "2024-10-24T19:03:09+00:00") =
    Some (Some TIMESTAMP, Some Timestamp_us) /\
  arrowTypeID2Type newFieldPos TIMESTAMP = Some Timestamp_us /\
  exists d, Some Timestamp_us = Some d /\ (ID d = TIMESTAMP \/ (TIMESTAMP = NULL /\ d = BinaryType)).
Proof.
  assert (E : goType2Arrow (mkConfig true false false) (VString "2024-10-24T19:03:09+00:00") =
                Some (Some TIMESTAMP, Some Timestamp_us)) by (vm_compute; reflexivity).
  split; [exact E|].
  exact (goType2Arrow_arrowTypeID2Type _ _ newFieldPos TIMESTAMP (Some Timestamp_us) E).
Defined.

(** The path [a.b] written as "$a.b" and read back. *)
Lemma mergePathOf_dotPath_witness :
  dotPath ["a"; "b"] = "$a.b" /\ mergePathOf (dotPath ["a"; "b"]) = ["a"; "b"].
Proof.
  split; [reflexivity|].
  exact (mergePathOf_dotPath ["a"; "b"] ltac:(discriminate) ltac:(repeat constructor)).
Defined.

(** Scenario S5 followed by [{"a": {"b": 1, "c": "y"}}]. *)
Lemma Paths_always_empty_witness :
  exists u u', newBodkin S5a [] = Some u /\ Unify u (InRecord G10b) = Returned u' None /\
    Paths u' = [] /\ CountPaths u' = 0.
Proof.
  let v := eval vm_compute in (newBodkin S5a []) in
  match v with Some ?u =>
    let w := eval vm_compute in (Unify u (InRecord G10b)) in
    match w with Returned ?u' _ =>
      exists u, u';
      assert (E1 : newBodkin S5a [] = Some u) by (vm_compute; reflexivity);
      assert (E2 : Unify u (InRecord G10b) = Returned u' None) by (vm_compute; reflexivity);
      split; [exact E1|]; split; [exact E2|];
      exact (Paths_always_empty u' (reach_Unify _ _ _ _ (reach_new _ _ _ E1) E2))
    end
  end.
Defined.

(** A [Date32] field at [d] observed with a timestamp, with [type_conversion]. *)
Lemma Unify_field_fate_witness :
  exists u u1 fl, newBodkin D4a [WithInferTimeUnits; WithTypeConversion] = Some u /\
    Unify u (InRecord D4b) = Returned u1 None /\
    fieldAt (old u) ["d"] = Some fl /\ tid fl = Some DATE32 /\
    exists fl', fieldAt (old u1) ["d"] = Some fl' /\
      (fieldStable fl fl' \/
       (typeConversion (cfg u) = true /\
        exists nm, fl' = mkField nm (Some Float64Type) true \/
                   fl' = mkField nm (Some StringType) true \/
                   fl' = mkField nm (Some Timestamp_ms) true)).
Proof.
  let v := eval vm_compute in (newBodkin D4a [WithInferTimeUnits; WithTypeConversion]) in
  match v with Some ?u =>
    let w := eval vm_compute in (Unify u (InRecord D4b)) in
    match w with Returned ?u1 _ =>
      let x := eval vm_compute in (fieldAt (old u) ["d"]) in
      match x with Some ?fl =>
        exists u, u1, fl;
        assert (E1 : newBodkin D4a [WithInferTimeUnits; WithTypeConversion] = Some u)
          by (vm_compute; reflexivity);
        assert (E2 : Unify u (InRecord D4b) = Returned u1 None) by (vm_compute; reflexivity);
        assert (F : fieldAt (old u) ["d"] = Some fl) by (vm_compute; reflexivity);
        split; [exact E1|]; split; [exact E2|]; split; [exact F|]; split; [reflexivity|];
        exact (Unify_field_fate u u1 D4b None ["d"] fl ltac:(vm_compute; reflexivity) E2
                 ltac:(discriminate) F)
      end
    end
  end.
Defined.

(** The leaf [c] grafted at the root of the tree of [{"a": 1}]. *)
Lemma graft_insert_lookup_witness :
  exists u u', newBodkin S3a [] = Some u /\ graft u [] nodeC = Some u' /\
    (forall s, fieldAt (old u') ([] ++ name nodeC :: s) = fieldAt nodeC s) /\
    treeStep (fun _ => False) (old u) (old u') /\
    exists f t, nodeAt (old u) [] = Some f /\ ftype (field nodeC) = Some t /\
      changes u' = changes u ++ [Added (path f ++ [name nodeC]) t].
Proof.
  let v := eval vm_compute in (newBodkin S3a []) in
  match v with Some ?u =>
    let w := eval vm_compute in (graft u [] nodeC) in
    match w with Some ?u' =>
      exists u, u';
      assert (E1 : newBodkin S3a [] = Some u) by (vm_compute; reflexivity);
      assert (E2 : graft u [] nodeC = Some u') by (vm_compute; reflexivity);
      split; [exact E1|]; split; [exact E2|];
      exact (graft_insert_lookup u [] nodeC u' E2 ltac:(vm_compute; reflexivity))
    end
  end.
Defined.

(** The [int64] field [a] upgraded to [String]. *)
Lemma upgradeType_rewrites_witness :
  exists u o u', newBodkin S3a [WithTypeConversion] = Some u /\
    lookup (old u) ["a"] = Some o /\ upgradeType u ["a"] o nodeS STRING = Some u' /\
    exists b, tid (field nodeS) = Some b /\
    ((Upgradable b = false /\ u' = u) \/
     (Upgradable b = true /\
      fieldAt (old u') ["a"] = Some (upgradedField (name o) (field o) STRING) /\
      stableOff ["a"] (old u) (old u') /\
      exists a c, ftype (field o) = Some a /\
        ftype (upgradedField (name o) (field o) STRING) = Some c /\
        changes u' = changes u ++ [Changed (path o) a c])).
Proof.
  let v := eval vm_compute in (newBodkin S3a [WithTypeConversion]) in
  match v with Some ?u =>
    let x := eval vm_compute in (lookup (old u) ["a"]) in
    match x with Some ?o =>
      let w := eval vm_compute in (upgradeType u ["a"] o nodeS STRING) in
      match w with Some ?u' =>
        exists u, o, u';
        assert (E1 : newBodkin S3a [WithTypeConversion] = Some u) by (vm_compute; reflexivity);
        assert (L : lookup (old u) ["a"] = Some o) by (vm_compute; reflexivity);
        assert (E2 : upgradeType u ["a"] o nodeS STRING = Some u') by (vm_compute; reflexivity);
        split; [exact E1|]; split; [exact L|]; split; [exact E2|];
        exact (upgradeType_rewrites u ["a"] o nodeS STRING u' E2 L)
      end
    end
  end.
Defined.

(** Scenario S3 with [type_conversion]: [1.5] at the [int64] path [a] fits. *)
Lemma Unify_fitting_record_witness :
  exists u u' f e, newBodkin S3a [WithTypeConversion] = Some u /\
    mapToArrow (cfg u) newFieldPos S3b = Some f /\
    Unify u (InRecord S3b) = Returned u' e /\
    old u' = old u /\ changes u' = changes u.
Proof.
  let v := eval vm_compute in (newBodkin S3a [WithTypeConversion]) in
  match v with Some ?u =>
    let x := eval vm_compute in (mapToArrow (cfg u) newFieldPos S3b) in
    match x with Some ?f =>
      let w := eval vm_compute in (Unify u (InRecord S3b)) in
      match w with Returned ?u' ?e =>
        exists u, u', f, e;
        assert (E1 : newBodkin S3a [WithTypeConversion] = Some u) by (vm_compute; reflexivity);
        assert (W : mapToArrow (cfg u) newFieldPos S3b = Some f) by (vm_compute; reflexivity);
        assert (E2 : Unify u (InRecord S3b) = Returned u' e) by (vm_compute; reflexivity);
        split; [exact E1|]; split; [exact W|]; split; [exact E2|];
        refine (Unify_fitting_record u u' S3b f e ltac:(vm_compute; reflexivity) W _ E2)
      end
    end
  end.
  intros q m Hq L. destruct q as [|k s]; [congruence|].
  cbn [lookup childmap lastByName children name] in L.
  destruct (String.eqb "a" k) eqn:K; [|discriminate L].
  apply String.eqb_eq in K; subst k.
  destruct s as [|k' s]; cbn [lookup childmap lastByName children] in L; [|discriminate L].
  injection L as <-. eexists; split; [reflexivity | vm_compute; reflexivity].
Defined.

(** Scenario S1: [previous] (null) and [arrayscalar] (empty) get no field. *)
Lemma OriginSchema_names_witness :
  exists u, newBodkin S1 [WithInferTimeUnits] = Some u /\
    LastSchema u = inr ErrNoLatestSchema /\
    map fname (OriginSchema u) = keptKeys S1 /\
    keptKeys S1 = ["count"; "next"; "results"; "datefield"; "timefield"].
Proof.
  let v := eval vm_compute in (newBodkin S1 [WithInferTimeUnits]) in
  match v with Some ?u =>
    exists u;
    assert (E : newBodkin S1 [WithInferTimeUnits] = Some u) by (vm_compute; reflexivity);
    split; [exact E|];
    destruct (OriginSchema_names S1 [WithInferTimeUnits] u E) as [A B];
    split; [exact A|]; split; [exact B | vm_compute; reflexivity]
  end.
Defined.
